(** * Text-to-speech editor: playback clock, synthesis gate and WAV export

    A shallow embedding of [src/utils/audioExport.ts] and of the audio logic
    of [src/App.tsx], with the properties its specification states.

    - JavaScript numbers that carry audio samples are IEEE 754 binary64
      values and are modelled by Rocq's primitive floats, so that the
      quantisation performed by the encoder is bit exact.
    - Clock readings, offsets and speeds are modelled by rationals [Q],
      where the code computes in binary64.  What is stated about them are
      equalities between copied values, clamping to [0, duration] and order
      properties that rounding to nearest keeps, since it is monotone; no
      statement relies on a sum or a product being exact.
    - Strings are sequences of UTF-16 code units.
    - React state is read from the snapshot of the render in which a
      handler was created and written through setters; refs are read and
      written in place.
    - [playAudio] and [handleExport] are asynchronous.  [step] runs a
      handler as a whole, which is what happens when the service answers
      before the next event; [asyncStep] cuts both handlers at their
      [await], so that other events, further requests included, are handled
      while a call is pending. *)

From Stdlib Require Import ZArith NArith QArith Qminmax Qround Floats Lia Lqa Bool List.
From Stdlib Require Import Ascii String.
From stdpp Require Import base list gmap.
Import ListNotations.

Local Open Scope Z_scope.

(** ** JavaScript values *)

Module JS.

(** A string is a sequence of UTF-16 code units. *)
Definition JSString := list N.

(** The code units of an ASCII literal. *)
Fixpoint lit (s : String.string) : JSString :=
  match s with
  | String.EmptyString => []
  | String.String c s' => N_of_ascii c :: lit s'
  end.

(** What a call produces: a value, a thrown error, or no answer within the
    steps allowed to a loop. *)
Inductive JSError := RangeError | TypeError.

Inductive completion (A : Type) :=
  | Return (a : A)
  | Throw (e : JSError)
  | Timeout.
Arguments Return {A} a.
Arguments Throw {A} e.
Arguments Timeout {A}.

Definition bind {A B} (c : completion A) (k : A -> completion B) : completion B :=
  match c with
  | Return a => k a
  | Throw e => Throw e
  | Timeout => Timeout
  end.

#[global] Instance completion_bind : MBind completion := fun A B k c => bind c k.
#[global] Instance completion_ret : MRet completion := fun A a => Return a.

(** [Math.min] and [Math.max] on two numbers: NaN is contagious and
    [-0] is below [+0]. *)
Definition Math_min (a b : float) : float :=
  if (PrimFloat.is_nan a || PrimFloat.is_nan b)%bool then PrimFloat.nan
  else if PrimFloat.ltb a b then a
  else if PrimFloat.ltb b a then b
  else if PrimFloat.get_sign a then a else b.

Definition Math_max (a b : float) : float :=
  if (PrimFloat.is_nan a || PrimFloat.is_nan b)%bool then PrimFloat.nan
  else if PrimFloat.ltb a b then b
  else if PrimFloat.ltb b a then a
  else if PrimFloat.get_sign a then b else a.

(** The integer part of a number, rounding toward zero; NaN, the
    infinities and the zeros give 0. *)
Definition truncate (x : float) : Z :=
  match Prim2SF x with
  | S754_finite s m e => cond_Zopp s (Z.shiftl (Z.pos m) e)
  | _ => 0
  end.

(** Two's complement reading of the low [w] bits of an integer. *)
Definition wrapSigned (w : Z) (z : Z) : Z :=
  (z + 2 ^ (w - 1)) mod 2 ^ w - 2 ^ (w - 1).

(** [ToInt32], the conversion behind [x | 0]. *)
Definition ToInt32 (x : float) : Z := wrapSigned 32 (truncate x).

(** [undefined] converted to a number. *)
Definition ToNumber_undefined : float := PrimFloat.nan.

End JS.
Import JS.

(** ** Byte sequences and [DataView] *)

Definition byteOfZ (z : Z) : Byte.byte :=
  match Byte.of_N (Z.to_N (z mod 256)) with
  | Some b => b
  | None => Byte.x00
  end.

Definition byteToZ (b : Byte.byte) : Z := Z.of_N (Byte.to_N b).

(** The [n] low-order bytes of [v], least significant first. *)
Fixpoint littleEndian (n : nat) (v : Z) : list Byte.byte :=
  match n with
  | O => []
  | S n' => byteOfZ v :: littleEndian n' (v / 256)
  end.

(** The number a little-endian byte sequence stands for. *)
Fixpoint fromLittleEndian (bs : list Byte.byte) : Z :=
  match bs with
  | [] => 0
  | b :: bs' => byteToZ b + 256 * fromLittleEndian bs'
  end.

(** A signed 16-bit read, as [DataView.getInt16(_, true)]. *)
Definition getInt16 (bs : list Byte.byte) : Z := wrapSigned 16 (fromLittleEndian bs).

(** [new ArrayBuffer(length)] is zero filled. *)
Definition newArrayBuffer (length : nat) : list Byte.byte := replicate length Byte.x00.

(** A store through a [DataView]: out of bounds is a [RangeError]. *)
Definition viewSet (view : list Byte.byte) (pos : nat) (bs : list Byte.byte)
  : completion (list Byte.byte) :=
  if (pos + length bs <=? length view)%nat
  then Return (list_inserts pos bs view)
  else Throw RangeError.

(** ** The decoded audio buffer (Web Audio [AudioBuffer]) *)

Record AudioBuffer := mkAudioBuffer {
  sampleRate : positive;               (* frames per second *)
  buf_length : nat;                    (* [buffer.length]: frames per channel *)
  channelData : list (list float)      (* one sample array per channel *)
}.

Definition numberOfChannels (buffer : AudioBuffer) : nat := length (channelData buffer).

(** [buffer.duration], in seconds. *)
Definition duration (buffer : AudioBuffer) : Q :=
  Z.of_nat (buf_length buffer) # sampleRate buffer.

(** The shape every buffer produced by the audio subsystem has: at least
    one channel, every channel [buf_length] samples long. *)
Definition wellShaped (buffer : AudioBuffer) : Prop :=
  (0 < numberOfChannels buffer)%nat /\
  Forall (fun ch => length ch = buf_length buffer) (channelData buffer).

Record Blob := mkBlob {
  blobParts : list Byte.byte;
  blobType : JSString
}.

(** ** [audioBufferToWav] (src/utils/audioExport.ts) *)

(** The variables the function and its two local writers share. *)
Record Encoder := mkEncoder {
  view : list Byte.byte;
  pos : nat;
  offset : nat
}.

Definition setUint16 (data : Z) (e : Encoder) : completion Encoder :=
  v ← viewSet (view e) (pos e) (littleEndian 2 data);
  mret (mkEncoder v (pos e + 2) (offset e)).

Definition setUint32 (data : Z) (e : Encoder) : completion Encoder :=
  v ← viewSet (view e) (pos e) (littleEndian 4 data);
  mret (mkEncoder v (pos e + 4) (offset e)).

(** [view.setInt16(pos, sample, true); pos += 2] *)
Definition setInt16 (sample : Z) (e : Encoder) : completion Encoder :=
  v ← viewSet (view e) (pos e) (littleEndian 2 sample);
  mret (mkEncoder v (pos e + 2) (offset e)).

(** [channels[i][offset]]: reading past the end of a typed array gives
    [undefined]. *)
Definition readSample (channel : list float) (offset : nat) : float :=
  default ToNumber_undefined (channel !! offset).

(** [Math.max(-1, Math.min(1, s))] *)
Definition clampSample (s : float) : float :=
  Math_max (-1)%float (Math_min 1%float s).

(** [(sample < 0 ? sample * 0x8000 : sample * 0x7fff) | 0] *)
Definition scaleSample (sample : float) : Z :=
  ToInt32 (if PrimFloat.ltb sample 0%float
           then PrimFloat.mul sample 32768%float
           else PrimFloat.mul sample 32767%float).

(** The inner [for (i = 0; i < numOfChan; i++)], entered at index [i] with
    [n] channels still to visit. *)
Fixpoint forChannels (n i : nat) (channels : list (list float)) (e : Encoder)
  : completion Encoder :=
  match n with
  | O => mret e
  | S n' =>
      match channels !! i with
      | None => Throw TypeError
      | Some channel =>
          let sample := clampSample (readSample channel (offset e)) in
          let sample := scaleSample sample in
          e' ← setInt16 sample e;
          forChannels n' (S i) channels e'
      end
  end.

(** [while (pos < length) { for ...; offset++ }], given [fuel] passes. *)
Fixpoint whileFrames (fuel : nat) (numOfChan length : nat)
  (channels : list (list float)) (e : Encoder) : completion Encoder :=
  if (pos e <? length)%nat then
    match fuel with
    | O => Timeout
    | S fuel' =>
        e' ← forChannels numOfChan 0 channels e;
        whileFrames fuel' numOfChan length channels
          (mkEncoder (view e') (pos e') (offset e' + 1))
    end
  else mret e.

Definition audioBufferToWavWithin (fuel : nat) (buffer : AudioBuffer) : completion Blob :=
  let numOfChan := numberOfChannels buffer in
  let length := (buf_length buffer * numOfChan * 2 + 44)%nat in
  let e := mkEncoder (newArrayBuffer length) 0 0 in
  (* write WAVE header *)
  e ← setUint32 0x46464952 e;                                   (* "RIFF" *)
  e ← setUint32 (Z.of_nat length - 8) e;                        (* file length - 8 *)
  e ← setUint32 0x45564157 e;                                   (* "WAVE" *)
  e ← setUint32 0x20746d66 e;                                   (* "fmt " chunk *)
  e ← setUint32 16 e;                                           (* length = 16 *)
  e ← setUint16 1 e;                                            (* PCM (uncompressed) *)
  e ← setUint16 (Z.of_nat numOfChan) e;
  e ← setUint32 (Z.pos (sampleRate buffer)) e;
  e ← setUint32 (Z.pos (sampleRate buffer) * 2 * Z.of_nat numOfChan) e; (* avg. bytes/sec *)
  e ← setUint16 (Z.of_nat numOfChan * 2) e;                     (* block-align *)
  e ← setUint16 16 e;                                           (* 16-bit *)
  e ← setUint32 0x61746164 e;                                   (* "data" - chunk *)
  e ← setUint32 (Z.of_nat length - Z.of_nat (pos e) - 4) e;     (* chunk length *)
  (* write interleaved data; [channels] collects [getChannelData(i)] for
     every [i] below [numberOfChannels] *)
  let channels := channelData buffer in
  e ← whileFrames fuel numOfChan length channels e;
  mret (mkBlob (view e) (lit "audio/wav")).

(** One pass of the loop per frame is all the function ever needs. *)
Definition audioBufferToWav (buffer : AudioBuffer) : completion Blob :=
  audioBufferToWavWithin (buf_length buffer) buffer.

(** [audioBufferToMp3] resolves to the WAV blob. *)
Definition audioBufferToMp3 (buffer : AudioBuffer) : completion Blob :=
  audioBufferToWav buffer.

(** Two channels of four frames at 24000 Hz, each holding 0, 1, -1, 0.5. *)
Definition specBuffer : AudioBuffer :=
  mkAudioBuffer 24000 4
    [[0%float; 1%float; (-1)%float; 0.5%float];
     [0%float; 1%float; (-1)%float; 0.5%float]].

(** ** The canonical container, as the specification words it *)

Definition asciiTag (s : String.string) : list Byte.byte :=
  map (fun c => byteOfZ (Z.of_N c)) (lit s).

(** The 44-byte header for [C] channels, [N] frames and sample rate [R]. *)
Definition wavHeader (C N : nat) (R : positive) : list Byte.byte :=
  asciiTag "RIFF" ++
  littleEndian 4 (Z.of_nat (44 + N * C * 2) - 8) ++
  asciiTag "WAVE" ++
  asciiTag "fmt " ++
  littleEndian 4 16 ++
  littleEndian 2 1 ++
  littleEndian 2 (Z.of_nat C) ++
  littleEndian 4 (Z.pos R) ++
  littleEndian 4 (Z.pos R * Z.of_nat C * 2) ++
  littleEndian 2 (Z.of_nat C * 2) ++
  littleEndian 2 16 ++
  asciiTag "data" ++
  littleEndian 4 (Z.of_nat (N * C * 2)).

(** The quantisation rule: clamp to [-1, 1], scale by 32768 below zero and
    by 32767 otherwise, keep the integer part. *)
Definition quantize (s : float) : Z :=
  let c := clampSample s in
  truncate (if PrimFloat.ltb c 0%float
            then PrimFloat.mul c 32768%float
            else PrimFloat.mul c 32767%float).

(** Frame [n]: one 16-bit little-endian integer per channel, in channel
    order. *)
Definition pcmFrame (channels : list (list float)) (n : nat) : list Byte.byte :=
  flat_map (fun channel => littleEndian 2 (quantize (readSample channel n))) channels.

Definition pcmData (buffer : AudioBuffer) : list Byte.byte :=
  flat_map (pcmFrame (channelData buffer)) (seq 0 (buf_length buffer)).

Definition wavBytes (buffer : AudioBuffer) : list Byte.byte :=
  wavHeader (numberOfChannels buffer) (buf_length buffer) (sampleRate buffer)
  ++ pcmData buffer.

(** ** Types of the application (src/types.ts) *)

Inductive ThemeMode := LIGHT | DARK | SYSTEM.

Inductive VoiceName := Kore | Puck | Charon | Fenrir | Zephyr.

#[global] Instance VoiceName_eq_dec : EqDecision VoiceName.
Proof. solve_decision. Defined.

Record TTSConfig := mkTTSConfig {
  voiceName : VoiceName;
  speechRate : Q;
  playbackSpeed : Q;
  pitch : Q;
  theme : ThemeMode
}.

Inductive ExportFormat := wav | mp3.

Definition formatName (format : ExportFormat) : JSString :=
  match format with
  | wav => lit "wav"
  | mp3 => lit "mp3"
  end.

(** ** Strings: [trim] and number formatting *)

(** ECMAScript white space and line terminators. *)
Definition isWhiteSpace (c : N) : bool :=
  ((9 <=? c) && (c <=? 13) || (c =? 32) || (c =? 160) || (c =? 0x1680)
   || (0x2000 <=? c) && (c <=? 0x200A) || (c =? 0x2028) || (c =? 0x2029)
   || (c =? 0x202F) || (c =? 0x205F) || (c =? 0x3000) || (c =? 0xFEFF))%N.

Fixpoint trimStart (s : JSString) : JSString :=
  match s with
  | [] => []
  | c :: s' => if isWhiteSpace c then trimStart s' else s
  end.

Definition trimEnd (s : JSString) : JSString := rev (trimStart (rev s)).

Definition trim (s : JSString) : JSString := trimEnd (trimStart s).

(** A string is falsy exactly when it is empty. *)
Definition truthy (s : JSString) : bool :=
  match s with
  | [] => false
  | _ :: _ => true
  end.

Fixpoint digitsOf (d : Decimal.uint) : JSString :=
  match d with
  | Decimal.Nil => []
  | Decimal.D0 d' => 48%N :: digitsOf d'
  | Decimal.D1 d' => 49%N :: digitsOf d'
  | Decimal.D2 d' => 50%N :: digitsOf d'
  | Decimal.D3 d' => 51%N :: digitsOf d'
  | Decimal.D4 d' => 52%N :: digitsOf d'
  | Decimal.D5 d' => 53%N :: digitsOf d'
  | Decimal.D6 d' => 54%N :: digitsOf d'
  | Decimal.D7 d' => 55%N :: digitsOf d'
  | Decimal.D8 d' => 56%N :: digitsOf d'
  | Decimal.D9 d' => 57%N :: digitsOf d'
  end.

(** A non-negative integer in a template literal. *)
Definition toString (n : N) : JSString := digitsOf (N.to_uint n).

(** ** The audio device *)

Record AudioContext := mkAudioContext {
  currentTime : Q                      (* the device clock, in seconds *)
}.

(** A buffer source node; [nodeId] stands for the identity of the object. *)
Record AudioBufferSourceNode := mkSource {
  nodeId : nat;
  playbackRate : Q
}.

(** ** The component [App] (src/App.tsx) *)

(** React state, as far as the audio logic reads or writes it. *)
Record State := mkState {
  text : JSString;
  isExportMenuOpen : bool;
  isPlaying : bool;
  isLoading : bool;
  playbackPosition : Q;                (* in seconds *)
  config : TTSConfig
}.

(** Refs. *)
Record Refs := mkRefs {
  playbackStartedAtRef : Q;            (* context time *)
  playbackOffsetAtStartRef : Q;        (* buffer offset *)
  lastGeneratedTextRef : JSString;
  lastGeneratedVoiceRef : option VoiceName;
  audioContextRef : option AudioContext;
  sourceRef : option AudioBufferSourceNode;
  audioBufferRef : option AudioBuffer
}.

Record Download := mkDownload {
  fileName : JSString;
  content : Blob
}.

(** The component together with what it has done to its environment. *)
Record App := mkApp {
  state : State;
  refs : Refs;
  nodesCreated : nat;                              (* source nodes made so far *)
  synthesisCalls : list (JSString * VoiceName);    (* calls of [generateSpeech], latest first *)
  downloads : list Download                        (* files handed to the browser, latest first *)
}.

(** The remote synthesis service as it answers during one handler. *)
Definition Service := JSString -> VoiceName -> option AudioBuffer.

Definition withState (f : State -> State) (a : App) : App :=
  mkApp (f (state a)) (refs a) (nodesCreated a) (synthesisCalls a) (downloads a).

Definition withRefs (f : Refs -> Refs) (a : App) : App :=
  mkApp (state a) (f (refs a)) (nodesCreated a) (synthesisCalls a) (downloads a).

Definition setText (v : JSString) : App -> App :=
  withState (fun s => mkState v (isExportMenuOpen s) (isPlaying s) (isLoading s)
                        (playbackPosition s) (config s)).

Definition setIsExportMenuOpen (v : bool) : App -> App :=
  withState (fun s => mkState (text s) v (isPlaying s) (isLoading s)
                        (playbackPosition s) (config s)).

Definition setIsPlaying (v : bool) : App -> App :=
  withState (fun s => mkState (text s) (isExportMenuOpen s) v (isLoading s)
                        (playbackPosition s) (config s)).

Definition setIsLoading (v : bool) : App -> App :=
  withState (fun s => mkState (text s) (isExportMenuOpen s) (isPlaying s) v
                        (playbackPosition s) (config s)).

Definition setPlaybackPosition (v : Q) : App -> App :=
  withState (fun s => mkState (text s) (isExportMenuOpen s) (isPlaying s) (isLoading s)
                        v (config s)).

Definition setConfig (f : TTSConfig -> TTSConfig) : App -> App :=
  withState (fun s => mkState (text s) (isExportMenuOpen s) (isPlaying s) (isLoading s)
                        (playbackPosition s) (f (config s))).

Definition setPlaybackStartedAtRef (v : Q) : App -> App :=
  withRefs (fun r => mkRefs v (playbackOffsetAtStartRef r) (lastGeneratedTextRef r)
                       (lastGeneratedVoiceRef r) (audioContextRef r) (sourceRef r)
                       (audioBufferRef r)).

Definition setPlaybackOffsetAtStartRef (v : Q) : App -> App :=
  withRefs (fun r => mkRefs (playbackStartedAtRef r) v (lastGeneratedTextRef r)
                       (lastGeneratedVoiceRef r) (audioContextRef r) (sourceRef r)
                       (audioBufferRef r)).

Definition setLastGeneratedTextRef (v : JSString) : App -> App :=
  withRefs (fun r => mkRefs (playbackStartedAtRef r) (playbackOffsetAtStartRef r) v
                       (lastGeneratedVoiceRef r) (audioContextRef r) (sourceRef r)
                       (audioBufferRef r)).

Definition setLastGeneratedVoiceRef (v : option VoiceName) : App -> App :=
  withRefs (fun r => mkRefs (playbackStartedAtRef r) (playbackOffsetAtStartRef r)
                       (lastGeneratedTextRef r) v (audioContextRef r) (sourceRef r)
                       (audioBufferRef r)).

Definition setAudioContextRef (v : option AudioContext) : App -> App :=
  withRefs (fun r => mkRefs (playbackStartedAtRef r) (playbackOffsetAtStartRef r)
                       (lastGeneratedTextRef r) (lastGeneratedVoiceRef r) v (sourceRef r)
                       (audioBufferRef r)).

Definition setSourceRef (v : option AudioBufferSourceNode) : App -> App :=
  withRefs (fun r => mkRefs (playbackStartedAtRef r) (playbackOffsetAtStartRef r)
                       (lastGeneratedTextRef r) (lastGeneratedVoiceRef r)
                       (audioContextRef r) v (audioBufferRef r)).

Definition setAudioBufferRef (v : option AudioBuffer) : App -> App :=
  withRefs (fun r => mkRefs (playbackStartedAtRef r) (playbackOffsetAtStartRef r)
                       (lastGeneratedTextRef r) (lastGeneratedVoiceRef r)
                       (audioContextRef r) (sourceRef r) v).

(** [useState] initial values and [useRef] initial values. *)
Definition initialApp : App :=
  mkApp
    (mkState [] false false false 0%Q (mkTTSConfig Kore 1%Q 1%Q 1%Q LIGHT))
    (mkRefs 0%Q 0%Q [] None None None None)
    0 [] [].

(** *** Audio logic

    Every handler below takes the state [r] of the render whose closure it
    is: reads of React state go to [r], reads and writes of refs go to the
    component as it is at that point of the handler. *)

Definition getCurrentOffset (r : State) (a : App) : Q :=
  match audioContextRef (refs a) with
  | Some ctx =>
      if negb (isPlaying r) then playbackPosition r
      else
        let elapsed :=
          ((currentTime ctx - playbackStartedAtRef (refs a)) * playbackSpeed (config r))%Q in
        Qmin (playbackOffsetAtStartRef (refs a) + elapsed)%Q
             (match audioBufferRef (refs a) with
              | Some buffer => duration buffer
              | None => 0%Q
              end)
  | None => playbackPosition r
  end.

Definition stopAudio (r : State) (resetPosition : bool) (a : App) : App :=
  let a :=
    match sourceRef (refs a) with
    | Some _ =>
        let a := if negb resetPosition
                 then setPlaybackPosition (getCurrentOffset r a) a
                 else a in
        (* source.stop() *)
        setSourceRef None a
    | None => a
    end in
  let a := if resetPosition then setPlaybackPosition 0%Q a else a in
  setIsPlaying false a.

(** [source.onended] of the node [activeSource]. *)
Definition onended (activeSource : nat) (a : App) : App :=
  match sourceRef (refs a) with
  | Some current =>
      if (nodeId current =? activeSource)%nat
      then setPlaybackPosition 0%Q (setIsPlaying false a)
      else a
  | None => a
  end.

Definition startPlayback (r : State) (offset : Q) (a : App) : App :=
  match audioBufferRef (refs a) with
  | None => a
  | Some buffer =>
      let a := stopAudio r false a in
      let ctx := default (mkAudioContext 0%Q) (audioContextRef (refs a)) in
      let a := setAudioContextRef (Some ctx) a in
      let source := mkSource (nodesCreated a) (playbackSpeed (config r)) in
      let a := mkApp (state a) (refs a) (S (nodesCreated a)) (synthesisCalls a) (downloads a) in
      let a := setSourceRef (Some source) a in
      let startOffset := Qmax 0%Q (Qmin offset (duration buffer)) in
      (* source.start(0, startOffset) *)
      let a := setPlaybackStartedAtRef (currentTime ctx) a in
      let a := setPlaybackOffsetAtStartRef startOffset a in
      setIsPlaying true a
  end.

(** [await generateSpeech(text, voice)], recorded in [synthesisCalls]. *)
Definition callGenerateSpeech (service : Service) (t : JSString) (v : VoiceName) (a : App)
  : option AudioBuffer * App :=
  (service t v,
   mkApp (state a) (refs a) (nodesCreated a) ((t, v) :: synthesisCalls a) (downloads a)).

Definition playAudio (r : State) (service : Service) (a : App) : App :=
  if negb (truthy (trim (text r))) then a
  else if isPlaying r then stopAudio r false a
  else if bool_decide (text r ≠ lastGeneratedTextRef (refs a))
          || bool_decide (Some (voiceName (config r)) ≠ lastGeneratedVoiceRef (refs a))
          || bool_decide (audioBufferRef (refs a) = None)
  then
    let a := setIsLoading true a in
    let '(buffer, a) := callGenerateSpeech service (text r) (voiceName (config r)) a in
    let a := setIsLoading false a in
    match buffer with
    | Some b =>
        let a := setAudioBufferRef (Some b) a in
        let a := setLastGeneratedTextRef (text r) a in
        let a := setLastGeneratedVoiceRef (Some (voiceName (config r))) a in
        startPlayback r 0%Q a
    | None => a
    end
  else startPlayback r (playbackPosition r) a.

Definition handleSkip (r : State) (seconds : Q) (a : App) : App :=
  match audioBufferRef (refs a) with
  | None => a
  | Some buffer =>
      let current := getCurrentOffset r a in
      let newPos := Qmax 0%Q (Qmin (current + seconds)%Q (duration buffer)) in
      let a := setPlaybackPosition newPos a in
      if isPlaying r then startPlayback r newPos a else a
  end.

(** [handleExport(format)]; [now] is what [Date.now()] returns. *)
Definition handleExport (r : State) (format : ExportFormat) (now : N) (service : Service)
  (a : App) : App :=
  let buffer := audioBufferRef (refs a) in
  let '(buffer, a) :=
    if bool_decide (text r ≠ lastGeneratedTextRef (refs a)) || bool_decide (buffer = None)
    then
      let a := setIsLoading true a in
      let '(buffer, a) := callGenerateSpeech service (text r) (voiceName (config r)) a in
      let a := setAudioBufferRef buffer a in
      let a := setLastGeneratedTextRef (text r) a in
      let a := setLastGeneratedVoiceRef (Some (voiceName (config r))) a in
      (buffer, setIsLoading false a)
    else (buffer, a) in
  match buffer with
  | None => a
  | Some b =>
      match audioBufferToWav b with
      | Return blob =>
          let name := lit "t2s_audio_" ++ toString now ++ lit "." ++ formatName format in
          let a := mkApp (state a) (refs a) (nodesCreated a) (synthesisCalls a)
                     (mkDownload name blob :: downloads a) in
          setIsExportMenuOpen false a
      | _ => a
      end
  end.

(** The per-frame refresh registered with [requestAnimationFrame]. *)
Definition update (r : State) (a : App) : App :=
  if isPlaying r then setPlaybackPosition (getCurrentOffset r a) a else a.

(** [onChange] of the "Playback speed (Live)" slider. *)
Definition changePlaybackSpeed (newVal : Q) (a : App) : App :=
  let a := setConfig (fun prev => mkTTSConfig (voiceName prev) (speechRate prev) newVal
                                    (pitch prev) (theme prev)) a in
  match sourceRef (refs a) with
  | Some source => setSourceRef (Some (mkSource (nodeId source) newVal)) a
  | None => a
  end.

(** [onChange] of the voice selector. *)
Definition changeVoice (v : VoiceName) (a : App) : App :=
  setConfig (fun prev => mkTTSConfig v (speechRate prev) (playbackSpeed prev)
                           (pitch prev) (theme prev)) a.

(** The "New File" entry of the side bar. *)
Definition newFile (r : State) (a : App) : App :=
  stopAudio r true (setText [] a).

(** The device clock moves on by [dt] seconds. *)
Definition advanceClock (dt : Q) (a : App) : App :=
  match audioContextRef (refs a) with
  | Some ctx => setAudioContextRef (Some (mkAudioContext (currentTime ctx + dt)%Q)) a
  | None => a
  end.

(** *** What can happen to the component *)

Inductive Event :=
  | PlayClicked (service : Service)
  | StopClicked
  | SkipClicked (seconds : Q)
  | ExportClicked (format : ExportFormat) (now : N) (service : Service)
  | SpeedChanged (newVal : Q)
  | VoiceChanged (v : VoiceName)
  | TextChanged (t : JSString)
  | NewFileClicked
  | FrameDue
  | SourceEnded (node : nat)
  | ClockAdvanced (dt : Q).

(** One event, handled by the closures of the current render. *)
Definition step (a : App) (ev : Event) : App :=
  let r := state a in
  match ev with
  | PlayClicked service => playAudio r service a
  | StopClicked => stopAudio r true a
  | SkipClicked seconds => handleSkip r seconds a
  | ExportClicked format now service => handleExport r format now service a
  | SpeedChanged newVal => changePlaybackSpeed newVal a
  | VoiceChanged v => changeVoice v a
  | TextChanged t => setText t a
  | NewFileClicked => newFile r a
  | FrameDue => update r a
  | SourceEnded node => onended node a
  | ClockAdvanced dt => advanceClock dt a
  end.

Definition run (a : App) (evs : list Event) : App := fold_left step evs a.

(** ** Auxiliary notions used in the proofs *)

(** [Filled e w total]: the first [length w] bytes of the view are [w], the
    write position is just after them and the rest of the [total] bytes
    is untouched. *)
Definition Filled (e : Encoder) (w : list Byte.byte) (total : nat) : Prop :=
  view e = w ++ replicate (total - length w) Byte.x00 /\
  pos e = length w /\ (length w <= total)%nat.

Definition sampleBytes (n : nat) (channel : list float) : list Byte.byte :=
  littleEndian 2 (quantize (readSample channel n)).

(** A binary64 value in [[-1, 1]]. *)
Definition unitSF (x : spec_float) : Prop :=
  match x with
  | S754_zero _ => True
  | S754_finite _ m e => e <= -52 /\ Z.pos m <= 2 ^ (- e)
  | _ => False
  end.

(** A buffer without channels and a buffer whose second channel is short. *)
Definition noChannels : AudioBuffer := mkAudioBuffer 24000 4 [].

Definition shortChannel : AudioBuffer :=
  mkAudioBuffer 24000 2 [[1%float; 1%float]; [1%float]].

(** ** Scenarios *)

(** A sequence of [start] operations, each by the closure of the render
    that precedes it. *)
Definition startAll (a : App) (offsets : list Q) : App :=
  fold_left (fun a offset => startPlayback (state a) offset a) offsets a.

(** Node identities are handed out in increasing order. *)
Definition fresh (a : App) : Prop :=
  forall source, sourceRef (refs a) = Some source -> (nodeId source < nodesCreated a)%nat.

Definition noService : Service := fun _ _ => None.

Definition speaks (buffer : AudioBuffer) : Service := fun _ _ => Some buffer.

(** A buffer of one frame, 1/24000 s long. *)
Definition oneFrame : AudioBuffer := mkAudioBuffer 24000 1 [[0.5%float]; [0.5%float]].

(** "Hello" has been synthesized and paused, then the text was edited. *)
Definition editedAfterSynthesis : App :=
  run initialApp
    [TextChanged (lit "Hello"); PlayClicked (speaks specBuffer); PlayClicked noService;
     TextChanged (lit "Hello world")].

(** "Hello world" has been playing for 1/24000 s at speed 1. *)
Definition playingApp : App :=
  run initialApp
    [TextChanged (lit "Hello world"); PlayClicked (speaks specBuffer);
     ClockAdvanced (1 # 24000)].

(** The reading of the device clock ([0] before a context exists). *)
Definition deviceClockNow (a : App) : Q :=
  match audioContextRef (refs a) with
  | Some ctx => currentTime ctx
  | None => 0%Q
  end.

(** The two operations that may trigger synthesis. *)
Inductive Request :=
  | PlayRequest
  | ExportRequest (format : ExportFormat) (now : N).

Definition requestEvent (q : Request) (service : Service) : Event :=
  match q with
  | PlayRequest => PlayClicked service
  | ExportRequest format now => ExportClicked format now service
  end.

(** The buffer held is the one synthesized for the current text and voice. *)
Definition cached (a : App) : Prop :=
  audioBufferRef (refs a) <> None
  /\ lastGeneratedTextRef (refs a) = text (state a)
  /\ lastGeneratedVoiceRef (refs a) = Some (voiceName (config (state a))).

(** Events under which the position is kept within the buffer: speeds and
    clock steps are not negative, and no export replaces the buffer, while
    playback is stopped, by one that ends before the stored position. *)
Definition covered (a : App) (ev : Event) : Prop :=
  match ev with
  | SpeedChanged newVal => (0 <= newVal)%Q
  | ClockAdvanced dt => (0 <= dt)%Q
  | ExportClicked _ _ service =>
      isPlaying (state a) = true
      \/ (text (state a) = lastGeneratedTextRef (refs a) /\ audioBufferRef (refs a) <> None)
      \/ match service (text (state a)) (voiceName (config (state a))) with
         | Some buffer => (playbackPosition (state a) <= duration buffer)%Q
         | None => True
         end
  | _ => True
  end.

Fixpoint coveredRun (a : App) (evs : list Event) : Prop :=
  match evs with
  | [] => True
  | ev :: evs' => covered a ev /\ coveredRun (step a ev) evs'
  end.

(** What holds of the transport in every state reached by covered events. *)
Definition transportInv (a : App) : Prop :=
  (0 <= playbackSpeed (config (state a)))%Q
  /\ (0 <= playbackOffsetAtStartRef (refs a))%Q
  /\ (0 <= playbackPosition (state a))%Q
  /\ (isPlaying (state a) = true ->
      sourceRef (refs a) <> None
      /\ exists ctx, audioContextRef (refs a) = Some ctx
                     /\ (playbackStartedAtRef (refs a) <= currentTime ctx)%Q)
  /\ (isPlaying (state a) = false ->
      forall buffer, audioBufferRef (refs a) = Some buffer ->
                     (playbackPosition (state a) <= duration buffer)%Q).

(** "Hello world" was paused after 3/24000 s, the text edited and the new
    text exported; the service answered with a buffer of one frame. *)
Definition exportedWhilePaused : App :=
  run initialApp
    [TextChanged (lit "Hello world"); PlayClicked (speaks specBuffer);
     ClockAdvanced (3 # 24000); PlayClicked noService;
     TextChanged (lit "Hello"); ExportClicked wav 0 (speaks oneFrame)].

(** ** Reading a WAV header *)

Record WavHeader := mkWavHeader {
  chunkId : list Byte.byte;
  chunkSize : Z;
  waveId : list Byte.byte;
  fmtId : list Byte.byte;
  fmtSize : Z;
  audioFormat : Z;
  numChannels : Z;
  samplesPerSec : Z;
  avgBytesPerSec : Z;
  blockAlign : Z;
  bitsPerSample : Z;
  dataId : list Byte.byte;
  dataSize : Z
}.

Definition slice (bytes : list Byte.byte) (from len : nat) : list Byte.byte :=
  take len (drop from bytes).

(** The fields of the canonical 44-byte header, all little-endian. *)
Definition readHeader (bytes : list Byte.byte) : WavHeader :=
  mkWavHeader
    (slice bytes 0 4)
    (fromLittleEndian (slice bytes 4 4))
    (slice bytes 8 4)
    (slice bytes 12 4)
    (fromLittleEndian (slice bytes 16 4))
    (fromLittleEndian (slice bytes 20 2))
    (fromLittleEndian (slice bytes 22 2))
    (fromLittleEndian (slice bytes 24 4))
    (fromLittleEndian (slice bytes 28 4))
    (fromLittleEndian (slice bytes 32 2))
    (fromLittleEndian (slice bytes 34 2))
    (slice bytes 36 4)
    (fromLittleEndian (slice bytes 40 4)).

(** ** The rest of the component: statistics, time readout, settings *)

(** [s.split(/\s+/)]: the pieces between the maximal runs of white space.
    [inGap] tells that the scan is inside such a run, [piece] holds the
    current piece, last character first. *)
Fixpoint splitGo (inGap : bool) (piece : JSString) (s : JSString) : list JSString :=
  match s with
  | [] => [rev piece]
  | c :: s' =>
      if isWhiteSpace c
      then (if inGap then splitGo true [] s' else rev piece :: splitGo true [] s')
      else splitGo false (c :: piece) s'
  end.

Definition splitWhiteSpace (s : JSString) : list JSString := splitGo false [] s.

(** [text.trim() === '' ? 0 : text.trim().split(/\s+/).length] *)
Definition wordCount (text : JSString) : nat :=
  match trim text with
  | [] => 0%nat
  | _ :: _ => length (splitWhiteSpace (trim text))
  end.

(** [text.length] *)
Definition charCount (text : JSString) : nat := length text.

(** An integer in a template literal or under [toString()]. *)
Definition toStringZ (z : Z) : JSString :=
  if z <? 0 then 45%N :: toString (Z.to_N (- z)) else toString (Z.to_N z).

(** [s.padStart(targetLength, c)] for a one-character filler. *)
Definition padStart (targetLength : nat) (c : N) (s : JSString) : JSString :=
  replicate (targetLength - length s) c ++ s.

(** The integer part toward zero, and [a % b] on numbers. *)
Definition Qtruncate (x : Q) : Z := if Qle_bool 0 x then Qfloor x else Qceiling x.

Definition remainder (a b : Q) : Q := (a - b * inject_Z (Qtruncate (a / b)))%Q.

Definition formatTime (secs : Q) : JSString :=
  let m := Qfloor (secs / 60) in
  let s := Qfloor (remainder secs 60) in
  toStringZ m ++ lit ":" ++ padStart 2 48%N (toStringZ s).

(** The updater of [toggleTheme]. *)
Definition toggleTheme (prev : TTSConfig) : TTSConfig :=
  mkTTSConfig (voiceName prev) (speechRate prev) (playbackSpeed prev) (pitch prev)
    (match theme prev with
     | LIGHT => DARK
     | _ => LIGHT
     end).

Definition isDarkMode (c : TTSConfig) : bool :=
  match theme c with
  | DARK => true
  | _ => false
  end.

(** [expandedSections] and the updater of [toggleSection]: a missing key
    reads as [undefined], whose negation is [true]. *)
Definition initialSections : gmap JSString bool :=
  <[lit "voice" := true]> (<[lit "audio" := true]> (<[lit "appearance" := false]> ∅)).

(** The members every object literal inherits from [Object.prototype]:
    functions and, for [__proto__], the prototype itself, all truthy. *)
Definition objectPrototypeKeys : list JSString :=
  map lit
    ["constructor"; "hasOwnProperty"; "isPrototypeOf"; "propertyIsEnumerable";
     "toLocaleString"; "toString"; "valueOf"; "__proto__"; "__defineGetter__";
     "__defineSetter__"; "__lookupGetter__"; "__lookupSetter__"]%string.

(** The truth value of [prev[section]]: the own property when there is one,
    otherwise the inherited member, otherwise [undefined]. *)
Definition readSection (section : JSString) (prev : gmap JSString bool) : bool :=
  match prev !! section with
  | Some open => open
  | None => bool_decide (section ∈ objectPrototypeKeys)
  end.

Definition toggleSection (section : JSString) (prev : gmap JSString bool)
  : gmap JSString bool :=
  <[section := negb (readSection section prev)]> prev.

(** The words of a text counted directly: a word begins at every character
    that is not white space and follows white space or begins the text. *)
Fixpoint wordStarts (afterSpace : bool) (s : JSString) : nat :=
  match s with
  | [] => 0%nat
  | c :: s' =>
      if isWhiteSpace c then wordStarts true s'
      else ((if afterSpace then 1 else 0) + wordStarts false s')%nat
  end.

(** Whether a scan that starts inside white space ([inGap]) ends inside it. *)
Fixpoint endsInGap (inGap : bool) (s : JSString) : bool :=
  match s with
  | [] => inGap
  | c :: s' => endsInGap (isWhiteSpace c) s'
  end.

(** The position reported to the next render. *)
Definition reported (a : App) : Q := getCurrentOffset (state a) a.

(** The events that ask for synthesis or for a file. *)
Definition isRequestEvent (ev : Event) : bool :=
  match ev with
  | PlayClicked _ | ExportClicked _ _ _ => true
  | _ => false
  end.

Definition isExportEvent (ev : Event) : bool :=
  match ev with
  | ExportClicked _ _ _ => true
  | _ => false
  end.

(** What every reachable state satisfies: playing needs a source node and a
    context, and the active node is one of those created so far. *)
Definition playingInv (a : App) : Prop :=
  (isPlaying (state a) = true ->
   sourceRef (refs a) <> None /\ audioContextRef (refs a) <> None)
  /\ fresh a.

(** How many of the events ask for synthesis or for a file. *)
Definition requestCount (evs : list Event) : nat :=
  length (List.filter isRequestEvent evs).

Definition exportCount (evs : list Event) : nat :=
  length (List.filter isExportEvent evs).

(** [onChange] of the "Speech rate" and "Pitch" sliders. *)
Definition changeSpeechRate (newVal : Q) (a : App) : App :=
  setConfig (fun prev => mkTTSConfig (voiceName prev) newVal (playbackSpeed prev)
                           (pitch prev) (theme prev)) a.

Definition changePitch (newVal : Q) (a : App) : App :=
  setConfig (fun prev => mkTTSConfig (voiceName prev) (speechRate prev) (playbackSpeed prev)
                           newVal (theme prev)) a.

(** The decimal numeral written by a string of ASCII digits. *)
Fixpoint uintOf (s : JSString) : option Decimal.uint :=
  match s with
  | [] => Some Decimal.Nil
  | c :: s' =>
      match uintOf s' with
      | None => None
      | Some d =>
          if (c =? 48)%N then Some (Decimal.D0 d)
          else if (c =? 49)%N then Some (Decimal.D1 d)
          else if (c =? 50)%N then Some (Decimal.D2 d)
          else if (c =? 51)%N then Some (Decimal.D3 d)
          else if (c =? 52)%N then Some (Decimal.D4 d)
          else if (c =? 53)%N then Some (Decimal.D5 d)
          else if (c =? 54)%N then Some (Decimal.D6 d)
          else if (c =? 55)%N then Some (Decimal.D7 d)
          else if (c =? 56)%N then Some (Decimal.D8 d)
          else if (c =? 57)%N then Some (Decimal.D9 d)
          else None
      end
  end.

(** ** The asynchronous handlers, split at [await]

    [playAudio] and [handleExport] suspend at [await generateSpeech(...)],
    and other events are handled before the answer arrives.  [step] above
    runs such a handler as a whole, which is what happens when the answer
    comes before the next event.  Here the handler is cut in two: the part
    up to the call, which tells whether the handler is now suspended, and
    the continuation, run with the answer and with the snapshot [r] of the
    render the handler belongs to. *)











(** * Properties of the encoder *)

Section EncoderFacts.

Lemma length_littleEndian (n : nat) (v : Z) : length (littleEndian n v) = n.
Proof. revert v; induction n as [|n IH]; intros v; simpl; [reflexivity | now rewrite IH]. Qed.

(** A store at the end of what has been written so far, into a view whose
    remainder is still zero filled. *)
Lemma viewSet_fill (w bs : list Byte.byte) (p k : nat) :
  p = length w -> (length bs <= k)%nat ->
  viewSet (w ++ replicate k Byte.x00) p bs
  = Return ((w ++ bs) ++ replicate (k - length bs) Byte.x00).
Proof.
  intros -> Hk. unfold viewSet.
  rewrite length_app, length_replicate.
  destruct (Nat.leb_spec (length w + length bs) (length w + k)) as [_|Hlt]; [|lia].
  f_equal.
  replace (length w) with (length w + 0)%nat at 1 by lia.
  rewrite list_inserts_app_r, <- app_assoc. f_equal.
  replace k with (length bs + (k - length bs))%nat at 1 by lia.
  rewrite replicate_add.
  apply list_inserts_0_r. now rewrite length_replicate.
Qed.


Lemma Filled_write (n : nat) (data : Z) (e : Encoder) (w : list Byte.byte) (total : nat) :
  Filled e w total -> (length w + n <= total)%nat ->
  exists e',
    (v ← viewSet (view e) (pos e) (littleEndian n data);
     mret (mkEncoder v (pos e + n) (offset e))) = Return e'
    /\ Filled e' (w ++ littleEndian n data) total
    /\ offset e' = offset e.
Proof.
  intros (Hv & Hp & Hle) Hn.
  rewrite Hv, (viewSet_fill w _ (pos e)); [|exact Hp|rewrite length_littleEndian; lia].
  eexists; split; [reflexivity|]. split; [|reflexivity].
  unfold Filled; simpl. rewrite !length_app, !length_littleEndian.
  repeat split; [f_equal; f_equal; lia | lia | lia].
Qed.

Lemma setUint32_Filled (data : Z) (e : Encoder) (w : list Byte.byte) (total : nat) :
  Filled e w total -> (length w + 4 <= total)%nat ->
  exists e', setUint32 data e = Return e'
    /\ Filled e' (w ++ littleEndian 4 data) total /\ offset e' = offset e.
Proof. apply Filled_write. Qed.

Lemma setUint16_Filled (data : Z) (e : Encoder) (w : list Byte.byte) (total : nat) :
  Filled e w total -> (length w + 2 <= total)%nat ->
  exists e', setUint16 data e = Return e'
    /\ Filled e' (w ++ littleEndian 2 data) total /\ offset e' = offset e.
Proof. apply Filled_write. Qed.

Lemma setInt16_Filled (data : Z) (e : Encoder) (w : list Byte.byte) (total : nat) :
  Filled e w total -> (length w + 2 <= total)%nat ->
  exists e', setInt16 data e = Return e'
    /\ Filled e' (w ++ littleEndian 2 data) total /\ offset e' = offset e.
Proof. apply Filled_write. Qed.

Lemma byteOfZ_mod (v : Z) : byteOfZ (v mod 256) = byteOfZ v.
Proof. unfold byteOfZ. now rewrite Z.mod_mod by lia. Qed.

(** Only the low [8 * n] bits of a value reach the bytes. *)
Lemma littleEndian_mod (n : nat) (v : Z) :
  littleEndian n (v mod 256 ^ Z.of_nat n) = littleEndian n v.
Proof.
  revert v; induction n as [|n IH]; intros v; [reflexivity|].
  rewrite Nat2Z.inj_succ, Z.pow_succ_r by lia.
  assert (Hpos : 0 < 256 ^ Z.of_nat n) by (apply Z.pow_pos_nonneg; lia).
  cbn [littleEndian]. f_equal.
  - rewrite <- byteOfZ_mod, Z.mod_mod_divide; [apply byteOfZ_mod|].
    exists (256 ^ Z.of_nat n). lia.
  - rewrite <- IH. symmetry. rewrite <- IH. f_equal.
    rewrite Z.rem_mul_r by lia.
    rewrite (Z.mul_comm 256), Z.div_add by lia.
    rewrite (Z.div_small (v mod 256)) by (apply Z.mod_pos_bound; lia).
    rewrite Z.add_0_l, Z.mod_mod by lia. reflexivity.
Qed.

Lemma littleEndian_congr (n : nat) (v v' : Z) :
  v mod 256 ^ Z.of_nat n = v' mod 256 ^ Z.of_nat n ->
  littleEndian n v = littleEndian n v'.
Proof. intros H. rewrite <- (littleEndian_mod n v), H. apply littleEndian_mod. Qed.

Lemma wrapSigned_mod (w z : Z) : 0 < w -> wrapSigned w z mod 2 ^ w = z mod 2 ^ w.
Proof.
  intros Hw. unfold wrapSigned.
  assert (H2 : 0 < 2 ^ w) by (apply Z.pow_pos_nonneg; lia).
  rewrite Zminus_mod, Z.mod_mod, <- Zminus_mod by lia.
  f_equal. lia.
Qed.

(** The [| 0] before the 16-bit store does not change the bytes stored. *)
Lemma littleEndian_scaleSample (s : float) :
  littleEndian 2 (scaleSample (clampSample s)) = littleEndian 2 (quantize s).
Proof.
  unfold scaleSample, quantize, ToInt32. cbv zeta.
  set (x := if PrimFloat.ltb (clampSample s) 0 then _ else _).
  apply littleEndian_congr.
  change (256 ^ Z.of_nat 2) with (2 ^ 16).
  pose proof (wrapSigned_mod 32 (truncate x) ltac:(lia)) as H.
  apply (f_equal (fun t => t mod 2 ^ 16)) in H.
  rewrite !Z.mod_mod_divide in H by (exists (2 ^ 16); reflexivity).
  exact H.
Qed.


(** The inner loop appends one sample per remaining channel. *)
Lemma forChannels_Filled (channels : list (list float)) (total : nat) :
  forall (n i : nat) (e : Encoder) (w : list Byte.byte),
    Filled e w total -> (length w + 2 * n <= total)%nat ->
    (i + n <= length channels)%nat ->
    exists e', forChannels n i channels e = Return e'
      /\ Filled e' (w ++ flat_map (sampleBytes (offset e)) (take n (drop i channels))) total
      /\ offset e' = offset e.
Proof.
  induction n as [|n IH]; intros i e w HF Hlen Hi.
  - exists e. simpl. rewrite app_nil_r. auto.
  - simpl forChannels.
    destruct (channels !! i) as [channel|] eqn:Hch.
    2:{ apply lookup_ge_None in Hch. lia. }
    destruct (setInt16_Filled
                (scaleSample (clampSample (readSample channel (offset e)))) e w total HF)
      as (e1 & -> & HF1 & Hoff1); [lia|].
    rewrite littleEndian_scaleSample in HF1.
    destruct (IH (S i) e1 _ HF1) as (e2 & He2 & HF2 & Hoff2).
    { rewrite length_app, length_littleEndian. lia. }
    { lia. }
    exists e2. split; [exact He2|]. split; [|congruence].
    rewrite (drop_S _ _ _ Hch). simpl.
    rewrite Hoff1, <- app_assoc in HF2. exact HF2.
Qed.

Lemma length_pcmFrame (channels : list (list float)) (n : nat) :
  length (pcmFrame channels n) = (length channels * 2)%nat.
Proof.
  unfold pcmFrame. induction channels as [|ch chs IH]; [reflexivity|].
  cbn [flat_map]. rewrite length_app, length_littleEndian, IH. simpl. lia.
Qed.

Lemma length_frames (channels : list (list float)) (k r : nat) :
  length (flat_map (pcmFrame channels) (seq k r)) = (r * length channels * 2)%nat.
Proof.
  revert k; induction r as [|r IH]; intros k; [reflexivity|].
  cbn [seq flat_map]. rewrite length_app, length_pcmFrame, IH. lia.
Qed.

(** The outer loop appends the [r] frames that are still missing, and needs
    no more than [r] passes for it. *)
Lemma whileFrames_Filled (channels : list (list float)) (total : nat) :
  forall (r fuel : nat) (e : Encoder) (w : list Byte.byte),
    Filled e w total ->
    total = (length w + r * length channels * 2)%nat ->
    (r <= fuel)%nat ->
    exists e', whileFrames fuel (length channels) total channels e = Return e'
      /\ Filled e' (w ++ flat_map (pcmFrame channels) (seq (offset e) r)) total.
Proof.
  induction r as [|r IH]; intros fuel e w HF Htotal Hfuel.
  - exists e. destruct HF as (Hv & Hp & Hle).
    assert (Hdone : (pos e <? total)%nat = false) by (apply Nat.ltb_ge; lia).
    destruct fuel; simpl; rewrite Hdone, app_nil_r; repeat split; auto.
  - destruct (Nat.eq_dec (length channels) 0%nat) as [Hz|Hnz].
    + (* no channel: nothing is missing *)
      exists e. pose proof HF as (Hv & Hp & Hle).
      assert (Hdone : (pos e <? total)%nat = false) by (apply Nat.ltb_ge; lia).
      assert (Hnil : flat_map (pcmFrame channels) (seq (offset e) (S r)) = []).
      { apply length_zero_iff_nil. rewrite length_frames. lia. }
      destruct fuel; simpl whileFrames; rewrite Hdone, Hnil, app_nil_r; auto.
    + destruct fuel as [|fuel]; [lia|].
      pose proof HF as (Hv & Hp & Hle).
      assert (Hgo : (pos e <? total)%nat = true) by (apply Nat.ltb_lt; lia).
      simpl whileFrames. rewrite Hgo.
      destruct (forChannels_Filled channels total (length channels) 0%nat e w HF)
        as (e1 & -> & HF1 & Hoff1); [lia|lia|].
      rewrite drop_0, firstn_all in HF1.
      change (flat_map (sampleBytes (offset e)) channels)
        with (pcmFrame channels (offset e)) in HF1.
      simpl.
      destruct (IH fuel (mkEncoder (view e1) (pos e1) (offset e1 + 1)) _ HF1)
        as (e2 & He2 & HF2).
      { rewrite length_app, length_pcmFrame. lia. }
      { lia. }
      exists e2. split; [exact He2|].
      simpl in HF2. rewrite Hoff1, Nat.add_1_r, <- app_assoc in HF2. exact HF2.
Qed.

Lemma bind_Return {A B : Type} (a : A) (k : A -> completion B) :
  (x ← Return a; k x) = k a.
Proof. reflexivity. Qed.

Lemma length_wavHeader (C N : nat) (R : positive) : length (wavHeader C N R) = 44%nat.
Proof. reflexivity. Qed.

Lemma length_pcmData (buffer : AudioBuffer) :
  length (pcmData buffer) = (buf_length buffer * numberOfChannels buffer * 2)%nat.
Proof. unfold pcmData, numberOfChannels. apply length_frames. Qed.

Ltac header_write lem :=
  match goal with
  | HF : Filled ?e ?w ?total, HO : offset ?e = 0%nat |- context [mbind _ (?f ?d ?e)] =>
      let e' := fresh "e" in
      let HF' := fresh "HF" in
      let HO' := fresh "HO" in
      destruct (lem d e w total HF) as (e' & -> & HF' & HO');
      [ rewrite ?length_app, ?length_littleEndian; simpl length; lia
      | rewrite bind_Return; rewrite HO in HO'; clear HF HO ]
  end.

(** The header writes leave the 44 header bytes in front of a zero filled
    remainder. *)
Lemma header_Filled (buffer : AudioBuffer) (k : Encoder -> completion Blob) :
  let numOfChan := numberOfChannels buffer in
  let length := (buf_length buffer * numOfChan * 2 + 44)%nat in
  exists e,
    Filled e (wavHeader numOfChan (buf_length buffer) (sampleRate buffer)) length
    /\ offset e = 0%nat
    /\ (e ← setUint32 0x46464952 (mkEncoder (newArrayBuffer length) 0 0);
        e ← setUint32 (Z.of_nat length - 8) e;
        e ← setUint32 0x45564157 e;
        e ← setUint32 0x20746d66 e;
        e ← setUint32 16 e;
        e ← setUint16 1 e;
        e ← setUint16 (Z.of_nat numOfChan) e;
        e ← setUint32 (Z.pos (sampleRate buffer)) e;
        e ← setUint32 (Z.pos (sampleRate buffer) * 2 * Z.of_nat numOfChan) e;
        e ← setUint16 (Z.of_nat numOfChan * 2) e;
        e ← setUint16 16 e;
        e ← setUint32 0x61746164 e;
        e ← setUint32 (Z.of_nat length - Z.of_nat (pos e) - 4) e;
        k e) = k e.
Proof.
  intros numOfChan length.
  assert (HF : Filled (mkEncoder (newArrayBuffer length) 0 0) [] length).
  { unfold Filled, newArrayBuffer; simpl. repeat split; [f_equal; lia | lia]. }
  assert (HO : offset (mkEncoder (newArrayBuffer length) 0 0) = 0%nat) by reflexivity.
  do 5 header_write setUint32_Filled.
  do 2 header_write setUint16_Filled.
  do 2 header_write setUint32_Filled.
  do 2 header_write setUint16_Filled.
  header_write setUint32_Filled.
  match goal with
  | HF : Filled ?e _ _ |- _ =>
      assert (Hpos : pos e = 40%nat)
        by (destruct HF as (_ & -> & _);
            rewrite !length_app, !length_littleEndian; reflexivity);
      rewrite Hpos
  end.
  header_write setUint32_Filled.
  match goal with
  | HF : Filled ?e _ _, HO : offset ?e = 0%nat |- _ =>
      exists e; split; [|split; [exact HO|reflexivity]]; revert HF
  end.
  replace (Z.of_nat length - Z.of_nat 40 - 4)
    with (Z.of_nat (buf_length buffer * numOfChan * 2)) by lia.
  replace (Z.pos (sampleRate buffer) * 2 * Z.of_nat numOfChan)
    with (Z.pos (sampleRate buffer) * Z.of_nat numOfChan * 2) by lia.
  unfold wavHeader.
  replace (44 + buf_length buffer * numOfChan * 2)%nat with length by lia.
  rewrite <- !app_assoc. exact (fun HF => HF).
Qed.

(** The encoder run for at least one pass per frame returns the header
    followed by the frames, whatever the shape of the buffer. *)
Lemma audioBufferToWavWithin_bytes (fuel : nat) (buffer : AudioBuffer) :
  (buf_length buffer <= fuel)%nat ->
  audioBufferToWavWithin fuel buffer = Return (mkBlob (wavBytes buffer) (lit "audio/wav")).
Proof.
  intros Hfuel. unfold audioBufferToWavWithin. cbv zeta.
  destruct (header_Filled buffer
              (fun e => e ← whileFrames fuel (numberOfChannels buffer)
                            (buf_length buffer * numberOfChannels buffer * 2 + 44)
                            (channelData buffer) e;
                        mret (mkBlob (view e) (lit "audio/wav"))))
    as (e & HF & HO & ->).
  destruct (whileFrames_Filled (channelData buffer) _ (buf_length buffer) fuel e _ HF)
    as (e' & He' & HF'); [rewrite length_wavHeader; unfold numberOfChannels; lia|exact Hfuel|].
  unfold numberOfChannels in *. rewrite He', bind_Return.
  destruct HF' as (Hv & _ & _). rewrite Hv, HO.
  unfold wavBytes, pcmData, numberOfChannels.
  rewrite length_app, length_wavHeader, length_frames.
  replace (_ - _)%nat with 0%nat by lia.
  simpl replicate. rewrite app_nil_r. reflexivity.
Qed.

Lemma audioBufferToWav_bytes (buffer : AudioBuffer) :
  audioBufferToWav buffer = Return (mkBlob (wavBytes buffer) (lit "audio/wav")).
Proof. unfold audioBufferToWav. rewrite audioBufferToWavWithin_bytes; [reflexivity | lia]. Qed.

End EncoderFacts.

(** * Properties of the quantisation

    Facts about rounding to binary64, stated on the specification of the
    primitive floats. *)

Section Rounding.

Lemma shr_m_shr_1 (r : shr_record) :
  0 <= shr_m r -> shr_m (shr_1 r) = shr_m r / 2 /\ 0 <= shr_m (shr_1 r).
Proof.
  destruct r as [m rb sb]; simpl. intros Hm.
  destruct m as [|p|p]; [split; reflexivity| |lia].
  destruct p as [p|p|]; simpl shr_m.
  - rewrite Pos2Z.inj_xI. split; [|lia]. apply Z.div_unique with 1; lia.
  - rewrite Pos2Z.inj_xO. split; [|lia]. apply Z.div_unique with 0; lia.
  - split; [reflexivity|lia].
Qed.

Lemma shr_m_iter_pos (p : positive) :
  forall r : shr_record, 0 <= shr_m r ->
    shr_m (SpecFloat.iter_pos shr_1 p r) = shr_m r / 2 ^ Z.pos p /\ 0 <= shr_m (SpecFloat.iter_pos shr_1 p r).
Proof.
  induction p as [p IH|p IH|]; intros r Hr; cbn [SpecFloat.iter_pos].
  - assert (H2 : 2 ^ Z.pos p~1 = 2 * (2 ^ Z.pos p * 2 ^ Z.pos p)).
    { replace (Z.pos p~1) with (1 + (Z.pos p + Z.pos p)) by lia.
      rewrite !Z.pow_add_r by lia. reflexivity. }
    destruct (shr_m_shr_1 r Hr) as [E1 P1].
    destruct (IH _ P1) as [E2 P2]. destruct (IH _ P2) as [E3 P3].
    split; [|exact P3]. rewrite E3, E2, E1, H2.
    rewrite !Z.div_div by (try apply Z.pow_pos_nonneg; lia). reflexivity.
  - assert (H2 : 2 ^ Z.pos p~0 = 2 ^ Z.pos p * 2 ^ Z.pos p).
    { replace (Z.pos p~0) with (Z.pos p + Z.pos p) by lia.
      rewrite !Z.pow_add_r by lia. reflexivity. }
    destruct (IH _ Hr) as [E2 P2]. destruct (IH _ P2) as [E3 P3].
    split; [|exact P3]. rewrite E3, E2, H2.
    rewrite !Z.div_div by (try apply Z.pow_pos_nonneg; lia). reflexivity.
  - destruct (shr_m_shr_1 r Hr) as [E1 P1]. split; [|exact P1]. rewrite E1. reflexivity.
Qed.

(** [shr_fexp] on a non-negative mantissa: the exponent moves up to the
    format's exponent and the mantissa loses the bits shifted out. *)
Lemma shr_fexp_spec (m e : Z) (l : location) :
  0 <= m ->
  snd (shr_fexp prec emax m e l) = Z.max e (fexp prec emax (Zdigits2 m + e)) /\
  shr_m (fst (shr_fexp prec emax m e l)) = m / 2 ^ (snd (shr_fexp prec emax m e l) - e).
Proof.
  intros Hm. unfold shr_fexp, shr.
  assert (Hrec : shr_m (shr_record_of_loc m l) = m) by (destruct l as [|[]]; reflexivity).
  destruct (fexp prec emax (Zdigits2 m + e) - e) as [|p|p] eqn:Hn; simpl fst; simpl snd.
  - rewrite Z.sub_diag, Z.div_1_r. split; [lia|exact Hrec].
  - destruct (shr_m_iter_pos p (shr_record_of_loc m l)) as [E _]; [rewrite Hrec; exact Hm|].
    rewrite E, Hrec. replace (e + Z.pos p - e) with (Z.pos p) by lia. split; [lia|reflexivity].
  - rewrite Z.sub_diag, Z.div_1_r. split; [lia|exact Hrec].
Qed.

Lemma round_nearest_even_bound (m : Z) (l : location) :
  m <= round_nearest_even m l <= m + 1.
Proof. destruct l as [|[]]; simpl; try destruct (Z.even m); lia. Qed.

Lemma digits2_pos_lower (p : positive) : 2 ^ (Z.pos (digits2_pos p) - 1) <= Z.pos p.
Proof.
  induction p as [p IH|p IH|]; cbn [digits2_pos]; [| |reflexivity].
  - replace (Z.pos (Pos.succ (digits2_pos p)) - 1)
      with (Z.succ (Z.pos (digits2_pos p) - 1)) by lia.
    rewrite Z.pow_succ_r by lia. lia.
  - replace (Z.pos (Pos.succ (digits2_pos p)) - 1)
      with (Z.succ (Z.pos (digits2_pos p) - 1)) by lia.
    rewrite Z.pow_succ_r by lia. lia.
Qed.

Lemma digits2_pos_upper (p : positive) : Z.pos p < 2 ^ Z.pos (digits2_pos p).
Proof.
  induction p as [p IH|p IH|]; cbn [digits2_pos]; [| |reflexivity].
  - replace (Z.pos (Pos.succ (digits2_pos p)))
      with (Z.succ (Z.pos (digits2_pos p))) by lia.
    rewrite Z.pow_succ_r by lia. lia.
  - replace (Z.pos (Pos.succ (digits2_pos p)))
      with (Z.succ (Z.pos (digits2_pos p))) by lia.
    rewrite Z.pow_succ_r by lia. lia.
Qed.

(** A number below [2 ^ k] has at most [k] digits. *)
Lemma Zdigits2_le (m k : Z) : 0 <= m -> 0 <= k -> m < 2 ^ k -> Zdigits2 m <= k.
Proof.
  intros Hm Hk Hlt. destruct m as [|p|p]; simpl; [lia| |lia].
  pose proof (digits2_pos_lower p) as Hl.
  destruct (Z_le_gt_dec (Z.pos (digits2_pos p)) k) as [|Hgt]; [assumption|exfalso].
  assert (2 ^ k <= 2 ^ (Z.pos (digits2_pos p) - 1)) by (apply Z.pow_le_mono_r; lia).
  lia.
Qed.

Lemma fexp_binary64 (z : Z) : fexp prec emax z = Z.max (z - 53) (-1074).
Proof. reflexivity. Qed.

(** Dividing by a power of two keeps a bound that carries the same power. *)
Lemma div_pow2_le (m B a k : Z) :
  0 <= k <= a -> 0 <= B -> m <= B * 2 ^ a -> m / 2 ^ k <= B * 2 ^ (a - k).
Proof.
  intros Hk HB Hm.
  assert (Hk2 : 0 < 2 ^ k) by (apply Z.pow_pos_nonneg; lia).
  apply Z.div_le_upper_bound; [exact Hk2|].
  replace a with (k + (a - k)) in Hm by lia.
  rewrite Z.pow_add_r in Hm by lia. lia.
Qed.

(** Rounding a product that is at most [B] (with [B] at most [2 ^ 15]) to
    binary64 gives a number whose integer part is at most [B]. *)
Lemma binary_round_aux_bound (sx : bool) (m : positive) (e B : Z) :
  e <= -1 -> 1 <= B <= 2 ^ 15 -> Z.pos m <= B * 2 ^ (- e) ->
  match binary_round_aux prec emax sx (Z.pos m) e loc_Exact with
  | S754_finite s2 m2 e2 => s2 = sx /\ 0 <= Z.shiftl (Z.pos m2) e2 <= B
  | _ => True
  end.
Proof.
  intros He HB Hm. unfold binary_round_aux.
  destruct (shr_fexp_spec (Z.pos m) e loc_Exact ltac:(lia)) as [He1 Hq].
  destruct (shr_fexp prec emax (Z.pos m) e loc_Exact) as [mrs1 e1].
  cbn [fst snd] in Hq, He1.
  set (m1 := round_nearest_even (shr_m mrs1) (loc_of_shr_record mrs1)).
  pose proof (round_nearest_even_bound (shr_m mrs1) (loc_of_shr_record mrs1)) as Hm1.
  fold m1 in Hm1.
  assert (Hpow : forall a, 0 <= a -> 0 < 2 ^ a) by (intros; apply Z.pow_pos_nonneg; lia).
  (* the first shift *)
  assert (Hd : Zdigits2 (Z.pos m) + e <= 16).
  { enough (Zdigits2 (Z.pos m) <= 16 - e) by lia.
    apply Zdigits2_le; [lia|lia|].
    replace (16 - e) with (16 + - e) by lia. rewrite Z.pow_add_r by lia.
    pose proof (Hpow (- e) ltac:(lia)). change (2 ^ 15) with 32768 in HB.
    change (2 ^ 16) with 65536. nia. }
  rewrite fexp_binary64 in He1.
  assert (Hq0 : 0 <= shr_m mrs1).
  { rewrite Hq. apply Z.div_pos; [lia|apply Hpow; lia]. }
  assert (Hq1 : shr_m mrs1 <= B * 2 ^ (- e1)).
  { rewrite Hq. replace (- e1) with (- e - (e1 - e)) by lia.
    apply div_pow2_le; lia. }
  assert (He1' : e1 <= -1) by lia.
  (* the second shift *)
  destruct (shr_fexp_spec m1 e1 loc_Exact ltac:(lia)) as [He2 Hq2].
  destruct (shr_fexp prec emax m1 e1 loc_Exact) as [mrs2 e2].
  cbn [fst snd] in Hq2, He2.
  assert (Hd1 : Zdigits2 m1 + e1 <= 16).
  { enough (Zdigits2 m1 <= 16 - e1) by lia.
    apply Zdigits2_le; [lia|lia|].
    replace (16 - e1) with (16 + - e1) by lia. rewrite Z.pow_add_r by lia.
    pose proof (Hpow (- e1) ltac:(lia)). change (2 ^ 15) with 32768 in HB.
    change (2 ^ 16) with 65536. nia. }
  rewrite fexp_binary64 in He2.
  destruct (shr_m mrs2) as [|m2|m2] eqn:Hm2; [exact I| |exact I].
  destruct (e2 <=? emax - prec); [|exact I].
  split; [reflexivity|].
  rewrite Z.shiftl_div_pow2 by lia.
  assert (Hval : Z.pos m2 / 2 ^ (- e2) = m1 / 2 ^ (- e1)).
  { pose proof (Hpow (e2 - e1) ltac:(lia)). pose proof (Hpow (- e2) ltac:(lia)).
    rewrite Hq2, Z.div_div by lia.
    rewrite <- Z.pow_add_r by lia. f_equal. f_equal. lia. }
  rewrite Hval. split; [apply Z.div_pos; [lia|apply Hpow; lia]|].
  enough (m1 / 2 ^ (- e1) < B + 1) by lia.
  apply Z.div_lt_upper_bound; [apply Hpow; lia|].
  assert (2 <= 2 ^ (- e1)).
  { change 2 with (2 ^ 1) at 1. apply Z.pow_le_mono_r; lia. }
  nia.
Qed.

End Rounding.

Section QuantizeFacts.

Local Open Scope float_scope.

Lemma Math_min_one (s : float) :
  Math_min 1 s = if PrimFloat.is_nan s then nan else if 1 <? s then 1 else s.
Proof.
  unfold Math_min. change (PrimFloat.is_nan 1) with false.
  change (PrimFloat.get_sign 1) with false. cbn [orb].
  destruct (PrimFloat.is_nan s), (1 <? s), (s <? 1); reflexivity.
Qed.

Lemma Math_max_minus_one (m : float) :
  Math_max (-1) m
  = if PrimFloat.is_nan m then nan
    else if (-1) <? m then m else if m <? (-1) then (-1) else m.
Proof.
  unfold Math_max. change (PrimFloat.is_nan (-1)) with false.
  change (PrimFloat.get_sign (-1)) with true. cbn [orb].
  destruct (PrimFloat.is_nan m), ((-1) <? m), (m <? (-1)); reflexivity.
Qed.

(** The clamp returns NaN for NaN, 1 above 1, -1 below -1, and otherwise
    the sample itself, which is then neither NaN nor beyond a bound. *)
Lemma clampSample_cases (s : float) :
  (PrimFloat.is_nan s = true /\ clampSample s = nan)
  \/ (PrimFloat.is_nan s = false /\ (1 <? s) = true /\ clampSample s = 1)
  \/ (PrimFloat.is_nan s = false /\ (s <? -1) = true /\ clampSample s = (-1))
  \/ (clampSample s = s /\ PrimFloat.is_nan s = false /\ (1 <? s) = false
      /\ ((-1 <? s) = true \/ (s <? -1) = false)).
Proof.
  unfold clampSample. rewrite Math_min_one.
  destruct (PrimFloat.is_nan s) eqn:Hnan; [left; split; reflexivity|].
  destruct (1 <? s) eqn:H1; [right; left; repeat split; reflexivity|].
  rewrite Math_max_minus_one, Hnan.
  destruct (-1 <? s) eqn:Hlo; [right; right; right; auto|].
  destruct (s <? -1) eqn:Hlo'; [right; right; left; repeat split; reflexivity|].
  right; right; right; auto.
Qed.

Lemma SFcompare_finite (s1 s2 : bool) (m1 m2 : positive) (e1 e2 : Z) :
  SFcompare (S754_finite s1 m1 e1) (S754_finite s2 m2 e2)
  = Some match s1, s2 with
         | true, false => Lt
         | false, true => Gt
         | false, false =>
             match (e1 ?= e2)%Z with
             | Lt => Lt
             | Gt => Gt
             | Eq => (Z.pos m1 ?= Z.pos m2)%Z
             end
         | true, true =>
             match (e1 ?= e2)%Z with
             | Lt => Gt
             | Gt => Lt
             | Eq => CompOpp (Z.pos m1 ?= Z.pos m2)%Z
             end
         end.
Proof. reflexivity. Qed.

Lemma unitSF_of_compare (x : spec_float) :
  valid_binary x = true ->
  SFeqb x x = true ->
  SFltb (Prim2SF 1) x = false ->
  SFltb (Prim2SF (-1)) x = true \/ SFltb x (Prim2SF (-1)) = false ->
  unitSF x.
Proof.
  intros Hvalid Hnan Hhi Hlo.
  change (Prim2SF 1) with (S754_finite false 4503599627370496 (-52)) in Hhi.
  change (Prim2SF (-1)) with (S754_finite true 4503599627370496 (-52)) in Hlo.
  destruct x as [sg|sg| |sg m e]; simpl.
  - exact I.
  - destruct sg; [destruct Hlo as [Hlo|Hlo]; discriminate Hlo|discriminate Hhi].
  - discriminate Hnan.
  - assert (Hbound : (e <= -52)%Z /\ (e = -52 -> Z.pos m <= 4503599627370496)%Z).
    { unfold SFltb in Hhi, Hlo. rewrite SFcompare_finite in Hhi.
      destruct sg.
      - destruct Hlo as [Hlo|Hlo]; rewrite SFcompare_finite in Hlo.
        + destruct (Z.compare_spec (-52) e) as [He|He|He];
            try discriminate Hlo; [|lia].
          split; [lia|intros _].
          destruct (Z.compare_spec 4503599627370496 (Z.pos m)) as [Hc|Hc|Hc];
            try discriminate Hlo; lia.
        + destruct (Z.compare_spec e (-52)) as [He|He|He];
            try discriminate Hlo; [|lia].
          split; [lia|intros _].
          destruct (Z.compare_spec (Z.pos m) 4503599627370496) as [Hc|Hc|Hc];
            try discriminate Hlo; lia.
      - destruct (Z.compare_spec (-52) e) as [He|He|He];
          try discriminate Hhi; [|lia].
        split; [lia|intros _].
        destruct (Z.compare_spec 4503599627370496 (Z.pos m)) as [Hc|Hc|Hc];
          try discriminate Hhi; lia. }
    destruct Hbound as [He Hm]. split; [exact He|].
    destruct (Z.eq_dec e (-52)%Z) as [->|Hne]; [exact (Hm eq_refl)|].
    (* below 2^-52 the mantissa has at most 53 digits *)
    simpl in Hvalid. unfold bounded, canonical_mantissa in Hvalid.
    apply andb_prop in Hvalid as [Hcanon _]. apply Z.eqb_eq in Hcanon.
    rewrite fexp_binary64 in Hcanon.
    pose proof (digits2_pos_upper m) as Hup.
    assert (2 ^ Z.pos (digits2_pos m) <= 2 ^ (- e))%Z by (apply Z.pow_le_mono_r; lia).
    lia.
Qed.

Lemma unitSF_clampSample (s : float) :
  clampSample s = nan \/ unitSF (Prim2SF (clampSample s)).
Proof.
  destruct (clampSample_cases s) as [[_ H]|[(_ & _ & H)|[(_ & _ & H)|(H & Hnan & Hhi & Hlo)]]].
  - left; exact H.
  - right. rewrite H. vm_compute. split; discriminate.
  - right. rewrite H. vm_compute. split; discriminate.
  - right. rewrite H. apply unitSF_of_compare.
    + apply Prim2SF_valid.
    + rewrite <- FloatAxioms.eqb_spec. unfold PrimFloat.is_nan in Hnan.
      destruct (s =? s); [reflexivity|discriminate Hnan].
    + rewrite <- FloatAxioms.ltb_spec. exact Hhi.
    + rewrite <- !FloatAxioms.ltb_spec. exact Hlo.
Qed.

(** The integer part of the product of a value in [[-1, 1]] and a positive
    constant [K] whose value is the integer [B]. *)
Lemma truncate_mul_range (c K : float) (B : Z) (mK : positive) (eK : Z) :
  Prim2SF K = S754_finite false mK eK ->
  (eK <= 0)%Z -> (Z.pos mK = B * 2 ^ (- eK))%Z -> (1 <= B <= 2 ^ 15)%Z ->
  unitSF (Prim2SF c) ->
  if c <? 0 then (- B <= truncate (c * K) <= 0)%Z
  else (0 <= truncate (c * K) <= B)%Z.
Proof.
  intros HK HeK HmK HB Hunit.
  unfold truncate. rewrite FloatAxioms.ltb_spec, mul_spec, HK.
  change (Prim2SF 0) with (S754_zero false).
  destruct (Prim2SF c) as [sg|sg| |sg m e]; simpl in Hunit; try contradiction.
  - simpl. lia.
  - destruct Hunit as [He Hm].
    assert (Hsign : SFltb (S754_finite sg m e) (S754_zero false) = sg) by (destruct sg; reflexivity).
    rewrite Hsign. unfold SF64mul, SFmul.
    assert (Hprod : (Z.pos (m * mK) <= B * 2 ^ (- (e + eK)))%Z).
    { rewrite Pos2Z.inj_mul, HmK.
      replace (- (e + eK))%Z with (- e + - eK)%Z by lia.
      rewrite Z.pow_add_r by lia.
      assert (0 < 2 ^ (- eK))%Z by (apply Z.pow_pos_nonneg; lia).
      nia. }
    pose proof (binary_round_aux_bound (xorb sg false) (m * mK) (e + eK) B
                  ltac:(lia) HB Hprod) as Hround.
    destruct (binary_round_aux prec emax (xorb sg false) (Z.pos (m * mK)) (e + eK) loc_Exact)
      as [s2|s2| |s2 m2 e2].
    + destruct sg; simpl; lia.
    + destruct sg; simpl; lia.
    + destruct sg; simpl; lia.
    + destruct Hround as [-> Hrange]. rewrite xorb_false_r.
      destruct sg; unfold cond_Zopp; lia.
Qed.

(** Every sample is quantised to a signed 16-bit integer. *)
Lemma quantize_range (s : float) : (-32768 <= quantize s <= 32767)%Z.
Proof.
  unfold quantize. cbv zeta.
  destruct (unitSF_clampSample s) as [Hnan|Hunit].
  - rewrite Hnan. vm_compute. split; discriminate.
  - pose proof (truncate_mul_range (clampSample s) 32768 32768 4503599627370496 (-37)
                  eq_refl ltac:(lia) eq_refl ltac:(split; discriminate) Hunit) as Hneg.
    pose proof (truncate_mul_range (clampSample s) 32767 32767 9006924376834048 (-38)
                  eq_refl ltac:(lia) eq_refl ltac:(split; discriminate) Hunit) as Hpos.
    destruct (clampSample s <? 0); lia.
Qed.

Lemma SFeqb_refl_false (x : spec_float) : SFeqb x x = false -> x = S754_nan.
Proof.
  destruct x as [sg|sg| |sg m e]; unfold SFeqb; [destruct sg; discriminate|
    destruct sg; discriminate|reflexivity|].
  rewrite SFcompare_finite, !Z.compare_refl. destruct sg; discriminate.
Qed.

(** Testing the sign of the sample or of the clamped sample is the same. *)
Lemma clampSample_sign (s : float) : (clampSample s <? 0) = (s <? 0).
Proof.
  destruct (clampSample_cases s)
    as [[Hnan ->]|[(_ & H1 & ->)|[(_ & H1 & ->)|(-> & _)]]]; [| | |reflexivity].
  - unfold PrimFloat.is_nan in Hnan. rewrite FloatAxioms.eqb_spec in Hnan.
    rewrite (FloatAxioms.ltb_spec s).
    destruct (SFeqb (Prim2SF s) (Prim2SF s)) eqn:He; [discriminate Hnan|].
    rewrite (SFeqb_refl_false _ He). reflexivity.
  - rewrite FloatAxioms.ltb_spec in H1. rewrite (FloatAxioms.ltb_spec s).
    change (Prim2SF 1) with (S754_finite false 4503599627370496 (-52)) in H1.
    change (Prim2SF 0) with (S754_zero false).
    destruct (Prim2SF s) as [sg|sg| |sg m e]; try discriminate H1.
    + destruct sg; [discriminate H1|reflexivity].
    + destruct sg; [discriminate H1|reflexivity].
  - rewrite FloatAxioms.ltb_spec in H1. rewrite (FloatAxioms.ltb_spec s).
    change (Prim2SF (-1)) with (S754_finite true 4503599627370496 (-52)) in H1.
    change (Prim2SF 0) with (S754_zero false).
    destruct (Prim2SF s) as [sg|sg| |sg m e]; try discriminate H1.
    + destruct sg; [reflexivity|discriminate H1].
    + destruct sg; [reflexivity|discriminate H1].
Qed.

End QuantizeFacts.

(** * Reading the bytes back *)

Section ReadBack.

Lemma byteToZ_byteOfZ (z : Z) : byteToZ (byteOfZ z) = z mod 256.
Proof.
  unfold byteToZ, byteOfZ.
  pose proof (Z.mod_pos_bound z 256 ltac:(lia)) as Hb.
  destruct (Byte.of_N (Z.to_N (z mod 256))) as [b|] eqn:Hof.
  - apply Byte.to_of_N in Hof. rewrite Hof. lia.
  - apply Byte.of_N_None_iff in Hof. lia.
Qed.

Lemma fromLittleEndian_littleEndian (n : nat) (v : Z) :
  fromLittleEndian (littleEndian n v) = v mod 256 ^ Z.of_nat n.
Proof.
  revert v; induction n as [|n IH]; intros v.
  - simpl. now rewrite Z.mod_1_r.
  - cbn [littleEndian fromLittleEndian].
    rewrite IH, byteToZ_byteOfZ, Nat2Z.inj_succ, Z.pow_succ_r by lia.
    assert (0 < 256 ^ Z.of_nat n) by (apply Z.pow_pos_nonneg; lia).
    rewrite (Z.rem_mul_r v 256 (256 ^ Z.of_nat n)) by lia. reflexivity.
Qed.

Lemma wrapSigned_id (w z : Z) :
  0 < w -> - 2 ^ (w - 1) <= z < 2 ^ (w - 1) -> wrapSigned w z = z.
Proof.
  intros Hw Hz. unfold wrapSigned.
  assert (H2 : 2 ^ w = 2 * 2 ^ (w - 1)).
  { replace w with (Z.succ (w - 1)) at 1 by lia. apply Z.pow_succ_r. lia. }
  rewrite Z.mod_small by lia. lia.
Qed.

(** A signed 16-bit integer stored little-endian reads back as itself. *)
Lemma getInt16_littleEndian (v : Z) :
  -32768 <= v <= 32767 -> getInt16 (littleEndian 2 v) = v.
Proof.
  intros Hv. unfold getInt16. rewrite fromLittleEndian_littleEndian.
  change (256 ^ Z.of_nat 2) with (2 ^ 16).
  rewrite <- (wrapSigned_id 16 v) at 2 by (change (2 ^ (16 - 1)) with 32768; lia).
  unfold wrapSigned. f_equal.
  rewrite Zplus_mod_idemp_l. reflexivity.
Qed.

(** An unsigned field of [n] bytes reads back as itself. *)
Lemma fromLittleEndian_small (n : nat) (v : Z) :
  0 <= v < 256 ^ Z.of_nat n -> fromLittleEndian (littleEndian n v) = v.
Proof. intros Hv. rewrite fromLittleEndian_littleEndian. now apply Z.mod_small. Qed.

(** [x | 0] leaves a quantised sample as it is. *)
Lemma scaleSample_quantize (s : float) : scaleSample (clampSample s) = quantize s.
Proof.
  unfold scaleSample, ToInt32. fold (quantize s).
  apply wrapSigned_id; [lia|].
  pose proof (quantize_range s). change (2 ^ (32 - 1)) with 2147483648. lia.
Qed.

(** The header written for [C] channels, [N] frames and rate [R] reads
    back as those values, as long as each fits its field. *)
Lemma readHeader_wavHeader (C N : nat) (R : positive) (rest : list Byte.byte) :
  Z.of_nat (44 + N * C * 2) < 2 ^ 32 ->
  Z.pos R < 2 ^ 32 ->
  Z.pos R * Z.of_nat C * 2 < 2 ^ 32 ->
  Z.of_nat C * 2 < 2 ^ 16 ->
  readHeader (wavHeader C N R ++ rest)
  = mkWavHeader (asciiTag "RIFF") (Z.of_nat (44 + N * C * 2) - 8) (asciiTag "WAVE")
      (asciiTag "fmt ") 16 1 (Z.of_nat C) (Z.pos R) (Z.pos R * Z.of_nat C * 2)
      (Z.of_nat C * 2) 16 (asciiTag "data") (Z.of_nat (N * C * 2)).
Proof.
  intros Htotal HR Hrate Halign.
  change (2 ^ 32) with (256 ^ Z.of_nat 4) in Htotal, HR, Hrate.
  change (2 ^ 16) with (256 ^ Z.of_nat 2) in Halign.
  assert (H4 : forall v, 0 <= v < 256 ^ Z.of_nat 4 ->
                         fromLittleEndian (littleEndian 4 v) = v)
    by (intros; now apply fromLittleEndian_small).
  assert (H2 : forall v, 0 <= v < 256 ^ Z.of_nat 2 ->
                         fromLittleEndian (littleEndian 2 v) = v)
    by (intros; now apply fromLittleEndian_small).
  unfold readHeader, slice, wavHeader.
  change (asciiTag "RIFF") with [Byte.x52; Byte.x49; Byte.x46; Byte.x46].
  change (asciiTag "WAVE") with [Byte.x57; Byte.x41; Byte.x56; Byte.x45].
  change (asciiTag "fmt ") with [Byte.x66; Byte.x6d; Byte.x74; Byte.x20].
  change (asciiTag "data") with [Byte.x64; Byte.x61; Byte.x74; Byte.x61].
  cbn [littleEndian app take drop firstn skipn].
  f_equal.
  - apply (H4 (Z.of_nat (44 + N * C * 2) - 8)). lia.
  - apply (H2 (Z.of_nat C)). lia.
  - apply (H4 (Z.pos R)). lia.
  - apply (H4 (Z.pos R * Z.of_nat C * 2)). lia.
  - apply (H2 (Z.of_nat C * 2)). lia.
  - apply (H4 (Z.of_nat (N * C * 2))). lia.
Qed.

End ReadBack.

Section Layout.

Local Open Scope nat_scope.

(** Skipping whole chunks of a concatenation of equally long chunks. *)
Lemma drop_flat_map_uniform {A B : Type} (f : A -> list B) (size : nat) (l : list A) :
  (forall x, length (f x) = size) ->
  forall i, drop (i * size) (flat_map f l) = flat_map f (drop i l).
Proof.
  intros Hsize. induction l as [|x l IH]; intros i.
  - simpl. now rewrite !drop_nil.
  - destruct i as [|i]; [reflexivity|].
    cbn [flat_map]. change (S i * size) with (size + i * size).
    rewrite (drop_app_add' (f x)) by (symmetry; apply Hsize).
    apply IH.
Qed.

Lemma drop_seq_from (k r n : nat) : n <= r -> drop n (seq k r) = seq (k + n) (r - n).
Proof.
  revert k r; induction n as [|n IH]; intros k r Hn.
  - rewrite Nat.add_0_r, Nat.sub_0_r. reflexivity.
  - destruct r as [|r]; [lia|]. simpl. rewrite IH by lia. f_equal. lia.
Qed.

(** Where the sample of frame [n] and channel [c] sits in the data chunk. *)
Lemma pcmData_sample (buffer : AudioBuffer) (n c : nat) (channel : list float) :
  n < buf_length buffer ->
  channelData buffer !! c = Some channel ->
  take 2 (drop ((n * numberOfChannels buffer + c) * 2) (pcmData buffer))
  = littleEndian 2 (quantize (readSample channel n)).
Proof.
  intros Hn Hc. unfold pcmData, numberOfChannels.
  set (channels := channelData buffer) in *.
  replace ((n * length channels + c) * 2) with (n * (length channels * 2) + c * 2) by lia.
  rewrite <- drop_drop.
  rewrite (drop_flat_map_uniform _ (length channels * 2))
    by (intros; apply length_pcmFrame).
  rewrite drop_seq_from by lia.
  destruct (buf_length buffer - n) as [|r] eqn:Hr; [lia|].
  cbn [seq flat_map]. rewrite Nat.add_0_l.
  assert (Hclt : c < length channels) by (eapply lookup_lt_Some; exact Hc).
  rewrite drop_app_le by (rewrite length_pcmFrame; lia).
  unfold pcmFrame at 1.
  change (c * 2) with (c * 2).
  rewrite (drop_flat_map_uniform _ 2) by (intros; apply length_littleEndian).
  rewrite (drop_S _ _ _ Hc). cbn [flat_map].
  rewrite <- app_assoc.
  apply take_app_length'. now rewrite length_littleEndian.
Qed.

(** What the encoder leaves at the place of frame [n] and channel [c]: the
    two bytes written by [setInt16] for the value computed from
    [channels[c][n]], which read back as that value. *)
Lemma encoded_sample (buffer : AudioBuffer) (n c : nat) (channel : list float) :
  n < buf_length buffer ->
  channelData buffer !! c = Some channel ->
  audioBufferToWav buffer = Return (mkBlob (wavBytes buffer) (lit "audio/wav"))
  /\ slice (wavBytes buffer) (44 + (n * numberOfChannels buffer + c) * 2) 2
     = littleEndian 2 (scaleSample (clampSample (readSample channel n)))
  /\ getInt16 (slice (wavBytes buffer) (44 + (n * numberOfChannels buffer + c) * 2) 2)
     = scaleSample (clampSample (readSample channel n)).
Proof.
  intros Hn Hc. split; [apply audioBufferToWav_bytes|].
  assert (Hbytes : slice (wavBytes buffer) (44 + (n * numberOfChannels buffer + c) * 2) 2
                   = littleEndian 2 (scaleSample (clampSample (readSample channel n)))).
  { unfold slice, wavBytes. rewrite drop_app_add' by (symmetry; apply length_wavHeader).
    rewrite (pcmData_sample buffer n c channel Hn Hc), scaleSample_quantize. reflexivity. }
  split; [exact Hbytes|]. rewrite Hbytes, scaleSample_quantize.
  apply getInt16_littleEndian, quantize_range.
Qed.

End Layout.

(** * The PCM encoder: claims *)

(** C3: every float sample fed to the encoder, that is the sample [s] of a
    frame [n] below the buffer's length in a channel [c], is emitted by
    [audioBufferToWav] as the 16-bit value obtained by clamping it to
    [-1, 1], multiplying the clamped value by 32768 if [s] is below zero and
    by 32767 otherwise, and keeping the integer part (truncation toward
    zero, the platform's integer cast): these are the two bytes at
    [44 + (n * C + c) * 2] of the file returned, little-endian, and they read
    back as that value, which always fits 16 bits.  The code tests the
    clamped value against zero, which selects the same factor.  A channel
    holding 0.0, 1.0, -1.0, 0.5 is encoded as 0, 32767, -32768, 16383. *)
Theorem quantisation_rule (buffer : AudioBuffer) (n c : nat) (channel : list float)
  (s : float) :
  (n < buf_length buffer)%nat ->
  channelData buffer !! c = Some channel -> channel !! n = Some s ->
  let clamped := Math_max (-1)%float (Math_min 1%float s) in
  let emitted := truncate (if PrimFloat.ltb s 0%float
                           then PrimFloat.mul clamped 32768%float
                           else PrimFloat.mul clamped 32767%float) in
  (exists bytes,
     audioBufferToWav buffer = Return (mkBlob bytes (lit "audio/wav"))
     /\ slice bytes (44 + (n * numberOfChannels buffer + c) * 2) 2 = littleEndian 2 emitted
     /\ getInt16 (slice bytes (44 + (n * numberOfChannels buffer + c) * 2) 2) = emitted)
  /\ -32768 <= emitted <= 32767
  /\ emitted = truncate (if PrimFloat.ltb clamped 0%float
                         then PrimFloat.mul clamped 32768%float
                         else PrimFloat.mul clamped 32767%float)
  /\ exists bytes,
       audioBufferToWav (mkAudioBuffer 24000 4 [[0%float; 1%float; (-1)%float; 0.5%float]])
       = Return (mkBlob bytes (lit "audio/wav"))
       /\ map (fun k => getInt16 (slice bytes (44 + k * 2) 2)) [0; 1; 2; 3]%nat
          = [0; 32767; -32768; 16383].
Proof.
  intros Hn Hc Hs clamped emitted.
  assert (Hemitted : emitted = quantize s).
  { subst emitted clamped. unfold quantize. cbv zeta.
    fold (clampSample s). rewrite clampSample_sign. reflexivity. }
  destruct (encoded_sample buffer n c channel Hn Hc) as (Hrun & Hbytes & Hread).
  assert (Hsample : readSample channel n = s) by (unfold readSample; rewrite Hs; reflexivity).
  rewrite Hsample, scaleSample_quantize in Hbytes, Hread.
  split.
  { exists (wavBytes buffer). rewrite Hemitted. split; [exact Hrun|]. split; assumption. }
  split; [rewrite Hemitted; apply quantize_range|].
  split.
  { rewrite Hemitted. unfold quantize. cbv zeta. reflexivity. }
  eexists. split; [vm_compute; reflexivity|]. vm_compute. reflexivity.
Qed.

(** The last sample of the first channel of the round-trip buffer: 0.5 is
    stored as 16383 at byte 56. *)
Lemma quantisation_rule_witness :
  (3 < buf_length specBuffer)%nat
  /\ channelData specBuffer !! 0%nat = Some [0%float; 1%float; (-1)%float; 0.5%float]
  /\ [0%float; 1%float; (-1)%float; 0.5%float] !! 3%nat = Some 0.5%float
  /\ exists bytes,
       audioBufferToWav specBuffer = Return (mkBlob bytes (lit "audio/wav"))
       /\ getInt16 (slice bytes 56 2) = 16383.
Proof.
  assert (Hn : (3 < buf_length specBuffer)%nat) by (simpl; lia).
  split; [exact Hn|]. split; [reflexivity|]. split; [reflexivity|].
  destruct (quantisation_rule specBuffer 3 0 [0%float; 1%float; (-1)%float; 0.5%float]
              0.5%float Hn eq_refl eq_refl) as ((bytes & Hrun & _ & Hread) & _).
  exists bytes. split; [exact Hrun|]. exact Hread.
Defined.

(** C4: for every well-shaped buffer with [C] channels, [N] frames per
    channel and sample rate [R], the encoder returns exactly
    [44 + N * C * 2] bytes of type audio/wav: the 44-byte header (RIFF, total
    size minus 8, WAVE, fmt chunk of length 16, format 1, [C], [R],
    [R * C * 2], [C * 2], 16, data, [N * C * 2], all little-endian) followed
    by the [N] frames, where the sample of frame [n] and channel [c] is the
    little-endian signed 16-bit integer at byte [44 + (n * C + c) * 2]. *)
Theorem audioBufferToWav_layout (buffer : AudioBuffer) :
  wellShaped buffer ->
  let C := numberOfChannels buffer in
  let N := buf_length buffer in
  exists bytes,
    audioBufferToWav buffer = Return (mkBlob bytes (lit "audio/wav"))
    /\ length bytes = (44 + N * C * 2)%nat
    /\ bytes = wavHeader C N (sampleRate buffer) ++ pcmData buffer
    /\ length (wavHeader C N (sampleRate buffer)) = 44%nat
    /\ (Z.of_nat (44 + N * C * 2) < 2 ^ 32 ->
        Z.pos (sampleRate buffer) * Z.of_nat C * 2 < 2 ^ 32 ->
        Z.of_nat C * 2 < 2 ^ 16 ->
        readHeader bytes
        = mkWavHeader (asciiTag "RIFF") (Z.of_nat (44 + N * C * 2) - 8) (asciiTag "WAVE")
            (asciiTag "fmt ") 16 1 (Z.of_nat C) (Z.pos (sampleRate buffer))
            (Z.pos (sampleRate buffer) * Z.of_nat C * 2) (Z.of_nat C * 2) 16
            (asciiTag "data") (Z.of_nat (N * C * 2)))
    /\ forall (n c : nat) (channel : list float) (s : float),
         channelData buffer !! c = Some channel -> channel !! n = Some s ->
         slice bytes (44 + (n * C + c) * 2) 2 = littleEndian 2 (quantize s)
         /\ getInt16 (slice bytes (44 + (n * C + c) * 2) 2) = quantize s.
Proof.
  intros [Hchan Hshape] C N. subst C N. exists (wavBytes buffer).
  split; [apply audioBufferToWav_bytes|].
  split; [unfold wavBytes; rewrite length_app, length_wavHeader, length_pcmData; reflexivity|].
  split; [reflexivity|]. split; [apply length_wavHeader|].
  split.
  { intros Htotal Hrate Halign. unfold wavBytes.
    apply readHeader_wavHeader; [exact Htotal| |exact Hrate|exact Halign].
    assert (1 <= Z.of_nat (numberOfChannels buffer)) by lia.
    change (2 ^ 32) with 4294967296 in *. nia. }
  unfold slice. intros n c channel s Hc Hs.
  assert (Hn : (n < buf_length buffer)%nat).
  { rewrite <- (Forall_lookup_1 _ _ _ _ Hshape Hc).
    eapply lookup_lt_Some; exact Hs. }
  assert (Hbytes : take 2 (drop (44 + (n * numberOfChannels buffer + c) * 2)
                                (wavBytes buffer))
                   = littleEndian 2 (quantize s)).
  { unfold wavBytes. rewrite drop_app_add' by (symmetry; apply length_wavHeader).
    rewrite (pcmData_sample buffer n c channel Hn Hc).
    unfold readSample. rewrite Hs. reflexivity. }
  rewrite Hbytes. split; [reflexivity|].
  apply getInt16_littleEndian, quantize_range.
Qed.

(** The buffer of the specification's round trip: 60 bytes, the header
    fields of the example and the four samples of the first channel. *)
Lemma audioBufferToWav_layout_witness :
  wellShaped specBuffer /\
  exists bytes,
    audioBufferToWav specBuffer = Return (mkBlob bytes (lit "audio/wav"))
    /\ length bytes = 60%nat
    /\ readHeader bytes
       = mkWavHeader (asciiTag "RIFF") 52 (asciiTag "WAVE") (asciiTag "fmt ") 16 1 2
           24000 96000 4 16 (asciiTag "data") 16
    /\ map (fun n => getInt16 (slice bytes (44 + n * 4) 2)) [0; 1; 2; 3]%nat
       = [0; 32767; -32768; 16383].
Proof.
  assert (H : wellShaped specBuffer).
  { split; [unfold numberOfChannels; simpl; lia|]. repeat constructor. }
  split; [exact H|].
  destruct (audioBufferToWav_layout specBuffer H) as (bytes & Hrun & Hlen & Hbytes & _).
  exists bytes. split; [exact Hrun|]. split; [exact Hlen|].
  rewrite Hbytes. split; vm_compute; reflexivity.
Defined.

(** C9, as stated, fails: the encoder does not fail on a buffer with zero
    channels nor on one with channels of different lengths; it returns the
    bare header for the first and encodes the missing sample as 0 for the
    second. *)
Lemma invalid_shape_is_encoded :
  ~ wellShaped noChannels /\ ~ wellShaped shortChannel
  /\ audioBufferToWav noChannels
     = Return (mkBlob (wavHeader 0 4 24000) (lit "audio/wav"))
  /\ audioBufferToWav shortChannel
     = Return (mkBlob (wavHeader 2 2 24000
                       ++ littleEndian 2 32767 ++ littleEndian 2 32767
                       ++ littleEndian 2 32767 ++ littleEndian 2 0)
                      (lit "audio/wav")).
Proof.
  split; [intros [H _]; unfold numberOfChannels in H; simpl in H; lia|].
  split.
  - intros [_ H]. inversion H as [|? ? _ H']. inversion H' as [|? ? Hlen _].
    simpl in Hlen. discriminate Hlen.
  - split; vm_compute; reflexivity.
Qed.

(** C9, amended: the encoder has no failure mode at all.  For every buffer,
    whatever its shape, it returns [44 + N * C * 2] bytes, the header
    followed by the frames; a sample missing from a short channel is
    encoded as 0, and a buffer without channels gives the bare header. *)
Theorem audioBufferToWav_total (buffer : AudioBuffer) :
  exists bytes,
    audioBufferToWav buffer = Return (mkBlob bytes (lit "audio/wav"))
    /\ length bytes = (44 + buf_length buffer * numberOfChannels buffer * 2)%nat
    /\ bytes = wavHeader (numberOfChannels buffer) (buf_length buffer) (sampleRate buffer)
               ++ pcmData buffer
    /\ (forall (n c : nat) (channel : list float),
          (n < buf_length buffer)%nat ->
          channelData buffer !! c = Some channel -> channel !! n = None ->
          take 2 (drop (44 + (n * numberOfChannels buffer + c) * 2) bytes)
          = [Byte.x00; Byte.x00])
    /\ (numberOfChannels buffer = 0%nat ->
        bytes = wavHeader 0 (buf_length buffer) (sampleRate buffer)).
Proof.
  exists (wavBytes buffer).
  split; [apply audioBufferToWav_bytes|].
  split; [unfold wavBytes; rewrite length_app, length_wavHeader, length_pcmData; reflexivity|].
  split; [reflexivity|]. split.
  - intros n c channel Hn Hc Hs.
    unfold wavBytes. rewrite drop_app_add' by (symmetry; apply length_wavHeader).
    rewrite (pcmData_sample buffer n c channel Hn Hc).
    unfold readSample. rewrite Hs. vm_compute. reflexivity.
  - intros HC. unfold wavBytes. rewrite HC.
    assert (Hnil : pcmData buffer = []).
    { apply length_zero_iff_nil. rewrite length_pcmData, HC. lia. }
    rewrite Hnil. apply app_nil_r.
Qed.

(** * The component: claims *)

Section Trim.

Lemma trimStart_nil_iff (s : JSString) :
  trimStart s = [] <-> forallb isWhiteSpace s = true.
Proof.
  induction s as [|c s IH]; simpl; [tauto|].
  destruct (isWhiteSpace c); simpl; [exact IH|].
  split; discriminate.
Qed.

(** What [trimStart] leaves does not begin with white space. *)
Lemma trimStart_head (s : JSString) (c : N) (s' : JSString) :
  trimStart s = c :: s' -> isWhiteSpace c = false.
Proof.
  induction s as [|d s IH]; simpl; [discriminate|].
  destruct (isWhiteSpace d) eqn:Hd; [exact IH|].
  intros [= <- _]. exact Hd.
Qed.

Lemma forallb_rev {A : Type} (f : A -> bool) (l : list A) :
  forallb f (rev l) = forallb f l.
Proof.
  induction l as [|x l IH]; [reflexivity|].
  simpl. rewrite forallb_app, IH. simpl. rewrite andb_true_r. apply andb_comm.
Qed.

(** [trim] gives the empty string exactly on the strings made of white
    space only (the empty string among them). *)
Lemma trim_nil_iff (s : JSString) :
  trim s = [] <-> forallb isWhiteSpace s = true.
Proof.
  unfold trim, trimEnd. rewrite <- trimStart_nil_iff. split.
  - intros H.
    assert (H' : trimStart (rev (trimStart s)) = []).
    { rewrite <- (rev_involutive (trimStart (rev (trimStart s)))), H. reflexivity. }
    apply trimStart_nil_iff in H'. rewrite forallb_rev in H'.
    destruct (trimStart s) as [|c s'] eqn:Hs; [reflexivity|].
    apply trimStart_head in Hs. simpl in H'. rewrite Hs in H'. discriminate H'.
  - intros ->. reflexivity.
Qed.

End Trim.

(** C10: playing a text that is empty or made of white space only changes
    nothing: the component, the list of synthesis calls included, is the
    same afterwards. *)
Theorem playAudio_blank_noop (a : App) (service : Service) :
  forallb isWhiteSpace (text (state a)) = true ->
  step a (PlayClicked service) = a.
Proof.
  intros Hblank. apply trim_nil_iff in Hblank.
  unfold step, playAudio. rewrite Hblank. reflexivity.
Qed.

(** Two blanks, and the empty text of the initial session. *)
Lemma playAudio_blank_noop_witness :
  let a := setText (lit "  ") initialApp in
  forallb isWhiteSpace (text (state a)) = true
  /\ step a (PlayClicked (fun _ _ => Some specBuffer)) = a
  /\ step initialApp (PlayClicked (fun _ _ => Some specBuffer)) = initialApp.
Proof.
  split; [reflexivity|].
  split; [apply (playAudio_blank_noop (setText (lit "  ") initialApp)); reflexivity|].
  apply (playAudio_blank_noop initialApp); reflexivity.
Defined.

(** An MP3 export of "Hello", cached, at 1700000000000 ms. *)
Lemma export_example :
  let a := run initialApp [TextChanged (lit "Hello"); PlayClicked (speaks specBuffer);
                           ExportClicked mp3 1700000000000 noService] in
  map fileName (downloads a) = [lit "t2s_audio_1700000000000.mp3"]
  /\ map (fun d => blobType (content d)) (downloads a) = [lit "audio/wav"]
  /\ map (fun d => Return (content d)) (downloads a) = [audioBufferToWav specBuffer]
  /\ length (synthesisCalls a) = 1%nat.
Proof. vm_compute. repeat split. Qed.

Section FileName.

Lemma uintOf_digitsOf (d : Decimal.uint) : uintOf (digitsOf d) = Some d.
Proof. induction d as [|d IH|d IH|d IH|d IH|d IH|d IH|d IH|d IH|d IH|d IH]; simpl;
  rewrite ?IH; reflexivity. Qed.

Lemma wavBytes_tags (buffer : AudioBuffer) :
  slice (wavBytes buffer) 0 4 = asciiTag "RIFF"
  /\ slice (wavBytes buffer) 8 4 = asciiTag "WAVE".
Proof. split; reflexivity. Qed.

End FileName.

(** C8: the MP3 path returns what the WAV encoder returns, and every export
    that has a buffer to write (the buffer held, when it is the one of the
    current text, and otherwise the one the service answers with) hands
    exactly one file to the browser, whether [wav] or [mp3] was asked for:
    its name is [t2s_audio_], the decimal numeral of [Date.now()], a dot and
    the extension asked for; its type is audio/wav; and its bytes are those
    [audioBufferToWav] and [audioBufferToMp3] both return for that buffer, a
    RIFF/WAVE file of [44 + N * C * 2] bytes.  An export without a buffer
    hands over nothing. *)
Theorem export_is_always_wav (a : App) (format : ExportFormat) (now : N)
  (service : Service) :
  let answered := service (text (state a)) (voiceName (config (state a))) in
  let exported :=
    match audioBufferRef (refs a) with
    | Some held =>
        if bool_decide (text (state a) = lastGeneratedTextRef (refs a))
        then Some held else answered
    | None => answered
    end in
  let a' := step a (ExportClicked format now service) in
  match exported with
  | None => downloads a' = downloads a
  | Some buffer =>
      exists stamp bytes,
        downloads a'
        = mkDownload (lit "t2s_audio_" ++ stamp ++ lit "."
                        ++ match format with wav => lit "wav" | mp3 => lit "mp3" end)
                     (mkBlob bytes (lit "audio/wav")) :: downloads a
        /\ uintOf stamp = Some (N.to_uint now)
        /\ audioBufferToWav buffer = Return (mkBlob bytes (lit "audio/wav"))
        /\ audioBufferToMp3 buffer = Return (mkBlob bytes (lit "audio/wav"))
        /\ length bytes = (44 + buf_length buffer * numberOfChannels buffer * 2)%nat
        /\ slice bytes 0 4 = asciiTag "RIFF"
        /\ slice bytes 8 4 = asciiTag "WAVE"
  end.
Proof.
  cbv zeta.
  assert (Hfile : forall buffer,
    exists stamp bytes,
      mkDownload (lit "t2s_audio_" ++ toString now ++ lit "." ++ formatName format)
                 (mkBlob (wavBytes buffer) (lit "audio/wav")) :: downloads a
      = mkDownload (lit "t2s_audio_" ++ stamp ++ lit "."
                      ++ match format with wav => lit "wav" | mp3 => lit "mp3" end)
                   (mkBlob bytes (lit "audio/wav")) :: downloads a
      /\ uintOf stamp = Some (N.to_uint now)
      /\ audioBufferToWav buffer = Return (mkBlob bytes (lit "audio/wav"))
      /\ audioBufferToMp3 buffer = Return (mkBlob bytes (lit "audio/wav"))
      /\ length bytes = (44 + buf_length buffer * numberOfChannels buffer * 2)%nat
      /\ slice bytes 0 4 = asciiTag "RIFF"
      /\ slice bytes 8 4 = asciiTag "WAVE").
  { intros buffer. exists (toString now), (wavBytes buffer).
    split; [destruct format; reflexivity|].
    split; [apply uintOf_digitsOf|].
    split; [apply audioBufferToWav_bytes|].
    split; [unfold audioBufferToMp3; apply audioBufferToWav_bytes|].
    split; [unfold wavBytes; rewrite length_app, length_wavHeader, length_pcmData;
            reflexivity|].
    apply wavBytes_tags. }
  unfold step, handleExport.
  destruct (audioBufferRef (refs a)) as [held|] eqn:Hheld.
  - destruct (decide (text (state a) = lastGeneratedTextRef (refs a))) as [Ht|Ht].
    + rewrite (bool_decide_eq_true_2 _ Ht).
      rewrite (bool_decide_eq_false_2 (text (state a) ≠ lastGeneratedTextRef (refs a)))
        by (intros H; apply H; exact Ht).
      rewrite (bool_decide_eq_false_2 (Some held = None)) by discriminate.
      cbn [orb]. destruct (Hfile held) as (stamp & bytes & Hd & Hrest).
      exists stamp, bytes. split; [rewrite audioBufferToWav_bytes; exact Hd|exact Hrest].
    + rewrite (bool_decide_eq_false_2 _ Ht).
      rewrite (bool_decide_eq_true_2 (text (state a) ≠ lastGeneratedTextRef (refs a)) Ht).
      cbn [orb]. unfold callGenerateSpeech.
      destruct (service (text (state a)) (voiceName (config (state a)))) as [b|];
        [|reflexivity].
      destruct (Hfile b) as (stamp & bytes & Hd & Hrest).
    exists stamp, bytes. split; [rewrite audioBufferToWav_bytes; exact Hd|exact Hrest].
  - rewrite (bool_decide_eq_true_2 (None = None) eq_refl), orb_true_r.
    unfold callGenerateSpeech.
    destruct (service (text (state a)) (voiceName (config (state a)))) as [b|];
      [|reflexivity].
    destruct (Hfile b) as (stamp & bytes & Hd & Hrest).
    exists stamp, bytes. split; [rewrite audioBufferToWav_bytes; exact Hd|exact Hrest].
Qed.

(** An MP3 export of "Hello", whose audio is held, at 1700000000000 ms: one
    file named t2s_audio_1700000000000.mp3 holding the 60 bytes of the WAV
    encoding. *)
Lemma export_is_always_wav_witness :
  let a := run initialApp [TextChanged (lit "Hello"); PlayClicked (speaks specBuffer)] in
  let a' := step a (ExportClicked mp3 1700000000000 noService) in
  (downloads a'
   = [mkDownload (lit "t2s_audio_1700000000000.mp3")
                 (mkBlob (wavBytes specBuffer) (lit "audio/wav"))]
   /\ audioBufferToWav specBuffer = Return (mkBlob (wavBytes specBuffer) (lit "audio/wav"))
   /\ length (wavBytes specBuffer) = 60%nat)
  /\ exists stamp bytes,
       downloads a'
       = mkDownload (lit "t2s_audio_" ++ stamp ++ lit "." ++ lit "mp3")
                    (mkBlob bytes (lit "audio/wav")) :: downloads a
       /\ uintOf stamp = Some (N.to_uint 1700000000000)
       /\ audioBufferToWav specBuffer = Return (mkBlob bytes (lit "audio/wav"))
       /\ audioBufferToMp3 specBuffer = Return (mkBlob bytes (lit "audio/wav"))
       /\ length bytes = 60%nat
       /\ slice bytes 0 4 = asciiTag "RIFF"
       /\ slice bytes 8 4 = asciiTag "WAVE".
Proof.
  cbv zeta. split.
  - split; [vm_compute; reflexivity|]. split; vm_compute; reflexivity.
  - exact (export_is_always_wav
             (run initialApp [TextChanged (lit "Hello"); PlayClicked (speaks specBuffer)])
             mp3 1700000000000 noService).
Defined.

Section Completion.

Lemma startPlayback_source (r : State) (offset : Q) (a : App) :
  audioBufferRef (refs a) <> None ->
  sourceRef (refs (startPlayback r offset a))
  = Some (mkSource (nodesCreated a) (playbackSpeed (config r)))
  /\ nodesCreated (startPlayback r offset a) = S (nodesCreated a)
  /\ audioBufferRef (refs (startPlayback r offset a)) = audioBufferRef (refs a).
Proof.
  intros Hbuf. unfold startPlayback.
  destruct (audioBufferRef (refs a)) as [b|] eqn:Hb; [|contradiction].
  unfold stopAudio. destruct (sourceRef (refs a)); simpl; rewrite ?Hb; auto.
Qed.

Lemma startAll_app (a : App) (l1 l2 : list Q) :
  startAll a (l1 ++ l2) = startAll (startAll a l1) l2.
Proof. apply fold_left_app. Qed.

Lemma startAll_keeps (offsets : list Q) :
  forall a, audioBufferRef (refs a) <> None -> fresh a ->
    audioBufferRef (refs (startAll a offsets)) <> None
    /\ fresh (startAll a offsets)
    /\ (nodesCreated a <= nodesCreated (startAll a offsets))%nat.
Proof.
  induction offsets as [|o offsets IH]; intros a Hbuf Hfresh; [simpl; auto|].
  destruct (startPlayback_source (state a) o a Hbuf) as (Hsrc & Hn & Hb).
  destruct (IH (startPlayback (state a) o a)) as (Hb' & Hf' & Hle).
  - rewrite Hb. exact Hbuf.
  - intros src Hs. rewrite Hsrc in Hs. injection Hs as <-. rewrite Hn. simpl. lia.
  - simpl. repeat split; [exact Hb'|exact Hf'|]. rewrite Hn in Hle. lia.
Qed.

End Completion.

(** C7: after any sequence of [start] operations the active playback
    instance is the one the last [start] created.  Its completion stops
    playback and resets the position to 0; the completion of any other
    instance, in particular of every instance an earlier [start] of the
    sequence (or an earlier one still) had made active, leaves the whole
    component as it is. *)
Theorem stale_completion_ignored (a : App) (offsets : list Q) (o : Q) :
  audioBufferRef (refs a) <> None -> fresh a ->
  let a' := startAll a (offsets ++ [o]) in
  exists active,
    sourceRef (refs a') = Some active
    /\ isPlaying (state (onended (nodeId active) a')) = false
    /\ playbackPosition (state (onended (nodeId active) a')) = 0%Q
    /\ (forall k, k <> nodeId active -> onended k a' = a')
    /\ (forall pre post superseded,
          offsets ++ [o] = pre ++ post -> post <> [] ->
          sourceRef (refs (startAll a pre)) = Some superseded ->
          (nodeId superseded < nodeId active)%nat
          /\ onended (nodeId superseded) a' = a').
Proof.
  intros Hbuf Hfresh a'. subst a'. rewrite startAll_app.
  destruct (startAll_keeps offsets a Hbuf Hfresh) as (Hb1 & Hf1 & Hle1).
  set (a1 := startAll a offsets) in *.
  cbn [startAll fold_left].
  destruct (startPlayback_source (state a1) o a1 Hb1) as (Hsrc & Hn & _).
  set (a' := startPlayback (state a1) o a1) in *.
  assert (Hother : forall k, k <> nodesCreated a1 -> onended k a' = a').
  { intros k Hk. unfold onended. rewrite Hsrc. cbn [nodeId].
    destruct (Nat.eqb_spec (nodesCreated a1) k); [congruence|reflexivity]. }
  exists (mkSource (nodesCreated a1) (playbackSpeed (config (state a1)))).
  split; [exact Hsrc|]. cbn [nodeId].
  unfold onended at 1 2. rewrite Hsrc. cbn [nodeId]. rewrite Nat.eqb_refl.
  split; [reflexivity|]. split; [reflexivity|]. split; [exact Hother|].
  intros pre post superseded Hsplit Hpost Hsup.
  assert (Hlt : (nodeId superseded < nodesCreated a1)%nat).
  { destruct (exists_last Hpost) as (post' & o' & ->).
    rewrite app_assoc in Hsplit. apply app_inj_tail in Hsplit as [Hoff _].
    destruct (startAll_keeps pre a Hbuf Hfresh) as (Hb0 & Hf0 & _).
    destruct (startAll_keeps post' (startAll a pre) Hb0 Hf0) as (_ & _ & Hle).
    unfold a1. rewrite Hoff, startAll_app.
    specialize (Hf0 superseded Hsup). lia. }
  split; [exact Hlt|]. apply Hother. lia.
Qed.

(** Two starts: node 0 is superseded, node 1 is active. *)
Lemma stale_completion_ignored_witness :
  let a := setAudioBufferRef (Some specBuffer) initialApp in
  let a' := startAll a [0%Q; 1%Q] in
  audioBufferRef (refs a) <> None /\ fresh a
  /\ onended 0 a' = a'
  /\ isPlaying (state (onended 1 a')) = false.
Proof.
  assert (Hbuf : audioBufferRef (refs (setAudioBufferRef (Some specBuffer) initialApp)) <> None)
    by discriminate.
  assert (Hfresh : fresh (setAudioBufferRef (Some specBuffer) initialApp))
    by (intros src Hs; discriminate Hs).
  destruct (stale_completion_ignored _ [0%Q] 1%Q Hbuf Hfresh)
    as (active & Hact & Hstop & _ & Hother & _).
  cbv zeta. split; [exact Hbuf|]. split; [exact Hfresh|].
  assert (Hid : nodeId active = 1%nat).
  { vm_compute in Hact. injection Hact as <-. reflexivity. }
  rewrite Hid in *. split; [apply Hother; discriminate|exact Hstop].
Defined.

Section Fingerprints.

(** The buffer together with its two fingerprints. *)
Let cache (a : App) : option AudioBuffer * JSString * option VoiceName :=
  (audioBufferRef (refs a), lastGeneratedTextRef (refs a), lastGeneratedVoiceRef (refs a)).

Lemma stopAudio_cache (r : State) (reset : bool) (a : App) :
  cache (stopAudio r reset a) = cache a.
Proof. unfold stopAudio. destruct (sourceRef (refs a)), reset; reflexivity. Qed.

Lemma startPlayback_cache (r : State) (offset : Q) (a : App) :
  cache (startPlayback r offset a) = cache a.
Proof.
  unfold startPlayback. destruct (audioBufferRef (refs a)) eqn:Hb; [|reflexivity].
  rewrite <- (stopAudio_cache r false a). reflexivity.
Qed.

(** The play path keeps the buffer and the fingerprints when synthesis
    returns no buffer. *)
Lemma playAudio_failure_keeps_cache (r : State) (service : Service) (a : App) :
  service (text r) (voiceName (config r)) = None ->
  audioBufferRef (refs (playAudio r service a)) = audioBufferRef (refs a)
  /\ lastGeneratedTextRef (refs (playAudio r service a)) = lastGeneratedTextRef (refs a)
  /\ lastGeneratedVoiceRef (refs (playAudio r service a)) = lastGeneratedVoiceRef (refs a).
Proof.
  intros Hfail.
  enough (H : cache (playAudio r service a) = cache a)
    by (unfold cache in H; injection H; auto).
  unfold playAudio.
  destruct (negb (truthy (trim (text r)))); [reflexivity|].
  destruct (isPlaying r); [apply stopAudio_cache|].
  destruct (bool_decide (text r ≠ lastGeneratedTextRef (refs a))
            || bool_decide (Some (voiceName (config r)) ≠ lastGeneratedVoiceRef (refs a))
            || bool_decide (audioBufferRef (refs a) = None)).
  - unfold callGenerateSpeech. rewrite Hfail. reflexivity.
  - apply startPlayback_cache.
Qed.

(** The export path, on the same failure, drops the buffer and records
    the text and voice of the failed request. *)
Lemma handleExport_failure_clears (r : State) (format : ExportFormat) (now : N)
  (service : Service) (a : App) :
  text r <> lastGeneratedTextRef (refs a) \/ audioBufferRef (refs a) = None ->
  service (text r) (voiceName (config r)) = None ->
  cache (handleExport r format now service a)
  = (None, text r, Some (voiceName (config r))).
Proof.
  intros Hneed Hfail. unfold handleExport.
  assert (Hgo : bool_decide (text r ≠ lastGeneratedTextRef (refs a))
                || bool_decide (audioBufferRef (refs a) = None) = true).
  { destruct Hneed as [H|H]; [apply orb_true_intro; left|apply orb_true_intro; right];
      apply bool_decide_eq_true; exact H. }
  rewrite Hgo. unfold callGenerateSpeech. rewrite Hfail. reflexivity.
Qed.

End Fingerprints.

(** C1: an export whose synthesis request returns no buffer does not leave
    the session as it was.  Here "Hello" was synthesized and "Hello world"
    is exported while the service is unavailable: the buffer held before
    is dropped and the fingerprints are overwritten with the text and voice
    of the failed request, although the play path, on the same failure,
    leaves all refs untouched. *)
Theorem handleExport_failure_overwrites :
  let before := editedAfterSynthesis in
  let after := step before (ExportClicked wav 0 noService) in
  (audioBufferRef (refs before) = Some specBuffer
   /\ lastGeneratedTextRef (refs before) = lit "Hello"
   /\ lastGeneratedVoiceRef (refs before) = Some Kore)
  /\ (audioBufferRef (refs after) = None
      /\ lastGeneratedTextRef (refs after) = lit "Hello world"
      /\ lastGeneratedVoiceRef (refs after) = Some Kore)
  /\ refs (step before (PlayClicked noService)) = refs before.
Proof. vm_compute. repeat split. Qed.

(** A change of speed replaces the speed (and the rate of the active source
    node) and nothing else: no offset is snapshotted, and
    [playbackStartedAtRef], [playbackOffsetAtStartRef], the buffer and the
    playing flag are as before, so that the position reported afterwards
    scales the whole time elapsed since the segment began by the new
    speed. *)
Lemma speed_change_keeps_anchor (a : App) (newVal : Q) :
  let a' := step a (SpeedChanged newVal) in
  playbackStartedAtRef (refs a') = playbackStartedAtRef (refs a)
  /\ playbackOffsetAtStartRef (refs a') = playbackOffsetAtStartRef (refs a)
  /\ audioContextRef (refs a') = audioContextRef (refs a)
  /\ audioBufferRef (refs a') = audioBufferRef (refs a)
  /\ isPlaying (state a') = isPlaying (state a)
  /\ playbackPosition (state a') = playbackPosition (state a)
  /\ playbackSpeed (config (state a')) = newVal
  /\ getCurrentOffset (state a') a'
     = match audioContextRef (refs a) with
       | Some ctx =>
           if negb (isPlaying (state a)) then playbackPosition (state a)
           else Qmin (playbackOffsetAtStartRef (refs a)
                      + (currentTime ctx - playbackStartedAtRef (refs a)) * newVal)%Q
                     (match audioBufferRef (refs a) with
                      | Some buffer => duration buffer
                      | None => 0%Q
                      end)
       | None => playbackPosition (state a)
       end.
Proof.
  cbv zeta. unfold step, changePlaybackSpeed, getCurrentOffset.
  destruct a as [st rf n calls dl]. destruct rf as [t0 o0 lt lv ctx src buf].
  destruct src; simpl; repeat split; reflexivity.
Qed.

(** C2: the code changes the speed of the playing source at once but does
    not re-anchor, so the reported position jumps.  With "Hello world"
    playing for 1/24000 s at speed 1, moving the speed slider to 2 sets the
    rate of the active source node to 2 and leaves [playbackStartedAtRef] at
    0 (the device clock reads 1/24000) and [playbackOffsetAtStartRef] at 0:
    the reported position goes from 1/24000 s to 2/24000 s although no time
    has passed, which is more than the elapsed time (none) times the larger
    speed.  A pause then stores 2/24000 s and the next play starts the
    source there.  Moving the slider to 1/2 instead makes the reported
    position go back to 1/48000 s. *)
Theorem speed_change_jumps :
  let faster := step playingApp (SpeedChanged 2) in
  let slower := step playingApp (SpeedChanged (1 # 2)) in
  let paused := step faster (PlayClicked noService) in
  let resumed := step paused (PlayClicked noService) in
  (getCurrentOffset (state playingApp) playingApp == 1 # 24000)%Q
  /\ (deviceClockNow faster == 1 # 24000)%Q
  /\ sourceRef (refs faster) = Some (mkSource 0 2)
  /\ (playbackStartedAtRef (refs faster) == 0)%Q
  /\ (playbackOffsetAtStartRef (refs faster) == 0)%Q
  /\ (getCurrentOffset (state faster) faster == 2 # 24000)%Q
  /\ ~ (getCurrentOffset (state faster) faster
        <= getCurrentOffset (state playingApp) playingApp + 0 * Qmax 1 2)%Q
  /\ (getCurrentOffset (state slower) slower
      < getCurrentOffset (state playingApp) playingApp)%Q
  /\ (playbackPosition (state paused) == 2 # 24000)%Q
  /\ (playbackOffsetAtStartRef (refs resumed) == 2 # 24000)%Q.
Proof.
  cbv zeta.
  split; [vm_compute; reflexivity|].
  split; [vm_compute; reflexivity|].
  split; [vm_compute; reflexivity|].
  split; [vm_compute; reflexivity|].
  split; [vm_compute; reflexivity|].
  split; [vm_compute; reflexivity|].
  split; [intros H; vm_compute in H; apply H; reflexivity|].
  split; [vm_compute; reflexivity|].
  split; vm_compute; reflexivity.
Qed.

Section Gate.

Lemma stopAudio_calls (r : State) (reset : bool) (a : App) :
  synthesisCalls (stopAudio r reset a) = synthesisCalls a.
Proof. unfold stopAudio. destruct (sourceRef (refs a)), reset; reflexivity. Qed.

Lemma startPlayback_calls (r : State) (offset : Q) (a : App) :
  synthesisCalls (startPlayback r offset a) = synthesisCalls a.
Proof.
  unfold startPlayback. destruct (audioBufferRef (refs a)); [|reflexivity].
  rewrite <- (stopAudio_calls r false a). reflexivity.
Qed.

Lemma stopAudio_text_config (r : State) (reset : bool) (a : App) :
  text (state (stopAudio r reset a)) = text (state a)
  /\ config (state (stopAudio r reset a)) = config (state a).
Proof. unfold stopAudio. destruct (sourceRef (refs a)), reset; split; reflexivity. Qed.

Lemma startPlayback_text_config (r : State) (offset : Q) (a : App) :
  text (state (startPlayback r offset a)) = text (state a)
  /\ config (state (startPlayback r offset a)) = config (state a).
Proof.
  unfold startPlayback. destruct (audioBufferRef (refs a)); [|split; reflexivity].
  destruct (stopAudio_text_config r false a) as [Ht Hc].
  split; [rewrite <- Ht|rewrite <- Hc]; reflexivity.
Qed.

Lemma startPlayback_cached (r : State) (offset : Q) (a : App) :
  cached a -> cached (startPlayback r offset a).
Proof.
  unfold cached.
  destruct (startPlayback_text_config r offset a) as [-> ->].
  pose proof (startPlayback_cache r offset a) as H. injection H as -> -> ->. auto.
Qed.

(** A request adds no call, or adds the call for the current text and
    voice; it does the latter only when the cache does not answer, and the
    cache answers afterwards if the service returned a buffer. *)
Lemma request_call (a : App) (q : Request) (service : Service) :
  let t := text (state a) in
  let v := voiceName (config (state a)) in
  let a' := step a (requestEvent q service) in
  synthesisCalls a' = synthesisCalls a
  \/ (synthesisCalls a' = (t, v) :: synthesisCalls a
      /\ (t <> lastGeneratedTextRef (refs a)
          \/ Some v <> lastGeneratedVoiceRef (refs a)
          \/ audioBufferRef (refs a) = None)
      /\ (service t v <> None -> cached a')).
Proof.
  cbv zeta. destruct q as [|format now]; unfold requestEvent, step.
  - (* play *)
    unfold playAudio.
    destruct (negb (truthy (trim (text (state a))))); [left; reflexivity|].
    destruct (isPlaying (state a)); [left; apply stopAudio_calls|].
    destruct (bool_decide (text (state a) ≠ lastGeneratedTextRef (refs a))
              || bool_decide (Some (voiceName (config (state a)))
                              ≠ lastGeneratedVoiceRef (refs a))
              || bool_decide (audioBufferRef (refs a) = None)) eqn:Hneed;
      [|left; apply startPlayback_calls].
    right.
    assert (Hwhy : text (state a) <> lastGeneratedTextRef (refs a)
                   \/ Some (voiceName (config (state a))) <> lastGeneratedVoiceRef (refs a)
                   \/ audioBufferRef (refs a) = None).
    { apply orb_prop in Hneed as [Hneed|Hneed];
        [apply orb_prop in Hneed as [Hneed|Hneed]|];
        apply bool_decide_eq_true in Hneed; auto. }
    unfold callGenerateSpeech.
    destruct (service (text (state a)) (voiceName (config (state a)))) as [b|].
    + rewrite startPlayback_calls. split; [reflexivity|]. split; [exact Hwhy|].
      intros _. apply startPlayback_cached. unfold cached; simpl.
      repeat split; discriminate.
    + split; [reflexivity|]. split; [exact Hwhy|]. intros H; contradiction.
  - (* export *)
    unfold handleExport.
    destruct (bool_decide (text (state a) ≠ lastGeneratedTextRef (refs a))
              || bool_decide (audioBufferRef (refs a) = None)) eqn:Hneed.
    + right.
      assert (Hwhy : text (state a) <> lastGeneratedTextRef (refs a)
                     \/ Some (voiceName (config (state a))) <> lastGeneratedVoiceRef (refs a)
                     \/ audioBufferRef (refs a) = None).
      { apply orb_prop in Hneed as [Hneed|Hneed];
          apply bool_decide_eq_true in Hneed; auto. }
      unfold callGenerateSpeech.
      destruct (service (text (state a)) (voiceName (config (state a)))) as [b|].
      * rewrite audioBufferToWav_bytes. split; [reflexivity|]. split; [exact Hwhy|].
        intros _. unfold cached; simpl. repeat split; discriminate.
      * split; [reflexivity|]. split; [exact Hwhy|]. intros H; contradiction.
    + left. destruct (audioBufferRef (refs a)); [|reflexivity].
      rewrite audioBufferToWav_bytes. reflexivity.
Qed.

Lemma cached_no_call (a : App) (q : Request) (service : Service) :
  cached a -> synthesisCalls (step a (requestEvent q service)) = synthesisCalls a.
Proof.
  intros (Hbuf & Ht & Hv).
  destruct (request_call a q service) as [H|(_ & [H|[H|H]] & _)]; [exact H| | |];
    exfalso; [apply H; symmetry; exact Ht|apply H; symmetry; exact Hv|contradiction].
Qed.

End Gate.

Section Await.








End Await.




Section Transport.

Local Open Scope Q_scope.

Lemma duration_nonneg (buffer : AudioBuffer) : 0 <= duration buffer.
Proof. unfold duration, Qle. simpl. lia. Qed.

Lemma clamp_range (x d : Q) : 0 <= d -> 0 <= Qmax 0 (Qmin x d) <= d.
Proof.
  intros Hd. split; [apply Q.le_max_l|].
  apply Q.max_lub; [exact Hd|apply Q.le_min_r].
Qed.

Lemma elapsed_range (off t0 now speed d : Q) :
  0 <= off -> t0 <= now -> 0 <= speed -> 0 <= d ->
  0 <= Qmin (off + (now - t0) * speed) d <= d.
Proof.
  intros Hoff Ht Hs Hd. split; [|apply Q.le_min_r].
  apply Q.min_glb; [|exact Hd].
  assert (0 <= (now - t0) * speed) by (apply Qmult_le_0_compat; [lra|exact Hs]).
  lra.
Qed.

(** The position [getCurrentOffset] reports for a render [r] whose state
    satisfies the transport invariant together with the refs of [a]. *)
Lemma getCurrentOffset_range (r : State) (a : App) :
  0 <= playbackSpeed (config r) ->
  0 <= playbackOffsetAtStartRef (refs a) ->
  0 <= playbackPosition r ->
  (isPlaying r = true ->
   forall ctx, audioContextRef (refs a) = Some ctx ->
               playbackStartedAtRef (refs a) <= currentTime ctx) ->
  0 <= getCurrentOffset r a
  /\ forall buffer,
       audioBufferRef (refs a) = Some buffer ->
       (isPlaying r = false -> playbackPosition r <= duration buffer) ->
       (isPlaying r = true -> audioContextRef (refs a) <> None) ->
       getCurrentOffset r a <= duration buffer.
Proof.
  intros Hs Hoff Hpos Hclock. unfold getCurrentOffset.
  destruct (audioContextRef (refs a)) as [ctx|] eqn:Hctx.
  - destruct (isPlaying r) eqn:Hplay; simpl.
    + specialize (Hclock eq_refl ctx eq_refl).
      split.
      * apply elapsed_range; auto.
        destruct (audioBufferRef (refs a)); [apply duration_nonneg|lra].
      * intros b -> _ _. apply Q.le_min_r.
    + split; [exact Hpos|]. intros b _ H _. apply H. reflexivity.
  - split; [exact Hpos|]. intros b _ Hstop Hctx'.
    destruct (isPlaying r); [exfalso; apply Hctx'; reflexivity|apply Hstop; reflexivity].
Qed.

(** What a snapshot [r] needs for the transport arithmetic on the refs of
    [a] to make sense. *)
Let snapshotOk (r : State) (a : App) : Prop :=
  0 <= playbackSpeed (config r)
  /\ 0 <= playbackOffsetAtStartRef (refs a)
  /\ 0 <= playbackPosition r
  /\ (isPlaying r = true ->
      forall ctx, audioContextRef (refs a) = Some ctx ->
                  playbackStartedAtRef (refs a) <= currentTime ctx).

Lemma transportInv_snapshotOk (a : App) : transportInv a -> snapshotOk (state a) a.
Proof.
  intros (Hs & Ho & Hp & Hplay & _). repeat split; auto.
  intros H ctx Hctx. destruct (Hplay H) as (_ & ctx' & Hctx' & Hle). congruence.
Qed.

Lemma stopAudio_inv (a : App) (reset : bool) :
  transportInv a -> transportInv (stopAudio (state a) reset a).
Proof.
  intros Hinv. pose proof (transportInv_snapshotOk a Hinv) as (Hs & Ho & Hp & Hclock).
  destruct (getCurrentOffset_range (state a) a Hs Ho Hp Hclock) as [Hge Hle].
  destruct Hinv as (_ & _ & _ & Hplay & Hstop).
  unfold stopAudio, transportInv.
  destruct (sourceRef (refs a)) as [src|] eqn:Hsrc; destruct reset; simpl;
    (split; [exact Hs|]); (split; [exact Ho|]).
  - split; [lra|]. split; [discriminate|]. intros _ b _. apply duration_nonneg.
  - split; [exact Hge|]. split; [discriminate|].
    intros _ b Hb. apply Hle; [exact Hb|intros H; apply Hstop; auto|].
    intros H. destruct (Hplay H) as (_ & ctx & -> & _). discriminate.
  - split; [lra|]. split; [discriminate|]. intros _ b _. apply duration_nonneg.
  - split; [exact Hp|]. split; [discriminate|].
    intros _ b Hb. apply Hstop; [|exact Hb].
    destruct (isPlaying (state a)); [|reflexivity].
    destruct (Hplay eq_refl) as (Hne & _). contradiction.
Qed.

(** Starting playback from a snapshot that is in order establishes the
    invariant, whatever buffer is held. *)
Lemma startPlayback_inv (r : State) (offset : Q) (a : App) :
  audioBufferRef (refs a) <> None ->
  snapshotOk r a ->
  0 <= playbackSpeed (config (state a)) -> 0 <= playbackPosition (state a) ->
  transportInv (startPlayback r offset a).
Proof.
  intros Hbuf (Hs & Ho & Hp & Hclock) Hs' Hp'.
  destruct (getCurrentOffset_range r a Hs Ho Hp Hclock) as [Hge _].
  unfold startPlayback.
  destruct (audioBufferRef (refs a)) as [b|] eqn:Hb; [|contradiction].
  pose proof (clamp_range offset (duration b) (duration_nonneg b)) as [Hc _].
  unfold stopAudio, transportInv.
  destruct (sourceRef (refs a)) as [src|]; simpl;
    (split; [exact Hs'|]); (split; [exact Hc|]).
  - split; [exact Hge|]. split; [|discriminate].
    intros _. split; [discriminate|]. eexists. split; [reflexivity|apply Qle_refl].
  - split; [exact Hp'|]. split; [|discriminate].
    intros _. split; [discriminate|]. eexists. split; [reflexivity|apply Qle_refl].
Qed.

Lemma playAudio_inv (a : App) (service : Service) :
  transportInv a -> transportInv (playAudio (state a) service a).
Proof.
  intros Hinv. pose proof (transportInv_snapshotOk a Hinv) as Hsnap.
  pose proof Hinv as (Hs & Ho & Hp & Hplay & Hstop).
  unfold playAudio.
  destruct (negb (truthy (trim (text (state a))))); [exact Hinv|].
  destruct (isPlaying (state a)) eqn:Hplaying; [apply stopAudio_inv, Hinv|].
  destruct (bool_decide (text (state a) ≠ lastGeneratedTextRef (refs a))
            || bool_decide (Some (voiceName (config (state a)))
                            ≠ lastGeneratedVoiceRef (refs a))
            || bool_decide (audioBufferRef (refs a) = None)) eqn:Hneed.
  - unfold callGenerateSpeech.
    destruct (service (text (state a)) (voiceName (config (state a)))) as [b|].
    + apply startPlayback_inv; [discriminate|exact Hsnap|exact Hs|exact Hp].
    + unfold transportInv; simpl. rewrite Hplaying. auto.
  - destruct (audioBufferRef (refs a)) as [b|] eqn:Hb.
    + apply startPlayback_inv; [rewrite Hb; discriminate|exact Hsnap|exact Hs|exact Hp].
    + unfold startPlayback. rewrite Hb. exact Hinv.
Qed.

Lemma handleSkip_inv (a : App) (seconds : Q) :
  transportInv a -> transportInv (handleSkip (state a) seconds a).
Proof.
  intros Hinv. pose proof (transportInv_snapshotOk a Hinv) as Hsnap.
  pose proof Hinv as (Hs & Ho & Hp & Hplay & Hstop).
  unfold handleSkip.
  destruct (audioBufferRef (refs a)) as [b|] eqn:Hb; [|exact Hinv].
  pose proof (clamp_range (getCurrentOffset (state a) a + seconds) (duration b)
                (duration_nonneg b)) as [Hc0 Hc1].
  destruct (isPlaying (state a)) eqn:Hplaying.
  - apply startPlayback_inv; [simpl; rewrite Hb; discriminate|exact Hsnap|exact Hs|exact Hc0].
  - unfold transportInv; simpl. rewrite Hplaying, Hb.
    repeat split; auto; try discriminate. intros _ b' [= <-]. exact Hc1.
Qed.

Lemma handleExport_inv (a : App) (format : ExportFormat) (now : N) (service : Service) :
  transportInv a -> covered a (ExportClicked format now service) ->
  transportInv (handleExport (state a) format now service a).
Proof.
  intros (Hs & Ho & Hp & Hplay & Hstop) Hcov. unfold handleExport.
  destruct (bool_decide (text (state a) ≠ lastGeneratedTextRef (refs a))
            || bool_decide (audioBufferRef (refs a) = None)) eqn:Hneed.
  - assert (Hnew : isPlaying (state a) = false ->
                   forall b, service (text (state a)) (voiceName (config (state a))) = Some b ->
                             playbackPosition (state a) <= duration b).
    { intros Hstopped b Hb. destruct Hcov as [Hc|[[Ht Hbuf]|Hc]].
      - congruence.
      - apply orb_prop in Hneed as [Hneed|Hneed]; apply bool_decide_eq_true in Hneed;
          [exfalso; apply Hneed; exact Ht|contradiction].
      - rewrite Hb in Hc. exact Hc. }
    unfold callGenerateSpeech.
    destruct (service (text (state a)) (voiceName (config (state a)))) as [b|].
    + rewrite audioBufferToWav_bytes. unfold transportInv; simpl.
      repeat split; auto; try (apply Hplay; assumption);
        try (intros Hstopped b' [= <-]; apply Hnew; auto).
    + unfold transportInv; simpl.
      repeat split; auto; try (apply Hplay; assumption);
        try (intros _ b' Hb'; discriminate Hb').
  - destruct (audioBufferRef (refs a)) as [b|] eqn:Hb;
      [rewrite audioBufferToWav_bytes|]; unfold transportInv; simpl; rewrite ?Hb;
      repeat split; auto; try (apply Hplay; assumption).
Qed.

(** Every covered event keeps the transport invariant. *)
Lemma step_inv (a : App) (ev : Event) :
  transportInv a -> covered a ev -> transportInv (step a ev).
Proof.
  intros Hinv Hcov. pose proof Hinv as (Hs & Ho & Hp & Hplay & Hstop).
  destruct ev as [service| |seconds|format now service|newVal|v|t| | |node|dt]; unfold step.
  - apply playAudio_inv, Hinv.
  - apply stopAudio_inv, Hinv.
  - apply handleSkip_inv, Hinv.
  - apply handleExport_inv; assumption.
  - simpl in Hcov. unfold changePlaybackSpeed, transportInv in *.
    destruct a as [st rf n calls dl]; simpl in *.
    destruct (sourceRef rf) as [src|] eqn:Hsrc; simpl; rewrite ?Hsrc;
      (split; [exact Hcov|]); (split; [exact Ho|]); (split; [exact Hp|]);
      (split; [|exact Hstop]); intros Hplaying;
      destruct (Hplay Hplaying) as (Hne & ctx & Hctx & Hle);
      (split; [try discriminate; try exact Hne|exists ctx; auto]).
  - unfold changeVoice, transportInv; simpl. repeat split; auto; apply Hplay; assumption.
  - unfold transportInv; simpl. repeat split; auto; apply Hplay; assumption.
  - unfold newFile.
    assert (Hinv' : transportInv (setText [] a)).
    { unfold transportInv; simpl. repeat split; auto; apply Hplay; assumption. }
    apply (stopAudio_inv (setText [] a) true Hinv').
  - unfold update. destruct (isPlaying (state a)) eqn:Hplaying; [|exact Hinv].
    pose proof (transportInv_snapshotOk a Hinv) as (Hs' & Ho' & Hp' & Hclock).
    destruct (getCurrentOffset_range (state a) a Hs' Ho' Hp' Hclock) as [Hge _].
    unfold transportInv; simpl. rewrite Hplaying.
    repeat split; auto; try (apply Hplay; assumption). discriminate.
  - unfold onended. destruct (sourceRef (refs a)) as [src|] eqn:Hsrc; [|exact Hinv].
    destruct (nodeId src =? node)%nat; [|exact Hinv].
    unfold transportInv; simpl. repeat split; auto; try discriminate; try lra.
    intros _ b _. apply duration_nonneg.
  - simpl in Hcov. unfold advanceClock, transportInv in *.
    destruct a as [st rf n calls dl]; simpl in *.
    destruct (audioContextRef rf) as [ctx|] eqn:Hctx; simpl; rewrite ?Hctx;
      (split; [exact Hs|]); (split; [exact Ho|]); (split; [exact Hp|]);
      (split; [|exact Hstop]); intros Hplaying;
      destruct (Hplay Hplaying) as (Hne & ctx' & Hctx' & Hle);
      (split; [exact Hne|]); [|discriminate Hctx'].
    injection Hctx' as <-.
    exists (mkAudioContext (currentTime ctx + dt)). split; [reflexivity|]. simpl. lra.
Qed.

Lemma initialApp_inv : transportInv initialApp.
Proof.
  unfold transportInv; simpl. repeat split; try discriminate; try lra.
Qed.

Lemma run_inv (evs : list Event) :
  forall a, transportInv a -> coveredRun a evs -> transportInv (run a evs).
Proof.
  induction evs as [|ev evs IH]; intros a Hinv Hcov; [exact Hinv|].
  destruct Hcov as [Hev Hrest]. apply IH; [apply step_inv; assumption|exact Hrest].
Qed.

End Transport.

(** C6: an export can leave the reported position beyond the buffer.
    Every transport path keeps the position inside the buffer it plays, but
    [handleExport] replaces [audioBufferRef] without touching the stored
    position.  After "Hello world" was played and paused at 3/24000 s, the
    text edited to "Hello" and exported, the session holds the one-frame
    buffer the service returned (1/24000 s long) and still reports
    3/24000 s, which is outside [0, duration]. *)
Theorem export_leaves_position_beyond_buffer :
  let a := exportedWhilePaused in
  audioBufferRef (refs a) = Some oneFrame
  /\ isPlaying (state a) = false
  /\ (getCurrentOffset (state a) a == 3 # 24000)%Q
  /\ (duration oneFrame == 1 # 24000)%Q
  /\ ~ (0 <= getCurrentOffset (state a) a <= duration oneFrame)%Q.
Proof.
  cbv zeta.
  split; [vm_compute; reflexivity|].
  split; [vm_compute; reflexivity|].
  split; [vm_compute; reflexivity|].
  split; [vm_compute; reflexivity|].
  intros [_ H]. vm_compute in H. apply H. reflexivity.
Qed.

(** Apart from such an export, the position stays within the buffer: in
    every session reached from the initial one by whole handlers with
    non-negative speeds and clock steps, among which no export replaces the
    buffer, while playback is stopped, by one that ends before the stored
    position, the reported position is within [0, duration].
    [getCurrentOffset] returns the stored position when not playing and
    [min (offsetAtStart + (deviceClockNow - clockAtStart) * speedMultiplier,
    bufferDuration)] when playing, [startPlayback] clamps its offset
    argument to [0, duration], and [handleSkip] clamps the current offset
    plus the delta to [0, duration]. *)
Lemma position_within_buffer :
  (forall evs : list Event,
     coveredRun initialApp evs ->
     let a := run initialApp evs in
     forall buffer, audioBufferRef (refs a) = Some buffer ->
                    (0 <= getCurrentOffset (state a) a <= duration buffer)%Q)
  /\ (forall (r : State) (a : App),
        isPlaying r = false -> getCurrentOffset r a = playbackPosition r)
  /\ (forall (r : State) (a : App) (ctx : AudioContext) (buffer : AudioBuffer),
        isPlaying r = true -> audioContextRef (refs a) = Some ctx ->
        audioBufferRef (refs a) = Some buffer ->
        getCurrentOffset r a
        = Qmin (playbackOffsetAtStartRef (refs a)
                + (currentTime ctx - playbackStartedAtRef (refs a))
                  * playbackSpeed (config r))%Q
               (duration buffer))
  /\ (forall (r : State) (offset : Q) (a : App) (buffer : AudioBuffer),
        audioBufferRef (refs a) = Some buffer ->
        let started := startPlayback r offset a in
        playbackOffsetAtStartRef (refs started) = Qmax 0 (Qmin offset (duration buffer))
        /\ isPlaying (state started) = true
        /\ (0 <= playbackOffsetAtStartRef (refs started) <= duration buffer)%Q)
  /\ (forall (r : State) (seconds : Q) (a : App) (buffer : AudioBuffer),
        audioBufferRef (refs a) = Some buffer ->
        let newPos := Qmax 0 (Qmin (getCurrentOffset r a + seconds)%Q (duration buffer)) in
        let skipped := handleSkip r seconds a in
        (0 <= newPos <= duration buffer)%Q
        /\ (isPlaying r = false -> playbackPosition (state skipped) = newPos)
        /\ (isPlaying r = true ->
            playbackOffsetAtStartRef (refs skipped) = Qmax 0 (Qmin newPos (duration buffer)))).
Proof.
  split; [|split; [|split; [|split]]].
  - intros evs Hcov a buffer Hb. subst a.
    pose proof (run_inv evs initialApp initialApp_inv Hcov) as Hinv.
    set (a := run initialApp evs) in *.
    pose proof Hinv as (Hs & Ho & Hp & Hplay & Hstop).
    assert (Hclock : isPlaying (state a) = true ->
                     forall ctx, audioContextRef (refs a) = Some ctx ->
                                 (playbackStartedAtRef (refs a) <= currentTime ctx)%Q).
    { intros H ctx Hctx. destruct (Hplay H) as (_ & ctx' & Hctx' & Hle). congruence. }
    destruct (getCurrentOffset_range (state a) a Hs Ho Hp Hclock) as [Hge Hle].
    split; [exact Hge|]. apply Hle; [exact Hb|intros H; apply Hstop; auto|].
    intros H. destruct (Hplay H) as (_ & ctx & -> & _). discriminate.
  - intros r a Hstopped. unfold getCurrentOffset. rewrite Hstopped.
    destruct (audioContextRef (refs a)); reflexivity.
  - intros r a ctx buffer Hplaying Hctx Hb. unfold getCurrentOffset.
    rewrite Hctx, Hplaying, Hb. reflexivity.
  - intros r offset a buffer Hb. cbv zeta. unfold startPlayback. rewrite Hb.
    unfold stopAudio. destruct (sourceRef (refs a)); simpl;
      (split; [reflexivity|]); (split; [reflexivity|]);
      apply clamp_range, duration_nonneg.
  - intros r seconds a buffer Hb. cbv zeta.
    split; [apply clamp_range, duration_nonneg|].
    unfold handleSkip. rewrite Hb. split; intros Hplaying; rewrite Hplaying.
    + reflexivity.
    + unfold startPlayback; simpl. rewrite Hb.
      unfold stopAudio; simpl. destruct (sourceRef (refs a)); reflexivity.
Qed.

(** A run through play, speed change, skip, export and pause. *)
Lemma position_within_buffer_witness :
  let evs := [TextChanged (lit "Hello world"); PlayClicked (speaks specBuffer);
              ClockAdvanced (3 # 24000); SpeedChanged 2; SkipClicked 10;
              ExportClicked mp3 0 noService; PlayClicked noService] in
  coveredRun initialApp evs
  /\ (0 <= getCurrentOffset (state (run initialApp evs)) (run initialApp evs)
      <= duration specBuffer)%Q.
Proof.
  cbv zeta.
  assert (Hcov : coveredRun initialApp
                   [TextChanged (lit "Hello world"); PlayClicked (speaks specBuffer);
                    ClockAdvanced (3 # 24000); SpeedChanged 2; SkipClicked 10;
                    ExportClicked mp3 0 noService; PlayClicked noService]).
  { vm_compute. repeat split; try discriminate. left. reflexivity. }
  split; [exact Hcov|].
  apply (proj1 position_within_buffer _ Hcov). vm_compute. reflexivity.
Defined.

(** * Further properties of the component *)

Section WordCount.

Local Open Scope nat_scope.

(** The pieces [split] returns, counted by the words and by where the scan
    starts and ends. *)
Lemma length_splitGo (s : JSString) :
  forall (inGap : bool) (piece : JSString),
    length (splitGo inGap piece s) + (if inGap then 1 else 0)
    = wordStarts inGap s + 1 + (if endsInGap inGap s then 1 else 0).
Proof.
  induction s as [|c s IH]; intros inGap piece; cbn [splitGo wordStarts endsInGap].
  - destruct inGap; reflexivity.
  - destruct (isWhiteSpace c) eqn:Hc.
    + destruct inGap.
      * apply IH.
      * cbn [length]. specialize (IH true []).
        destruct (endsInGap true s); lia.
    + specialize (IH false (c :: piece)).
      destruct (endsInGap false s), inGap; lia.
Qed.

Lemma trimStart_split (s : JSString) :
  exists w, s = w ++ trimStart s /\ forallb isWhiteSpace w = true.
Proof.
  induction s as [|c s (w & Hs & Hw)]; [exists []; split; reflexivity|].
  cbn [trimStart]. destruct (isWhiteSpace c) eqn:Hc.
  - exists (c :: w). split; [cbn [app]; congruence|]. cbn [forallb]. now rewrite Hc, Hw.
  - exists []. split; reflexivity.
Qed.

Lemma trimEnd_split (s : JSString) :
  exists w, s = trimEnd s ++ w /\ forallb isWhiteSpace w = true.
Proof.
  destruct (trimStart_split (rev s)) as (w & Hs & Hw).
  exists (rev w). split; [|now rewrite forallb_rev].
  unfold trimEnd. rewrite <- rev_app_distr, <- Hs. symmetry. apply rev_involutive.
Qed.

Lemma wordStarts_leading (w s : JSString) (afterSpace : bool) :
  forallb isWhiteSpace w = true -> w <> [] \/ afterSpace = true ->
  wordStarts afterSpace (w ++ s) = wordStarts true s.
Proof.
  revert afterSpace; induction w as [|c w IH]; intros afterSpace Hw Hne.
  - destruct Hne as [Hne| ->]; [contradiction|reflexivity].
  - cbn [forallb] in Hw. apply andb_prop in Hw as [Hc Hw].
    cbn [app wordStarts]. rewrite Hc. apply IH; auto.
Qed.

Lemma wordStarts_trailing (s w : JSString) (afterSpace : bool) :
  forallb isWhiteSpace w = true ->
  wordStarts afterSpace (s ++ w) = wordStarts afterSpace s.
Proof.
  intros Hw. revert afterSpace; induction s as [|c s IH]; intros afterSpace.
  - cbn [app]. induction w as [|d w IHw] in afterSpace, Hw |- *; [reflexivity|].
    cbn [forallb] in Hw. apply andb_prop in Hw as [Hd Hw].
    cbn [wordStarts]. rewrite Hd. rewrite IHw by exact Hw. reflexivity.
  - cbn [app wordStarts]. destruct (isWhiteSpace c); rewrite IH; reflexivity.
Qed.

(** Joining two texts by a white-space character adds their words. *)
Lemma wordStarts_join (s1 s2 : JSString) (c : N) (afterSpace : bool) :
  isWhiteSpace c = true ->
  wordStarts afterSpace (s1 ++ c :: s2) = wordStarts afterSpace s1 + wordStarts true s2.
Proof.
  intros Hc. revert afterSpace; induction s1 as [|d s1 IH]; intros afterSpace.
  - cbn [app wordStarts]. now rewrite Hc.
  - cbn [app wordStarts]. destruct (isWhiteSpace d); rewrite IH; lia.
Qed.

Lemma wordStarts_trim (s : JSString) : wordStarts true (trim s) = wordStarts true s.
Proof.
  unfold trim.
  destruct (trimStart_split s) as (w & Hs & Hw).
  destruct (trimEnd_split (trimStart s)) as (w' & Hs' & Hw').
  rewrite Hs at 2. rewrite (wordStarts_leading w _ true Hw) by auto.
  rewrite Hs' at 2. now rewrite wordStarts_trailing.
Qed.

Lemma endsInGap_last (s : JSString) (c : N) (inGap : bool) :
  endsInGap inGap (s ++ [c]) = isWhiteSpace c.
Proof.
  revert inGap; induction s as [|d s IH]; intros inGap; [reflexivity|].
  cbn [app endsInGap]. apply IH.
Qed.

(** A trimmed text that is not empty begins and ends with a character that
    is not white space. *)
Lemma trim_ends (s : JSString) (c : N) (u : JSString) :
  trim s = c :: u -> isWhiteSpace c = false /\ endsInGap false (c :: u) = false.
Proof.
  intros Ht. split.
  - unfold trim in Ht.
    destruct (trimEnd_split (trimStart s)) as (w' & Hs' & _).
    rewrite Ht in Hs'. cbn [app] in Hs'.
    apply (trimStart_head s c (u ++ w')). exact Hs'.
  - rewrite <- Ht. unfold trim, trimEnd.
    destruct (trimStart (rev (trimStart s))) as [|d r] eqn:Hr.
    + unfold trim, trimEnd in Ht. rewrite Hr in Ht. discriminate Ht.
    + cbn [rev]. rewrite endsInGap_last. eapply trimStart_head. exact Hr.
Qed.

Lemma wordCount_wordStarts (t : JSString) : wordCount t = wordStarts true t.
Proof.
  rewrite <- wordStarts_trim. unfold wordCount.
  destruct (trim t) as [|c u] eqn:Ht; [reflexivity|].
  destruct (trim_ends t c u Ht) as [Hc Hend].
  pose proof (length_splitGo (c :: u) false []) as H.
  rewrite Hend in H. unfold splitWhiteSpace.
  cbn [wordStarts] in *. rewrite Hc in *. lia.
Qed.

Lemma wordStarts_le_length (s : JSString) (afterSpace : bool) :
  wordStarts afterSpace s <= length s.
Proof.
  revert afterSpace; induction s as [|c s IH]; intros afterSpace; cbn [wordStarts length];
    [lia|].
  destruct (isWhiteSpace c); [specialize (IH true)|specialize (IH false); destruct afterSpace];
    lia.
Qed.

Lemma wordStarts_zero_iff (s : JSString) :
  wordStarts true s = 0 <-> forallb isWhiteSpace s = true.
Proof.
  induction s as [|c s IH]; cbn [wordStarts forallb]; [tauto|].
  destruct (isWhiteSpace c); cbn [andb]; [exact IH|].
  split; [lia|discriminate].
Qed.

End WordCount.

(** X1: the word count shown in the footer is the number of maximal runs of
    characters that are not white space: it counts the places where such a
    character begins the text or follows white space.  It is 0 exactly for
    texts made of white space only, and never exceeds the character
    count. *)
Theorem wordCount_counts_words (t : JSString) :
  wordCount t = wordStarts true t
  /\ (wordCount t = 0%nat <-> forallb isWhiteSpace t = true)
  /\ (wordCount t <= charCount t)%nat.
Proof.
  rewrite wordCount_wordStarts. split; [reflexivity|].
  split; [apply wordStarts_zero_iff|apply wordStarts_le_length].
Qed.

(** X2: white space around a text does not change its word count, and two
    texts joined by a white-space character have the words of both. *)
Theorem wordCount_join (t1 t2 w : JSString) (c : N) :
  forallb isWhiteSpace w = true -> isWhiteSpace c = true ->
  wordCount (w ++ t1) = wordCount t1
  /\ wordCount (t1 ++ w) = wordCount t1
  /\ wordCount (t1 ++ c :: t2) = (wordCount t1 + wordCount t2)%nat.
Proof.
  intros Hw Hc. rewrite !wordCount_wordStarts.
  split; [apply wordStarts_leading; auto|].
  split; [apply wordStarts_trailing; exact Hw|apply wordStarts_join; exact Hc].
Qed.

(** Two words between blanks, then a third after a line break. *)
Lemma wordCount_join_witness :
  forallb isWhiteSpace (lit "  ") = true /\ isWhiteSpace 10 = true
  /\ wordCount (lit "Hello world" ++ 10%N :: lit "again") = 3%nat
  /\ wordCount (lit "  " ++ lit "Hello world") = 2%nat.
Proof.
  split; [reflexivity|]. split; [reflexivity|].
  destruct (wordCount_join (lit "Hello world") (lit "again") (lit "  ") 10 eq_refl eq_refl)
    as (H1 & _ & H3).
  split; [rewrite H3; reflexivity|rewrite H1; reflexivity].
Defined.

Section TimeReadout.

Lemma Qfloor_unique (x : Q) (m : Z) :
  (inject_Z m <= x)%Q -> (x < inject_Z (m + 1))%Q -> Qfloor x = m.
Proof.
  intros Hle Hlt.
  pose proof (Qfloor_le x) as H1. pose proof (Qlt_floor x) as H2.
  assert (Ha : (inject_Z (Qfloor x) < inject_Z (m + 1))%Q) by (eapply Qle_lt_trans; eauto).
  assert (Hb : (inject_Z m < inject_Z (Qfloor x + 1))%Q) by (eapply Qle_lt_trans; eauto).
  rewrite <- Zlt_Qlt in Ha, Hb. lia.
Qed.

(** Minutes and seconds of a non-negative time, as [formatTime] computes
    them, are the quotient and the remainder of its integer part by 60. *)
Lemma minutes_seconds (secs : Q) :
  (0 <= secs)%Q ->
  Qfloor (secs / 60) = Qfloor secs / 60
  /\ Qfloor (remainder secs 60) = Qfloor secs mod 60.
Proof.
  intros Hpos.
  pose proof (Qfloor_le secs) as H1. pose proof (Qlt_floor secs) as H2.
  pose proof (Z.div_mod (Qfloor secs) 60 ltac:(lia)) as Hdm.
  pose proof (Z.mod_pos_bound (Qfloor secs) 60 ltac:(lia)) as Hr.
  set (t := Qfloor secs) in *. set (q := t / 60) in *. set (r := t mod 60) in *.
  assert (Ht : (inject_Z t == 60 * inject_Z q + inject_Z r)%Q).
  { rewrite Hdm, inject_Z_plus, inject_Z_mult. reflexivity. }
  assert (Ht1 : (inject_Z (t + 1) == inject_Z t + 1)%Q) by (rewrite inject_Z_plus; reflexivity).
  assert (Hr0 : (0 <= inject_Z r)%Q) by (unfold Qle, inject_Z; simpl; lia).
  assert (Hr1 : (inject_Z r <= 59)%Q) by (unfold Qle, inject_Z; simpl; lia).
  assert (Hq : Qfloor (secs / 60) = q).
  { apply Qfloor_unique.
    - apply Qle_shift_div_l; [reflexivity|]. lra.
    - apply Qlt_shift_div_r; [reflexivity|]. rewrite inject_Z_plus.
      change (inject_Z 1) with 1%Q. lra. }
  split; [exact Hq|].
  unfold remainder, Qtruncate.
  assert (Hnn : Qle_bool 0 (secs / 60) = true).
  { apply Qle_bool_iff. apply Qle_shift_div_l; [reflexivity|]. lra. }
  rewrite Hnn, Hq. apply Qfloor_unique.
  - lra.
  - rewrite inject_Z_plus. change (inject_Z 1) with 1%Q. lra.
Qed.

Lemma toString_two_digits (n : nat) :
  (n < 60)%nat -> length (padStart 2 48%N (toString (N.of_nat n))) = 2%nat.
Proof.
  intros Hn.
  assert (Hall : forallb (fun k => (length (padStart 2 48%N (toString (N.of_nat k))) =? 2)%nat)
                   (seq 0 60) = true) by (vm_compute; reflexivity).
  rewrite forallb_forall in Hall.
  apply Nat.eqb_eq. apply Hall. apply in_seq. lia.
Qed.

End TimeReadout.

(** X3: for a time that is not negative and below 2^53, the readout is the
    minutes, a colon and the seconds, where minutes and seconds are the
    quotient and remainder by 60 of the integer part of the time (the time
    is floored, not rounded) and the seconds always take exactly two
    characters.  The bound is where the exact quotient and digits used here
    are those of the code: for a binary64 time below 2^53 the rounded
    quotient by 60 has the integer part of the exact one, [%] is exact, and
    integers of that size are printed digit by digit. *)
Theorem formatTime_floor (secs : Q) :
  (0 <= secs)%Q -> (secs < inject_Z (2 ^ 53))%Q ->
  let t := Qfloor secs in
  (inject_Z t <= secs < inject_Z (t + 1))%Q
  /\ formatTime secs
     = toString (Z.to_N (t / 60)) ++ lit ":" ++ padStart 2 48%N (toString (Z.to_N (t mod 60)))
  /\ length (padStart 2 48%N (toString (Z.to_N (t mod 60)))) = 2%nat
  /\ 0 <= t mod 60 < 60.
Proof.
  intros Hpos _ t.
  destruct (minutes_seconds secs Hpos) as [Hm Hs]. fold t in Hm, Hs.
  assert (Ht : 0 <= t).
  { unfold t. rewrite <- (Qfloor_Z 0). apply Qfloor_resp_le. exact Hpos. }
  pose proof (Z.mod_pos_bound t 60 ltac:(lia)) as Hr.
  assert (Hq : 0 <= t / 60) by (apply Z.div_pos; lia).
  split; [split; [apply Qfloor_le|apply Qlt_floor]|].
  split; [|split; [|exact Hr]].
  - unfold formatTime. cbv zeta. rewrite Hm, Hs. unfold toStringZ.
    destruct (Z.ltb_spec (t / 60) 0); [lia|].
    destruct (Z.ltb_spec (t mod 60) 0); [lia|]. reflexivity.
  - rewrite <- (Z2Nat.id (t mod 60)) by lia.
    rewrite <- nat_N_Z, N2Z.id. apply toString_two_digits. lia.
Qed.

(** 65.9 s reads 1:05 and 3599 s reads 59:59. *)
Lemma formatTime_floor_witness :
  (0 <= 659 # 10)%Q /\ (659 # 10 < inject_Z (2 ^ 53))%Q
  /\ formatTime (659 # 10) = lit "1:05"
  /\ formatTime 3599 = lit "59:59".
Proof.
  assert (H : (0 <= 659 # 10)%Q) by (unfold Qle; simpl; lia).
  assert (H' : (659 # 10 < inject_Z (2 ^ 53))%Q) by reflexivity.
  split; [exact H|]. split; [exact H'|].
  destruct (formatTime_floor (659 # 10) H H') as (_ & -> & _).
  split; vm_compute; reflexivity.
Defined.

(** X4: the theme toggle switches between light and dark, and only between
    them: from the system theme it goes to light, no toggle ever leads back
    to the system theme, dark mode flips exactly when the theme was light or
    dark, and voice, rates and pitch are never touched. *)
Theorem toggleTheme_cycle (c : TTSConfig) :
  theme (toggleTheme c) <> SYSTEM
  /\ (theme c <> SYSTEM ->
      toggleTheme (toggleTheme c) = c
      /\ isDarkMode (toggleTheme c) = negb (isDarkMode c))
  /\ (theme c = SYSTEM ->
      theme (toggleTheme c) = LIGHT /\ isDarkMode (toggleTheme c) = isDarkMode c
      /\ toggleTheme (toggleTheme c) <> c)
  /\ voiceName (toggleTheme c) = voiceName c
  /\ playbackSpeed (toggleTheme c) = playbackSpeed c
  /\ speechRate (toggleTheme c) = speechRate c
  /\ pitch (toggleTheme c) = pitch c.
Proof.
  destruct c as [v sr ps p th]. unfold toggleTheme, isDarkMode; simpl.
  split; [destruct th; discriminate|].
  split; [intros Hth; destruct th; [split; reflexivity|split; reflexivity|contradiction]|].
  split; [|repeat split].
  intros ->. split; [reflexivity|]. split; [reflexivity|]. intros H. discriminate H.
Qed.

Lemma toggleTheme_cycle_witness :
  let c := mkTTSConfig Kore 1 1 1 LIGHT in
  theme c <> SYSTEM /\ toggleTheme (toggleTheme c) = c
  /\ theme (toggleTheme (mkTTSConfig Kore 1 1 1 SYSTEM)) = LIGHT.
Proof.
  assert (H : theme (mkTTSConfig Kore 1 1 1 LIGHT) <> SYSTEM) by discriminate.
  split; [exact H|].
  split; [exact (proj1 (proj1 (proj2 (toggleTheme_cycle _)) H))|].
  exact (proj1 (proj1 (proj2 (proj2 (toggleTheme_cycle (mkTTSConfig Kore 1 1 1 SYSTEM))))
                 eq_refl)).
Defined.

(** X5: toggling a settings section changes that section only; on a section
    that is present, two toggles restore the map; a section that is absent
    is opened by the first toggle (the negation of [undefined]) and closed
    by the second, unless its name is that of a member inherited from
    [Object.prototype], which reads as true: then the first toggle stores
    false and the second true; toggles of different sections commute. *)
Theorem toggleSection_laws (section other : JSString) (prev : gmap JSString bool) :
  (section <> other -> toggleSection section prev !! other = prev !! other)
  /\ (is_Some (prev !! section) ->
      toggleSection section (toggleSection section prev) = prev)
  /\ (prev !! section = None -> section ∉ objectPrototypeKeys ->
      toggleSection section prev !! section = Some true
      /\ toggleSection section (toggleSection section prev) !! section = Some false)
  /\ (prev !! section = None -> section ∈ objectPrototypeKeys ->
      toggleSection section prev !! section = Some false
      /\ toggleSection section (toggleSection section prev) !! section = Some true)
  /\ (section <> other ->
      toggleSection section (toggleSection other prev)
      = toggleSection other (toggleSection section prev)).
Proof.
  unfold toggleSection, readSection. repeat split.
  - intros Hne. apply lookup_insert_ne. exact Hne.
  - intros [b Hb]. rewrite lookup_insert_eq, insert_insert_eq, Hb. simpl.
    rewrite negb_involutive. apply insert_id. exact Hb.
  - rewrite lookup_insert_eq, H, (bool_decide_eq_false_2 _ H0). reflexivity.
  - rewrite !lookup_insert_eq, H, (bool_decide_eq_false_2 _ H0). reflexivity.
  - rewrite lookup_insert_eq, H, (bool_decide_eq_true_2 _ H0). reflexivity.
  - rewrite !lookup_insert_eq, H, (bool_decide_eq_true_2 _ H0). reflexivity.
  - intros Hne.
    rewrite (lookup_insert_ne _ other section) by congruence.
    rewrite (lookup_insert_ne _ section other) by congruence.
    apply insert_insert_ne. congruence.
Qed.

(** The three sections of the settings dialog, one it does not have, and
    one named after an inherited member. *)
Lemma toggleSection_laws_witness :
  lit "voice" <> lit "audio" /\ is_Some (initialSections !! lit "voice")
  /\ toggleSection (lit "voice") initialSections !! lit "voice" = Some false
  /\ toggleSection (lit "voice") initialSections !! lit "audio" = Some true
  /\ toggleSection (lit "voice") (toggleSection (lit "voice") initialSections)
     = initialSections
  /\ toggleSection (lit "appearance") initialSections !! lit "appearance" = Some true
  /\ toggleSection (lit "help") initialSections !! lit "help" = Some true
  /\ toggleSection (lit "constructor") initialSections !! lit "constructor" = Some false.
Proof.
  assert (Hne : lit "voice" <> lit "audio") by discriminate.
  assert (Hin : is_Some (initialSections !! lit "voice")) by (eexists; reflexivity).
  assert (Hout : initialSections !! lit "help" = None) by reflexivity.
  assert (Hout' : initialSections !! lit "constructor" = None) by reflexivity.
  assert (Hown : lit "help" ∉ objectPrototypeKeys).
  { intros H. apply (bool_decide_eq_true_2 _) in H. vm_compute in H. discriminate H. }
  assert (Hinh : lit "constructor" ∈ objectPrototypeKeys).
  { apply (bool_decide_eq_true_1 _). vm_compute. reflexivity. }
  destruct (toggleSection_laws (lit "voice") (lit "audio") initialSections)
    as (Hother & Htwice & _).
  destruct (toggleSection_laws (lit "help") (lit "audio") initialSections)
    as (_ & _ & Hnew & _).
  destruct (toggleSection_laws (lit "constructor") (lit "audio") initialSections)
    as (_ & _ & _ & Hproto & _).
  split; [exact Hne|]. split; [exact Hin|].
  split; [reflexivity|].
  split; [rewrite (Hother Hne); reflexivity|].
  split; [exact (Htwice Hin)|].
  split; [reflexivity|].
  split; [exact (proj1 (Hnew Hout Hown))|exact (proj1 (Hproto Hout' Hinh))].
Defined.

Section Saturation.

Local Open Scope float_scope.

Lemma is_nan_Prim2SF (s : float) : PrimFloat.is_nan s = true -> Prim2SF s = S754_nan.
Proof.
  unfold PrimFloat.is_nan. rewrite FloatAxioms.eqb_spec. intros H.
  apply SFeqb_refl_false. destruct (SFeqb (Prim2SF s) (Prim2SF s)); [discriminate H|reflexivity].
Qed.

Lemma ltb_not_nan (a s : float) : (a <? s) = true \/ (s <? a) = true -> PrimFloat.is_nan s = false.
Proof.
  intros H. destruct (PrimFloat.is_nan s) eqn:Hnan; [|reflexivity].
  apply is_nan_Prim2SF in Hnan. rewrite !FloatAxioms.ltb_spec, Hnan in H.
  unfold SFltb, SFcompare in H.
  destruct (Prim2SF a); destruct H as [H|H]; discriminate H.
Qed.

(** A sample below -1 is neither above 1 nor above -1. *)
Lemma below_minus_one_excl (s : float) :
  (s <? -1) = true -> (1 <? s) = false /\ (-1 <? s) = false.
Proof.
  rewrite !FloatAxioms.ltb_spec.
  change (Prim2SF 1) with (S754_finite false 4503599627370496 (-52)).
  change (Prim2SF (-1)) with (S754_finite true 4503599627370496 (-52)).
  destruct (Prim2SF s) as [sg|sg| |sg m e]; unfold SFltb; intros H.
  - discriminate H.
  - destruct sg; [split; reflexivity|discriminate H].
  - discriminate H.
  - rewrite !SFcompare_finite in *.
    destruct sg; [|discriminate H]. split; [reflexivity|].
    destruct (Z.compare_spec e (-52)) as [He|He|He];
      destruct (Z.compare_spec (-52) e) as [He'|He'|He']; try lia;
      try reflexivity; try discriminate H.
    destruct (Z.compare_spec (Z.pos m) 4503599627370496) as [Hm|Hm|Hm];
      destruct (Z.compare_spec 4503599627370496 (Z.pos m)) as [Hm'|Hm'|Hm']; try lia;
      try reflexivity; try discriminate H.
Qed.

Lemma clampSample_above (s : float) : (1 <? s) = true -> clampSample s = 1.
Proof.
  intros H. pose proof (ltb_not_nan 1 s (or_introl H)) as Hnan.
  unfold clampSample. rewrite Math_min_one, Hnan, H. reflexivity.
Qed.

Lemma clampSample_below (s : float) : (s <? -1) = true -> clampSample s = (-1).
Proof.
  intros H. pose proof (ltb_not_nan (-1) s (or_intror H)) as Hnan.
  destruct (below_minus_one_excl s H) as [H1 H2].
  unfold clampSample. rewrite Math_min_one, Hnan, H1, Math_max_minus_one, Hnan, H2, H.
  reflexivity.
Qed.

Lemma clampSample_nan (s : float) : PrimFloat.is_nan s = true -> clampSample s = nan.
Proof. intros H. unfold clampSample. rewrite Math_min_one, H. reflexivity. Qed.

Lemma quantize_sign (s : float) :
  if s <? 0 then (quantize s <= 0)%Z else (0 <= quantize s)%Z.
Proof.
  rewrite <- clampSample_sign. unfold quantize. cbv zeta.
  destruct (unitSF_clampSample s) as [Hnan|Hunit].
  - rewrite Hnan. vm_compute. discriminate.
  - pose proof (truncate_mul_range (clampSample s) 32768 32768 4503599627370496 (-37)
                  eq_refl ltac:(lia) eq_refl ltac:(split; discriminate) Hunit) as Hneg.
    pose proof (truncate_mul_range (clampSample s) 32767 32767 9006924376834048 (-38)
                  eq_refl ltac:(lia) eq_refl ltac:(split; discriminate) Hunit) as Hpos.
    destruct (clampSample s <? 0); lia.
Qed.

End Saturation.

(** X6: the encoder saturates instead of wrapping around.  In the file
    returned by [audioBufferToWav], the 16-bit integer read at the place of
    frame [n] and channel [c] is 32767 for every sample above 1 (positive
    infinity included), -32768 for every sample below -1 and 0 for NaN; and
    it never has the sign opposite to its sample. *)
Theorem quantize_saturates (buffer : AudioBuffer) (blob : Blob) (n c : nat)
  (channel : list float) (s : float) :
  audioBufferToWav buffer = Return blob ->
  (n < buf_length buffer)%nat ->
  channelData buffer !! c = Some channel -> channel !! n = Some s ->
  let stored :=
    getInt16 (slice (blobParts blob) (44 + (n * numberOfChannels buffer + c) * 2) 2) in
  (PrimFloat.ltb 1 s = true -> stored = 32767)
  /\ (PrimFloat.ltb s (-1) = true -> stored = -32768)
  /\ (PrimFloat.is_nan s = true -> stored = 0)
  /\ (PrimFloat.ltb s 0 = true -> stored <= 0)
  /\ (PrimFloat.ltb s 0 = false -> 0 <= stored).
Proof.
  intros Hrun Hn Hc Hs stored.
  destruct (encoded_sample buffer n c channel Hn Hc) as (Hrun' & _ & Hread).
  rewrite Hrun' in Hrun. injection Hrun as <-.
  assert (Hstored : stored = quantize s).
  { subst stored. cbn [blobParts]. rewrite Hread, scaleSample_quantize.
    unfold readSample. rewrite Hs. reflexivity. }
  rewrite Hstored. clear Hstored stored Hread Hrun'.
  pose proof (quantize_sign s) as Hsign.
  split; [intros H; unfold quantize; rewrite (clampSample_above s H); reflexivity|].
  split; [intros H; unfold quantize; rewrite (clampSample_below s H); reflexivity|].
  split; [intros H; unfold quantize; rewrite (clampSample_nan s H); reflexivity|].
  split; intros H; rewrite H in Hsign; exact Hsign.
Qed.

(** One frame holding 2.5 on the left and NaN on the right. *)
Lemma quantize_saturates_witness :
  let buffer := mkAudioBuffer 24000 1 [[2.5%float]; [PrimFloat.nan]] in
  let blob := mkBlob (wavBytes buffer) (lit "audio/wav") in
  audioBufferToWav buffer = Return blob
  /\ (0 < buf_length buffer)%nat
  /\ PrimFloat.ltb 1 2.5 = true
  /\ getInt16 (slice (blobParts blob) 44 2) = 32767
  /\ getInt16 (slice (blobParts blob) 46 2) = 0.
Proof.
  cbv zeta.
  assert (Hrun : audioBufferToWav (mkAudioBuffer 24000 1 [[2.5%float]; [PrimFloat.nan]])
                 = Return (mkBlob (wavBytes (mkAudioBuffer 24000 1
                                               [[2.5%float]; [PrimFloat.nan]]))
                                  (lit "audio/wav")))
    by apply audioBufferToWav_bytes.
  assert (Hn : (0 < buf_length (mkAudioBuffer 24000 1 [[2.5%float]; [PrimFloat.nan]]))%nat)
    by (simpl; lia).
  split; [exact Hrun|]. split; [exact Hn|]. split; [reflexivity|].
  split.
  - exact (proj1 (quantize_saturates _ _ 0 0 [2.5%float] 2.5%float Hrun Hn eq_refl eq_refl)
             eq_refl).
  - exact (proj1 (proj2 (proj2 (quantize_saturates _ _ 0 1 [PrimFloat.nan] PrimFloat.nan
                                  Hrun Hn eq_refl eq_refl))) eq_refl).
Defined.

Section HeaderSizes.

Lemma readHeader_sizes (C N : nat) (R : positive) (rest : list Byte.byte) :
  Z.of_nat (44 + N * C * 2) < 2 ^ 32 ->
  let h := readHeader (wavHeader C N R ++ rest) in
  chunkSize h = Z.of_nat (44 + N * C * 2) - 8
  /\ dataSize h = Z.of_nat (N * C * 2)
  /\ chunkId h = asciiTag "RIFF" /\ waveId h = asciiTag "WAVE"
  /\ fmtId h = asciiTag "fmt " /\ dataId h = asciiTag "data"
  /\ fmtSize h = 16 /\ audioFormat h = 1 /\ bitsPerSample h = 16.
Proof.
  intros Htotal. change (2 ^ 32) with (256 ^ Z.of_nat 4) in Htotal.
  assert (H4 : forall v, 0 <= v < 256 ^ Z.of_nat 4 ->
                         fromLittleEndian (littleEndian 4 v) = v)
    by (intros; now apply fromLittleEndian_small).
  cbv zeta. unfold readHeader, slice, wavHeader.
  change (asciiTag "RIFF") with [Byte.x52; Byte.x49; Byte.x46; Byte.x46].
  change (asciiTag "WAVE") with [Byte.x57; Byte.x41; Byte.x56; Byte.x45].
  change (asciiTag "fmt ") with [Byte.x66; Byte.x6d; Byte.x74; Byte.x20].
  change (asciiTag "data") with [Byte.x64; Byte.x61; Byte.x74; Byte.x61].
  cbn [littleEndian app take drop firstn skipn chunkSize dataSize chunkId waveId fmtId
       dataId fmtSize audioFormat bitsPerSample].
  split; [apply (H4 (Z.of_nat (44 + N * C * 2) - 8)); lia|].
  split; [apply (H4 (Z.of_nat (N * C * 2))); lia|].
  repeat split; reflexivity.
Qed.

End HeaderSizes.

(** X7: whatever buffer is encoded, the sizes written into the header agree
    with the bytes returned as long as these are fewer than 2^32: the RIFF
    chunk size is the length minus 8 and the data chunk size the length
    minus 44; the four tags are in place and the format is 16-bit PCM. *)
Theorem wav_sizes_match (buffer : AudioBuffer) (blob : Blob) :
  audioBufferToWav buffer = Return blob ->
  Z.of_nat (length (blobParts blob)) < 2 ^ 32 ->
  let h := readHeader (blobParts blob) in
  chunkSize h + 8 = Z.of_nat (length (blobParts blob))
  /\ dataSize h + 44 = Z.of_nat (length (blobParts blob))
  /\ chunkId h = asciiTag "RIFF" /\ waveId h = asciiTag "WAVE"
  /\ fmtId h = asciiTag "fmt " /\ dataId h = asciiTag "data"
  /\ fmtSize h = 16 /\ audioFormat h = 1 /\ bitsPerSample h = 16.
Proof.
  rewrite audioBufferToWav_bytes. intros [= <-]. cbn [blobParts].
  assert (Hl : length (wavBytes buffer)
               = (44 + buf_length buffer * numberOfChannels buffer * 2)%nat).
  { unfold wavBytes. rewrite length_app, length_wavHeader, length_pcmData. reflexivity. }
  rewrite !Hl. intros Hlen. unfold wavBytes.
  destruct (readHeader_sizes (numberOfChannels buffer) (buf_length buffer)
              (sampleRate buffer) (pcmData buffer) Hlen)
    as (Hc & Hd & Htags).
  cbv zeta. rewrite Hc, Hd. split; [lia|]. split; [lia|exact Htags].
Qed.

Lemma wav_sizes_match_witness :
  exists blob,
    audioBufferToWav specBuffer = Return blob
    /\ Z.of_nat (length (blobParts blob)) < 2 ^ 32
    /\ chunkSize (readHeader (blobParts blob)) = 52
    /\ dataSize (readHeader (blobParts blob)) = 16.
Proof.
  exists (mkBlob (wavBytes specBuffer) (lit "audio/wav")).
  assert (Hrun : audioBufferToWav specBuffer
                 = Return (mkBlob (wavBytes specBuffer) (lit "audio/wav")))
    by (vm_compute; reflexivity).
  assert (Hlen : Z.of_nat (length (blobParts (mkBlob (wavBytes specBuffer) (lit "audio/wav"))))
                 < 2 ^ 32) by (vm_compute; reflexivity).
  destruct (wav_sizes_match specBuffer _ Hrun Hlen) as (Hc & Hd & _).
  split; [exact Hrun|]. split; [exact Hlen|].
  split; vm_compute; reflexivity.
Defined.

Section Clock.

Local Open Scope Q_scope.

Lemma Qmin_anchor (c t s d : Q) : c <= d -> Qmin (c + (t - t) * s) d == c.
Proof.
  intros Hc. assert (He : c + (t - t) * s == c) by ring.
  destruct (Q.min_spec (c + (t - t) * s) d) as [[_ H]|[Hle H]]; rewrite H; lra.
Qed.

(** Moving the argument of [min _ d] up by [k] moves the result up by at
    most [k], and never down. *)
Lemma Qmin_shift (x x' k d : Q) :
  0 <= k -> x' == x + k -> Qmin x d <= Qmin x' d <= Qmin x d + k.
Proof.
  intros Hk Hx.
  destruct (Q.min_spec x d) as [[H1 H2]|[H1 H2]];
    destruct (Q.min_spec x' d) as [[H3 H4]|[H3 H4]]; rewrite H2, H4; lra.
Qed.

Lemma clamp_id (x d : Q) : 0 <= x <= d -> Qmax 0 (Qmin x d) == x.
Proof.
  intros [H0 Hd]. rewrite (Q.min_l x d Hd). apply Q.max_r. exact H0.
Qed.

Lemma clamp_low (x d : Q) : 0 <= d -> x <= 0 -> Qmax 0 (Qmin x d) == 0.
Proof.
  intros Hd Hx. apply Q.max_l. eapply Qle_trans; [apply Q.le_min_l|exact Hx].
Qed.

Lemma clamp_high (x d : Q) : 0 <= d -> d <= x -> Qmax 0 (Qmin x d) == d.
Proof.
  intros Hd Hx. rewrite (Q.min_r x d Hx). apply Q.max_r. exact Hd.
Qed.

End Clock.

Section Started.

Lemma reported_startPlayback (r : State) (offset : Q) (a : App) (buffer : AudioBuffer) :
  audioBufferRef (refs a) = Some buffer ->
  isPlaying (state (startPlayback r offset a)) = true
  /\ (reported (startPlayback r offset a) == Qmax 0 (Qmin offset (duration buffer)))%Q.
Proof.
  intros Hb. split.
  - unfold startPlayback. rewrite Hb. reflexivity.
  - unfold reported, getCurrentOffset, startPlayback. rewrite Hb.
    unfold stopAudio. destruct (sourceRef (refs a)); simpl; rewrite Hb;
      apply Qmin_anchor, clamp_range, duration_nonneg.
Qed.

End Started.

(** X8: right after a start the reported position is the start offset
    clamped to the buffer: for an offset within [0, duration] it is that
    offset, whatever the speed and whatever was playing before. *)
Theorem start_then_read (r : State) (offset : Q) (a : App) (buffer : AudioBuffer) :
  audioBufferRef (refs a) = Some buffer ->
  let a' := startPlayback r offset a in
  isPlaying (state a') = true
  /\ (reported a' == Qmax 0 (Qmin offset (duration buffer)))%Q
  /\ ((0 <= offset <= duration buffer)%Q -> (reported a' == offset)%Q).
Proof.
  intros Hb. cbv zeta.
  destruct (reported_startPlayback r offset a buffer Hb) as [Hplay Hrep].
  split; [exact Hplay|]. split; [exact Hrep|].
  intros Hrange. rewrite Hrep. apply clamp_id. exact Hrange.
Qed.

Lemma start_then_read_witness :
  let a := setAudioBufferRef (Some specBuffer) initialApp in
  audioBufferRef (refs a) = Some specBuffer
  /\ (0 <= 1 # 24000 <= duration specBuffer)%Q
  /\ (reported (startPlayback (state a) (1 # 24000) a) == 1 # 24000)%Q.
Proof.
  assert (Hrange : (0 <= 1 # 24000 <= duration specBuffer)%Q)
    by (split; vm_compute; discriminate).
  split; [reflexivity|]. split; [exact Hrange|].
  exact (proj2 (proj2 (start_then_read
           (state (setAudioBufferRef (Some specBuffer) initialApp)) (1 # 24000)
           (setAudioBufferRef (Some specBuffer) initialApp) specBuffer eq_refl)) Hrange).
Defined.

(** X9: at a non-negative speed the reported position never goes back when
    the device clock moves on; it stays where it is while stopped; and
    while playing with a buffer it never passes the end of the buffer. *)
Theorem clock_advance_position (a : App) (dt : Q) :
  (0 <= dt)%Q -> (0 <= playbackSpeed (config (state a)))%Q ->
  let a' := step a (ClockAdvanced dt) in
  (reported a <= reported a')%Q
  /\ (isPlaying (state a) = false -> reported a' = reported a)
  /\ (forall buffer,
        isPlaying (state a) = true -> audioContextRef (refs a) <> None ->
        audioBufferRef (refs a) = Some buffer ->
        (reported a' <= duration buffer)%Q).
Proof.
  intros Hdt Hs. cbv zeta. unfold reported, step, advanceClock, getCurrentOffset.
  assert (Hk : (0 <= dt * playbackSpeed (config (state a)))%Q)
    by (apply Qmult_le_0_compat; assumption).
  destruct a as [st [started off txt voice [ctx|] src buf] n calls dl]; simpl in *.
  - destruct (isPlaying st); simpl.
    + split; [|split; [discriminate|]].
      * apply (Qmin_shift _ _ (dt * playbackSpeed (config st))); [exact Hk|ring].
      * intros buffer _ _ ->. apply Q.le_min_r.
    + split; [lra|]. split; [reflexivity|]. intros buffer H; discriminate H.
  - split; [lra|]. split; [reflexivity|]. intros buffer _ H. contradiction.
Qed.

Lemma clock_advance_position_witness :
  (0 <= 1 # 24000)%Q /\ (0 <= playbackSpeed (config (state playingApp)))%Q
  /\ (reported playingApp <= reported (step playingApp (ClockAdvanced (1 # 24000))))%Q.
Proof.
  assert (H1 : (0 <= 1 # 24000)%Q) by (vm_compute; discriminate).
  assert (H2 : (0 <= playbackSpeed (config (state playingApp)))%Q) by (vm_compute; discriminate).
  split; [exact H1|]. split; [exact H2|].
  exact (proj1 (clock_advance_position playingApp _ H1 H2)).
Defined.

Section Reachable.

Lemma stopAudio_stopped (r : State) (reset : bool) (a : App) :
  isPlaying (state (stopAudio r reset a)) = false
  /\ sourceRef (refs (stopAudio r reset a)) = None
  /\ audioContextRef (refs (stopAudio r reset a)) = audioContextRef (refs a)
  /\ nodesCreated (stopAudio r reset a) = nodesCreated a
  /\ downloads (stopAudio r reset a) = downloads a.
Proof.
  unfold stopAudio. destruct (sourceRef (refs a)) eqn:Hs, reset; simpl; rewrite ?Hs; auto.
Qed.

Lemma playingInv_stopAudio (r : State) (reset : bool) (a : App) :
  playingInv (stopAudio r reset a).
Proof.
  destruct (stopAudio_stopped r reset a) as (Hp & Hs & _).
  split; [rewrite Hp; discriminate|]. intros source Hsrc. congruence.
Qed.

Lemma playingInv_startPlayback (r : State) (offset : Q) (a : App) :
  playingInv a -> playingInv (startPlayback r offset a).
Proof.
  intros Hinv. unfold startPlayback.
  destruct (audioBufferRef (refs a)) as [b|]; [|exact Hinv].
  unfold playingInv, fresh, stopAudio.
  destruct (sourceRef (refs a)); simpl;
    (split; [intros _; split; discriminate|intros source [= <-]; simpl; lia]).
Qed.

(** The invariant only looks at the playing flag, the active node, the
    context and the number of nodes. *)
Lemma playingInv_ext (a a' : App) :
  isPlaying (state a') = isPlaying (state a) ->
  sourceRef (refs a') = sourceRef (refs a) ->
  audioContextRef (refs a') = audioContextRef (refs a) ->
  nodesCreated a' = nodesCreated a ->
  playingInv a -> playingInv a'.
Proof.
  intros Hp Hs Hc Hn [Hplay Hfresh]. unfold playingInv, fresh.
  rewrite Hp, Hs, Hc, Hn. split; assumption.
Qed.

Lemma handleExport_transport (r : State) (format : ExportFormat) (now : N)
  (service : Service) (a : App) :
  let a' := handleExport r format now service a in
  isPlaying (state a') = isPlaying (state a)
  /\ playbackPosition (state a') = playbackPosition (state a)
  /\ text (state a') = text (state a)
  /\ config (state a') = config (state a)
  /\ sourceRef (refs a') = sourceRef (refs a)
  /\ audioContextRef (refs a') = audioContextRef (refs a)
  /\ playbackStartedAtRef (refs a') = playbackStartedAtRef (refs a)
  /\ playbackOffsetAtStartRef (refs a') = playbackOffsetAtStartRef (refs a)
  /\ nodesCreated a' = nodesCreated a.
Proof.
  cbv zeta. unfold handleExport.
  destruct (bool_decide (text r ≠ lastGeneratedTextRef (refs a))
            || bool_decide (audioBufferRef (refs a) = None)).
  - unfold callGenerateSpeech.
    destruct (service (text r) (voiceName (config r))) as [b|];
      [rewrite audioBufferToWav_bytes|]; simpl; repeat split; reflexivity.
  - destruct (audioBufferRef (refs a)) as [b|];
      [rewrite audioBufferToWav_bytes|]; simpl; repeat split; reflexivity.
Qed.

Lemma playingInv_playAudio (r : State) (service : Service) (a : App) :
  playingInv a -> playingInv (playAudio r service a).
Proof.
  intros Hinv. unfold playAudio.
  destruct (negb (truthy (trim (text r)))); [exact Hinv|].
  destruct (isPlaying r); [apply playingInv_stopAudio|].
  destruct (_ || _); [|apply playingInv_startPlayback, Hinv].
  unfold callGenerateSpeech. destruct (service (text r) (voiceName (config r))) as [b|].
  - apply playingInv_startPlayback.
    revert Hinv. apply playingInv_ext; reflexivity.
  - revert Hinv. apply playingInv_ext; reflexivity.
Qed.

Lemma playingInv_handleSkip (r : State) (seconds : Q) (a : App) :
  playingInv a -> playingInv (handleSkip r seconds a).
Proof.
  intros Hinv. unfold handleSkip.
  destruct (audioBufferRef (refs a)) as [b|]; [|exact Hinv].
  cbv zeta. destruct (isPlaying r).
  - apply playingInv_startPlayback. revert Hinv. apply playingInv_ext; reflexivity.
  - revert Hinv. apply playingInv_ext; reflexivity.
Qed.

Lemma playingInv_step (a : App) (ev : Event) : playingInv a -> playingInv (step a ev).
Proof.
  intros Hinv. destruct ev; unfold step.
  - apply playingInv_playAudio, Hinv.
  - apply playingInv_stopAudio.
  - apply playingInv_handleSkip, Hinv.
  - destruct (handleExport_transport (state a) format now service a)
      as (Hp & _ & _ & _ & Hs & Hc & _ & _ & Hn).
    revert Hinv. apply playingInv_ext; assumption.
  - destruct Hinv as [Hplay Hfresh]. unfold changePlaybackSpeed, playingInv, fresh.
    simpl. destruct (sourceRef (refs a)) as [source|] eqn:Hsrc; simpl.
    + split.
      * intros Hp. split; [discriminate|]. apply (Hplay Hp).
      * intros s [= <-]. simpl. apply Hfresh. exact Hsrc.
    + rewrite Hsrc. split; [exact Hplay|]. intros s Hs; discriminate Hs.
  - revert Hinv. apply playingInv_ext; reflexivity.
  - revert Hinv. apply playingInv_ext; reflexivity.
  - apply playingInv_stopAudio.
  - unfold update. destruct (isPlaying (state a)); [|exact Hinv].
    revert Hinv. apply playingInv_ext; reflexivity.
  - unfold onended.
    destruct (sourceRef (refs a)) as [source|] eqn:Hsrc; [|exact Hinv].
    destruct (nodeId source =? node)%nat; [|exact Hinv].
    split; [simpl; discriminate|]. exact (proj2 Hinv).
  - unfold advanceClock.
    destruct (audioContextRef (refs a)) as [ctx|] eqn:Hctx; [|exact Hinv].
    destruct Hinv as [Hplay Hfresh].
    split; [|exact Hfresh]. simpl. intros Hp. split; [apply (Hplay Hp)|discriminate].
Qed.

Lemma playingInv_run (evs : list Event) :
  forall a, playingInv a -> playingInv (run a evs).
Proof.
  induction evs as [|ev evs IH]; intros a Hinv; [exact Hinv|].
  apply IH, playingInv_step, Hinv.
Qed.

End Reachable.

(** X10: in every state the component can reach from its initial one,
    whatever the events and whatever the service answers, a session shown
    as playing has an active source node and an audio context, and the
    active node is one of the nodes created so far. *)
Theorem playing_has_active_source (evs : list Event) :
  let a := run initialApp evs in
  (isPlaying (state a) = true ->
   exists source ctx,
     sourceRef (refs a) = Some source /\ audioContextRef (refs a) = Some ctx)
  /\ (forall source, sourceRef (refs a) = Some source ->
                     (nodeId source < nodesCreated a)%nat).
Proof.
  cbv zeta.
  assert (Hinit : playingInv initialApp).
  { split; [discriminate|]. intros source Hs; discriminate Hs. }
  destruct (playingInv_run evs initialApp Hinit) as [Hplay Hfresh].
  split; [|exact Hfresh].
  intros Hp. destruct (Hplay Hp) as [Hs Hc].
  destruct (sourceRef (refs (run initialApp evs))) as [source|]; [|contradiction].
  destruct (audioContextRef (refs (run initialApp evs))) as [ctx|]; [|contradiction].
  exists source, ctx. split; reflexivity.
Qed.

Section Logs.

Lemma startPlayback_downloads (r : State) (offset : Q) (a : App) :
  downloads (startPlayback r offset a) = downloads a.
Proof.
  unfold startPlayback. destruct (audioBufferRef (refs a)); [|reflexivity].
  unfold stopAudio. destruct (sourceRef (refs a)); reflexivity.
Qed.

Lemma playAudio_downloads (r : State) (service : Service) (a : App) :
  downloads (playAudio r service a) = downloads a.
Proof.
  unfold playAudio.
  destruct (negb (truthy (trim (text r)))); [reflexivity|].
  destruct (isPlaying r); [apply stopAudio_stopped|].
  destruct (_ || _); [|apply startPlayback_downloads].
  unfold callGenerateSpeech. destruct (service (text r) (voiceName (config r)));
    [rewrite startPlayback_downloads|]; reflexivity.
Qed.

Lemma handleExport_calls (r : State) (format : ExportFormat) (now : N)
  (service : Service) (a : App) :
  exists new, synthesisCalls (handleExport r format now service a) = new ++ synthesisCalls a
              /\ (length new <= 1)%nat.
Proof.
  unfold handleExport.
  destruct (bool_decide (text r ≠ lastGeneratedTextRef (refs a))
            || bool_decide (audioBufferRef (refs a) = None)).
  - exists [(text r, voiceName (config r))]. split; [|simpl; lia].
    unfold callGenerateSpeech.
    destruct (service (text r) (voiceName (config r))) as [b|];
      [rewrite audioBufferToWav_bytes|]; reflexivity.
  - exists []. split; [|simpl; lia].
    destruct (audioBufferRef (refs a)) as [b|];
      [rewrite audioBufferToWav_bytes|]; reflexivity.
Qed.

Lemma handleExport_downloads (r : State) (format : ExportFormat) (now : N)
  (service : Service) (a : App) :
  exists files, downloads (handleExport r format now service a) = files ++ downloads a
                /\ (length files <= 1)%nat.
Proof.
  unfold handleExport.
  destruct (bool_decide (text r ≠ lastGeneratedTextRef (refs a))
            || bool_decide (audioBufferRef (refs a) = None)).
  - unfold callGenerateSpeech.
    destruct (service (text r) (voiceName (config r))) as [b|].
    + rewrite audioBufferToWav_bytes. eexists [_]. split; [reflexivity|simpl; lia].
    + exists []. split; [reflexivity|simpl; lia].
  - destruct (audioBufferRef (refs a)) as [b|].
    + rewrite audioBufferToWav_bytes. eexists [_]. split; [reflexivity|simpl; lia].
    + exists []. split; [reflexivity|simpl; lia].
Qed.

Lemma playAudio_calls (r : State) (service : Service) (a : App) :
  exists new, synthesisCalls (playAudio r service a) = new ++ synthesisCalls a
              /\ (length new <= 1)%nat.
Proof.
  unfold playAudio.
  destruct (negb (truthy (trim (text r)))); [exists []; split; [reflexivity|simpl; lia]|].
  destruct (isPlaying r).
  { exists []. split; [apply stopAudio_calls|simpl; lia]. }
  destruct (_ || _).
  - exists [(text r, voiceName (config r))]. split; [|simpl; lia].
    unfold callGenerateSpeech. destruct (service (text r) (voiceName (config r)));
      [rewrite startPlayback_calls|]; reflexivity.
  - exists []. split; [apply startPlayback_calls|simpl; lia].
Qed.

(** Events other than play and export leave both logs as they are. *)
Lemma step_quiet (a : App) (ev : Event) :
  isRequestEvent ev = false ->
  synthesisCalls (step a ev) = synthesisCalls a /\ downloads (step a ev) = downloads a.
Proof.
  destruct ev; cbn [isRequestEvent]; intros Hq; try discriminate Hq; unfold step.
  - split; [apply stopAudio_calls|apply stopAudio_stopped].
  - unfold handleSkip. destruct (audioBufferRef (refs a)); [|split; reflexivity].
    cbv zeta. destruct (isPlaying (state a)); [|split; reflexivity].
    rewrite startPlayback_calls, startPlayback_downloads. split; reflexivity.
  - unfold changePlaybackSpeed. simpl. destruct (sourceRef (refs a)); split; reflexivity.
  - split; reflexivity.
  - split; reflexivity.
  - unfold newFile. split; [rewrite stopAudio_calls; reflexivity|].
    destruct (stopAudio_stopped (state a) true (setText [] a)) as (_ & _ & _ & _ & Hd).
    rewrite Hd. reflexivity.
  - unfold update. destruct (isPlaying (state a)); split; reflexivity.
  - unfold onended. destruct (sourceRef (refs a)) as [source|]; [|split; reflexivity].
    destruct (nodeId source =? node)%nat; split; reflexivity.
  - unfold advanceClock. destruct (audioContextRef (refs a)); split; reflexivity.
Qed.

Lemma step_calls (a : App) (ev : Event) :
  exists new, synthesisCalls (step a ev) = new ++ synthesisCalls a
              /\ (length new <= if isRequestEvent ev then 1 else 0)%nat.
Proof.
  destruct (isRequestEvent ev) eqn:Hq.
  - destruct ev; try discriminate Hq; [apply playAudio_calls|apply handleExport_calls].
  - exists []. split; [apply (step_quiet a ev Hq)|simpl; lia].
Qed.

Lemma step_downloads (a : App) (ev : Event) :
  exists files, downloads (step a ev) = files ++ downloads a
                /\ (length files <= if isExportEvent ev then 1 else 0)%nat.
Proof.
  destruct (isExportEvent ev) eqn:He.
  - destruct ev; try discriminate He. apply handleExport_downloads.
  - exists []. split; [|simpl; lia].
    destruct (isRequestEvent ev) eqn:Hq; [|apply (step_quiet a ev Hq)].
    destruct ev; try discriminate Hq; try discriminate He.
    apply playAudio_downloads.
Qed.

Lemma run_logs (evs : list Event) :
  forall a,
    (exists new, synthesisCalls (run a evs) = new ++ synthesisCalls a
                 /\ (length new <= requestCount evs)%nat)
    /\ (exists files, downloads (run a evs) = files ++ downloads a
                      /\ (length files <= exportCount evs)%nat).
Proof.
  unfold requestCount, exportCount.
  induction evs as [|ev evs IH]; intros a.
  { split; exists []; split; simpl; auto. }
  destruct (IH (step a ev)) as ((new & Hnew & Hlen) & (files & Hfiles & Hflen)).
  destruct (step_calls a ev) as (new1 & Hnew1 & Hlen1).
  destruct (step_downloads a ev) as (files1 & Hfiles1 & Hflen1).
  change (run a (ev :: evs)) with (run (step a ev) evs).
  split.
  - exists (new ++ new1). split; [rewrite Hnew, Hnew1; apply app_assoc|].
    rewrite length_app. simpl. destruct (isRequestEvent ev); simpl; lia.
  - exists (files ++ files1). split; [rewrite Hfiles, Hfiles1; apply app_assoc|].
    rewrite length_app. simpl. destruct (isExportEvent ev); simpl; lia.
Qed.

End Logs.

(** X11: over any sequence of events the service is called at most once
    per play or export click and at most one file is downloaded per export
    click; earlier calls and files stay in the logs; and an event that is
    neither a play nor an export click calls nothing and downloads
    nothing. *)
Theorem calls_and_downloads_bounded (a : App) (evs : list Event) :
  (exists new, synthesisCalls (run a evs) = new ++ synthesisCalls a
               /\ (length new <= requestCount evs)%nat)
  /\ (exists files, downloads (run a evs) = files ++ downloads a
                    /\ (length files <= exportCount evs)%nat)
  /\ (forall ev, isRequestEvent ev = false ->
                 synthesisCalls (step a ev) = synthesisCalls a
                 /\ downloads (step a ev) = downloads a)
  /\ (forall service, downloads (step a (PlayClicked service)) = downloads a).
Proof.
  destruct (run_logs evs a) as [Hcalls Hfiles].
  split; [exact Hcalls|]. split; [exact Hfiles|].
  split; [intros ev Hq; apply step_quiet, Hq|].
  intros service. apply playAudio_downloads.
Qed.

Section PlayPaths.

Lemma nonblank_truthy (t : JSString) :
  forallb isWhiteSpace t = false -> negb (truthy (trim t)) = false.
Proof.
  intros Hnb. destruct (trim t) eqn:Ht; [|reflexivity].
  apply trim_nil_iff in Ht. congruence.
Qed.

(** A play click while playing pauses. *)
Lemma playAudio_playing (r : State) (service : Service) (a : App) :
  forallb isWhiteSpace (text r) = false -> isPlaying r = true ->
  playAudio r service a = stopAudio r false a.
Proof.
  intros Hnb Hp. unfold playAudio. rewrite (nonblank_truthy _ Hnb), Hp. reflexivity.
Qed.

(** A play click while stopped, with the audio of the text and voice at
    hand, starts from the stored position. *)
Lemma playAudio_cached (a : App) (service : Service) :
  forallb isWhiteSpace (text (state a)) = false -> isPlaying (state a) = false ->
  cached a ->
  playAudio (state a) service a = startPlayback (state a) (playbackPosition (state a)) a.
Proof.
  intros Hnb Hp (Hb & Ht & Hv). unfold playAudio.
  rewrite (nonblank_truthy _ Hnb), Hp. simpl.
  rewrite (bool_decide_eq_false_2 (text (state a) ≠ lastGeneratedTextRef (refs a)))
    by (intros H; apply H; symmetry; exact Ht).
  rewrite (bool_decide_eq_false_2
             (Some (voiceName (config (state a))) ≠ lastGeneratedVoiceRef (refs a)))
    by (intros H; apply H; symmetry; exact Hv).
  rewrite (bool_decide_eq_false_2 (audioBufferRef (refs a) = None)) by exact Hb.
  reflexivity.
Qed.

(** A play click while stopped, without that audio, asks the service. *)
Lemma playAudio_synthesizes (a : App) (service : Service) :
  forallb isWhiteSpace (text (state a)) = false -> isPlaying (state a) = false ->
  ~ cached a ->
  playAudio (state a) service a
  = let r := state a in
    let a1 := setIsLoading true a in
    let '(buffer, a2) := callGenerateSpeech service (text r) (voiceName (config r)) a1 in
    let a3 := setIsLoading false a2 in
    match buffer with
    | Some b =>
        startPlayback r 0%Q
          (setLastGeneratedVoiceRef (Some (voiceName (config r)))
             (setLastGeneratedTextRef (text r) (setAudioBufferRef (Some b) a3)))
    | None => a3
    end.
Proof.
  intros Hnb Hp Hnc. unfold playAudio.
  rewrite (nonblank_truthy _ Hnb), Hp. simpl.
  destruct (bool_decide (text (state a) ≠ lastGeneratedTextRef (refs a))) eqn:Ht;
    [reflexivity|].
  destruct (bool_decide (Some (voiceName (config (state a))) ≠ lastGeneratedVoiceRef (refs a)))
    eqn:Hv; [reflexivity|].
  destruct (bool_decide (audioBufferRef (refs a) = None)) eqn:Hb; [reflexivity|].
  exfalso. apply Hnc.
  apply bool_decide_eq_false in Ht, Hv, Hb.
  repeat split.
  - exact Hb.
  - destruct (decide (lastGeneratedTextRef (refs a) = text (state a))) as [H|H];
      [exact H|]. exfalso. apply Ht. intros H'. apply H. symmetry. exact H'.
  - destruct (decide (lastGeneratedVoiceRef (refs a)
                      = Some (voiceName (config (state a))))) as [H|H];
      [exact H|]. exfalso. apply Hv. intros H'. apply H. symmetry. exact H'.
Qed.

Lemma stopAudio_pause (r : State) (a : App) (source : AudioBufferSourceNode) :
  sourceRef (refs a) = Some source ->
  stopAudio r false a
  = setIsPlaying false (setSourceRef None (setPlaybackPosition (getCurrentOffset r a) a)).
Proof. intros Hs. unfold stopAudio. rewrite Hs. reflexivity. Qed.

Lemma reported_stopped (a : App) :
  isPlaying (state a) = false -> reported a = playbackPosition (state a).
Proof.
  intros Hp. unfold reported, getCurrentOffset. rewrite Hp.
  destruct (audioContextRef (refs a)); reflexivity.
Qed.

(** A start from the stored position of a stopped session that keeps the
    transport invariant continues at that position. *)
Lemma resume_reported (a : App) (buffer : AudioBuffer) :
  audioBufferRef (refs a) = Some buffer ->
  (0 <= playbackPosition (state a) <= duration buffer)%Q ->
  let a' := startPlayback (state a) (playbackPosition (state a)) a in
  isPlaying (state a') = true
  /\ (reported a' == playbackPosition (state a))%Q
  /\ synthesisCalls a' = synthesisCalls a.
Proof.
  intros Hb Hrange. cbv zeta.
  destruct (reported_startPlayback (state a) (playbackPosition (state a)) a buffer Hb)
    as [Hp Hrep].
  split; [exact Hp|]. split; [|apply startPlayback_calls].
  rewrite Hrep. apply clamp_id. exact Hrange.
Qed.

End PlayPaths.

(** X12: pause and resume.  In a playing session that holds the audio of
    its text and voice, a play click stops the source and stores the
    position reported at that moment; the position stays there however long
    the pause lasts; the next play click continues from it; and neither
    click calls the service. *)
Theorem pause_then_resume (a : App) (service1 service2 : Service) (dt : Q) :
  transportInv a -> cached a -> isPlaying (state a) = true ->
  forallb isWhiteSpace (text (state a)) = false ->
  let paused := step (step a (PlayClicked service1)) (ClockAdvanced dt) in
  let resumed := step paused (PlayClicked service2) in
  isPlaying (state paused) = false
  /\ sourceRef (refs paused) = None
  /\ reported paused = reported a
  /\ isPlaying (state resumed) = true
  /\ (reported resumed == reported a)%Q
  /\ synthesisCalls resumed = synthesisCalls a.
Proof.
  intros Hinv Hcached Hp Hnb. cbv zeta.
  pose proof Hinv as (Hs & Ho & Hpos & Hplay & _).
  destruct (Hplay Hp) as (Hsrc & ctx & Hctx & Hanchor).
  destruct (sourceRef (refs a)) as [source|] eqn:Hsource; [|contradiction].
  destruct Hcached as (Hb & Ht & Hv).
  destruct (audioBufferRef (refs a)) as [buffer|] eqn:Hbuf; [|contradiction].
  assert (Hrange : (0 <= reported a <= duration buffer)%Q).
  { destruct (getCurrentOffset_range (state a) a Hs Ho Hpos) as [H0 Hd].
    - intros _ ctx' Hctx'. rewrite Hctx in Hctx'. injection Hctx' as <-. exact Hanchor.
    - split; [exact H0|]. apply (Hd buffer Hbuf).
      + intros Hstop. congruence.
      + intros _. rewrite Hctx. discriminate. }
  set (paused := step (step a (PlayClicked service1)) (ClockAdvanced dt)).
  assert (Hpaused : paused
                    = setAudioContextRef (Some (mkAudioContext (currentTime ctx + dt)%Q))
                        (setIsPlaying false (setSourceRef None
                           (setPlaybackPosition (reported a) a)))).
  { subst paused. unfold step at 2.
    rewrite (playAudio_playing _ service1 a Hnb Hp), (stopAudio_pause _ a source Hsource).
    unfold step, advanceClock. simpl. rewrite Hctx. reflexivity. }
  assert (Hstate : isPlaying (state paused) = false
                   /\ playbackPosition (state paused) = reported a
                   /\ text (state paused) = text (state a)
                   /\ config (state paused) = config (state a)).
  { rewrite Hpaused. repeat split; reflexivity. }
  destruct Hstate as (Hp' & Hpos' & Ht' & Hc').
  assert (Hrefs : sourceRef (refs paused) = None
                  /\ audioBufferRef (refs paused) = Some buffer
                  /\ lastGeneratedTextRef (refs paused) = lastGeneratedTextRef (refs a)
                  /\ lastGeneratedVoiceRef (refs paused) = lastGeneratedVoiceRef (refs a)
                  /\ synthesisCalls paused = synthesisCalls a).
  { rewrite Hpaused. simpl. rewrite Hbuf. repeat split; reflexivity. }
  destruct Hrefs as (Hs' & Hb' & Hlt & Hlv & Hcalls).
  assert (Hcached' : cached paused).
  { unfold cached. rewrite Hb', Hlt, Hlv, Ht', Hc'. repeat split; [discriminate|exact Ht|exact Hv]. }
  split; [exact Hp'|]. split; [exact Hs'|].
  split; [rewrite (reported_stopped _ Hp'); exact Hpos'|].
  assert (Hres : step paused (PlayClicked service2)
                 = startPlayback (state paused) (playbackPosition (state paused)) paused).
  { apply playAudio_cached; [rewrite Ht'; exact Hnb|exact Hp'|exact Hcached']. }
  rewrite Hres.
  destruct (resume_reported paused buffer Hb') as (H1 & H2 & H3).
  { rewrite Hpos'. exact Hrange. }
  split; [exact H1|]. split; [rewrite H2, Hpos'; reflexivity|].
  rewrite H3. exact Hcalls.
Qed.

Lemma pause_then_resume_witness :
  transportInv playingApp /\ cached playingApp /\ isPlaying (state playingApp) = true
  /\ forallb isWhiteSpace (text (state playingApp)) = false
  /\ (reported (run playingApp
                 [PlayClicked noService; ClockAdvanced 5; PlayClicked noService])
      == 1 # 24000)%Q.
Proof.
  assert (Hinv : transportInv playingApp).
  { apply run_inv; [apply initialApp_inv|].
    repeat split; vm_compute; discriminate. }
  assert (Hc : cached playingApp) by (repeat split; vm_compute; discriminate).
  assert (Hp : isPlaying (state playingApp) = true) by reflexivity.
  assert (Hnb : forallb isWhiteSpace (text (state playingApp)) = false) by reflexivity.
  split; [exact Hinv|]. split; [exact Hc|]. split; [exact Hp|]. split; [exact Hnb|].
  destruct (pause_then_resume playingApp noService noService 5 Hinv Hc Hp Hnb)
    as (_ & _ & _ & _ & Hrep & _).
  cbn [run fold_left]. rewrite Hrep. vm_compute. reflexivity.
Defined.

Section Restart.

Lemma stopAudio_reset (r : State) (a : App) :
  let a' := stopAudio r true a in
  isPlaying (state a') = false
  /\ playbackPosition (state a') = 0%Q
  /\ text (state a') = text (state a)
  /\ config (state a') = config (state a)
  /\ sourceRef (refs a') = None
  /\ audioBufferRef (refs a') = audioBufferRef (refs a)
  /\ lastGeneratedTextRef (refs a') = lastGeneratedTextRef (refs a)
  /\ lastGeneratedVoiceRef (refs a') = lastGeneratedVoiceRef (refs a)
  /\ synthesisCalls a' = synthesisCalls a.
Proof.
  cbv zeta. unfold stopAudio.
  destruct (sourceRef (refs a)) eqn:Hs; simpl; rewrite ?Hs; repeat split; reflexivity.
Qed.

Lemma stopAudio_reset_twice (r r' : State) (a : App) :
  stopAudio r' true (stopAudio r true a) = stopAudio r true a.
Proof.
  unfold stopAudio. destruct (sourceRef (refs a)) eqn:Hs; simpl; rewrite ?Hs; reflexivity.
Qed.

(** Playing a stopped session whose position is 0 and which holds the audio
    of its text and voice starts at 0 without a call of the service. *)
Lemma play_from_zero (a : App) (service : Service) :
  cached a -> forallb isWhiteSpace (text (state a)) = false ->
  isPlaying (state a) = false -> playbackPosition (state a) = 0%Q ->
  let a' := step a (PlayClicked service) in
  isPlaying (state a') = true
  /\ (reported a' == 0)%Q
  /\ synthesisCalls a' = synthesisCalls a
  /\ sourceRef (refs a')
     = Some (mkSource (nodesCreated a) (playbackSpeed (config (state a)))).
Proof.
  intros Hc Hnb Hp Hpos. cbv zeta.
  unfold step. rewrite (playAudio_cached a service Hnb Hp Hc).
  destruct Hc as (Hb & _).
  destruct (audioBufferRef (refs a)) as [buffer|] eqn:Hbuf; [|contradiction].
  destruct (resume_reported a buffer Hbuf) as (H1 & H2 & H3).
  { rewrite Hpos. split; [apply Qle_refl|apply duration_nonneg]. }
  split; [exact H1|]. split; [rewrite H2, Hpos; reflexivity|]. split; [exact H3|].
  apply startPlayback_source. rewrite Hbuf. discriminate.
Qed.

End Restart.

(** X13: stop and natural end.  The stop button halts playback, drops the
    source and rewinds to 0, and pressing it again changes nothing more;
    when the active source reaches its end the session also stops at 0.
    In both cases the audio is kept, so that the next play click, for the
    same text and voice, starts a new source at 0 without a call of the
    service. *)
Theorem stop_or_end_then_play_restarts (a : App) (service : Service) :
  cached a -> forallb isWhiteSpace (text (state a)) = false ->
  let stopped := step a StopClicked in
  (isPlaying (state stopped) = false
   /\ playbackPosition (state stopped) = 0%Q
   /\ sourceRef (refs stopped) = None
   /\ step stopped StopClicked = stopped
   /\ isPlaying (state (step stopped (PlayClicked service))) = true
   /\ (reported (step stopped (PlayClicked service)) == 0)%Q
   /\ synthesisCalls (step stopped (PlayClicked service)) = synthesisCalls a)
  /\ (forall source, sourceRef (refs a) = Some source ->
        let ended := step a (SourceEnded (nodeId source)) in
        isPlaying (state ended) = false
        /\ playbackPosition (state ended) = 0%Q
        /\ isPlaying (state (step ended (PlayClicked service))) = true
        /\ (reported (step ended (PlayClicked service)) == 0)%Q
        /\ synthesisCalls (step ended (PlayClicked service)) = synthesisCalls a
        /\ sourceRef (refs (step ended (PlayClicked service)))
           = Some (mkSource (nodesCreated a) (playbackSpeed (config (state a))))).
Proof.
  intros (Hb & Ht & Hv) Hnb. cbv zeta. split.
  - destruct (stopAudio_reset (state a) a)
      as (Hp & Hpos & Ht' & Hc' & Hs & Hb' & Hlt & Hlv & Hcalls).
    change (stopAudio (state a) true a) with (step a StopClicked) in *.
    assert (Hcached : cached (step a StopClicked)).
    { unfold cached. rewrite Hb', Hlt, Hlv, Ht', Hc'. auto. }
    destruct (play_from_zero (step a StopClicked) service Hcached) as (H1 & H2 & H3 & _);
      [rewrite Ht'; exact Hnb|exact Hp|exact Hpos|].
    split; [exact Hp|]. split; [exact Hpos|]. split; [exact Hs|].
    split; [apply stopAudio_reset_twice|].
    split; [exact H1|]. split; [exact H2|]. rewrite H3. exact Hcalls.
  - intros source Hsrc.
    assert (Hended : step a (SourceEnded (nodeId source))
                     = setPlaybackPosition 0%Q (setIsPlaying false a)).
    { unfold step, onended. rewrite Hsrc, Nat.eqb_refl. reflexivity. }
    rewrite Hended.
    assert (Hcached : cached (setPlaybackPosition 0%Q (setIsPlaying false a)))
      by (repeat split; assumption).
    destruct (play_from_zero _ service Hcached) as (H1 & H2 & H3 & H4);
      [exact Hnb|reflexivity|reflexivity|].
    repeat split; assumption.
Qed.

Lemma stop_or_end_then_play_restarts_witness :
  cached playingApp /\ forallb isWhiteSpace (text (state playingApp)) = false
  /\ (reported (run playingApp [StopClicked; PlayClicked noService]) == 0)%Q
  /\ (reported (run playingApp [SourceEnded 0; PlayClicked noService]) == 0)%Q.
Proof.
  assert (Hc : cached playingApp) by (repeat split; vm_compute; discriminate).
  assert (Hnb : forallb isWhiteSpace (text (state playingApp)) = false) by reflexivity.
  split; [exact Hc|]. split; [exact Hnb|].
  destruct (stop_or_end_then_play_restarts playingApp noService Hc Hnb)
    as ((_ & _ & _ & _ & _ & Hrep & _) & Hend).
  split; [exact Hrep|].
  destruct (Hend (mkSource 0 1) eq_refl) as (_ & _ & _ & Hrep' & _).
  exact Hrep'.
Defined.

(** X14: a skip without a buffer does nothing.  With a buffer the reported
    position afterwards is within [0, duration]: it is the end of the
    buffer when the position plus the seconds reaches or passes it, and 0
    when that sum is 0 or less; a skip forward from a position within the
    buffer never moves back and a skip backward never moves forward; the
    session stays playing or stopped as it was, keeps its buffer, and
    nothing is synthesized. *)
Theorem skip_moves_position (a : App) (seconds : Q) :
  let a' := step a (SkipClicked seconds) in
  match audioBufferRef (refs a) with
  | None => a' = a
  | Some buffer =>
      isPlaying (state a') = isPlaying (state a)
      /\ (0 <= reported a' <= duration buffer)%Q
      /\ ((duration buffer <= reported a + seconds)%Q -> (reported a' == duration buffer)%Q)
      /\ ((reported a + seconds <= 0)%Q -> (reported a' == 0)%Q)
      /\ ((0 <= seconds)%Q -> (reported a <= duration buffer)%Q ->
          (reported a <= reported a')%Q)
      /\ ((seconds <= 0)%Q -> (0 <= reported a)%Q -> (reported a' <= reported a)%Q)
      /\ audioBufferRef (refs a') = Some buffer
      /\ synthesisCalls a' = synthesisCalls a
  end.
Proof.
  cbv zeta. unfold step, handleSkip.
  destruct (audioBufferRef (refs a)) as [buffer|] eqn:Hbuf; [|reflexivity].
  cbv zeta. fold (reported a).
  set (newPos := Qmax 0 (Qmin (reported a + seconds) (duration buffer))).
  pose proof (clamp_range (reported a + seconds) (duration buffer) (duration_nonneg buffer))
    as Hrange. fold newPos in Hrange.
  assert (Hmain :
    let a' := if isPlaying (state a)
              then startPlayback (state a) newPos (setPlaybackPosition newPos a)
              else setPlaybackPosition newPos a in
    isPlaying (state a') = isPlaying (state a)
    /\ (reported a' == newPos)%Q
    /\ audioBufferRef (refs a') = Some buffer
    /\ synthesisCalls a' = synthesisCalls a).
  { cbv zeta. destruct (isPlaying (state a)) eqn:Hp.
    - assert (Hb' : audioBufferRef (refs (setPlaybackPosition newPos a)) = Some buffer)
        by exact Hbuf.
      destruct (reported_startPlayback (state a) newPos _ buffer Hb') as [H1 H2].
      split; [exact H1|]. split; [rewrite H2; apply clamp_id; exact Hrange|].
      split.
      + destruct (startPlayback_source (state a) newPos (setPlaybackPosition newPos a))
          as (_ & _ & H3); [rewrite Hb'; discriminate|].
        rewrite H3. exact Hb'.
      + rewrite startPlayback_calls. reflexivity.
    - split; [exact Hp|]. split; [|split; [exact Hbuf|reflexivity]].
      rewrite reported_stopped by exact Hp. reflexivity. }
  cbv zeta in Hmain. destruct Hmain as (H1 & H2 & H3 & H4).
  split; [exact H1|]. split; [rewrite H2; exact Hrange|].
  split; [intros Hhi; rewrite H2; apply clamp_high; [apply duration_nonneg|exact Hhi]|].
  split; [intros Hlo; rewrite H2; apply clamp_low; [apply duration_nonneg|exact Hlo]|].
  split.
  { intros Hfwd Hin. rewrite H2. unfold newPos.
    eapply Qle_trans; [|apply Q.le_max_r].
    apply Q.min_glb; [lra|exact Hin]. }
  split; [|split; assumption].
  intros Hback Hin. rewrite H2. unfold newPos.
  apply Q.max_lub; [exact Hin|].
  eapply Qle_trans; [apply Q.le_min_l|lra].
Qed.

Section ExportPath.

(** An export of the text whose audio is at hand encodes that audio. *)
Lemma handleExport_held (r : State) (format : ExportFormat) (now : N) (service : Service)
  (a : App) (buffer : AudioBuffer) :
  audioBufferRef (refs a) = Some buffer -> lastGeneratedTextRef (refs a) = text r ->
  handleExport r format now service a
  = setIsExportMenuOpen false
      (mkApp (state a) (refs a) (nodesCreated a) (synthesisCalls a)
         (mkDownload (lit "t2s_audio_" ++ toString now ++ lit "." ++ formatName format)
                     (mkBlob (wavBytes buffer) (lit "audio/wav")) :: downloads a)).
Proof.
  intros Hb Ht. unfold handleExport.
  rewrite (bool_decide_eq_false_2 (text r ≠ lastGeneratedTextRef (refs a)))
    by (intros H; apply H; symmetry; exact Ht).
  rewrite (bool_decide_eq_false_2 (audioBufferRef (refs a) = None))
    by (rewrite Hb; discriminate).
  simpl. rewrite Hb, audioBufferToWav_bytes. reflexivity.
Qed.

End ExportPath.

(** X15: the export path does not look at the voice.  After a change of
    voice, an export of the text whose audio is held downloads the encoding
    of that audio, made with the earlier voice, without a call of the
    service and without touching the buffer or its fingerprints; a play
    click in the same stopped session does call the service, for the new
    voice. *)
Theorem export_ignores_voice_change (a : App) (v : VoiceName) (format : ExportFormat)
  (now : N) (service : Service) (buffer : AudioBuffer) :
  audioBufferRef (refs a) = Some buffer ->
  lastGeneratedTextRef (refs a) = text (state a) ->
  let changed := step a (VoiceChanged v) in
  let exported := step changed (ExportClicked format now service) in
  synthesisCalls exported = synthesisCalls a
  /\ downloads exported
     = mkDownload (lit "t2s_audio_" ++ toString now ++ lit "." ++ formatName format)
                  (mkBlob (wavBytes buffer) (lit "audio/wav")) :: downloads a
  /\ refs exported = refs a
  /\ (Some v <> lastGeneratedVoiceRef (refs a) ->
      isPlaying (state a) = false ->
      forallb isWhiteSpace (text (state a)) = false ->
      synthesisCalls (step changed (PlayClicked service))
      = (text (state a), v) :: synthesisCalls a).
Proof.
  intros Hb Ht. cbv zeta.
  assert (Hexp : step (step a (VoiceChanged v)) (ExportClicked format now service)
                 = setIsExportMenuOpen false
                     (mkApp (state (changeVoice v a)) (refs a) (nodesCreated a)
                        (synthesisCalls a)
                        (mkDownload
                           (lit "t2s_audio_" ++ toString now ++ lit "." ++ formatName format)
                           (mkBlob (wavBytes buffer) (lit "audio/wav")) :: downloads a))).
  { unfold step.
    exact (handleExport_held (state (changeVoice v a)) format now service
             (changeVoice v a) buffer Hb Ht). }
  rewrite Hexp. repeat split.
  intros Hv Hp Hnb.
  assert (Hnc : ~ cached (changeVoice v a)).
  { intros (_ & _ & Hv'). apply Hv. symmetry. exact Hv'. }
  unfold step at 1.
  change (step a (VoiceChanged v)) with (changeVoice v a).
  rewrite (playAudio_synthesizes (changeVoice v a) service Hnb Hp Hnc).
  cbv zeta. unfold callGenerateSpeech.
  destruct (service _ _); [rewrite startPlayback_calls|]; reflexivity.
Qed.

Lemma export_ignores_voice_change_witness :
  let a := step playingApp (PlayClicked noService) in
  audioBufferRef (refs a) = Some specBuffer
  /\ lastGeneratedTextRef (refs a) = text (state a)
  /\ synthesisCalls (run a [VoiceChanged Puck; ExportClicked mp3 7 noService])
     = synthesisCalls a
  /\ synthesisCalls (run a [VoiceChanged Puck; PlayClicked noService])
     = (lit "Hello world", Puck) :: synthesisCalls a.
Proof.
  cbv zeta.
  assert (Hb : audioBufferRef (refs (step playingApp (PlayClicked noService)))
               = Some specBuffer) by reflexivity.
  assert (Ht : lastGeneratedTextRef (refs (step playingApp (PlayClicked noService)))
               = text (state (step playingApp (PlayClicked noService)))) by reflexivity.
  split; [exact Hb|]. split; [exact Ht|].
  destruct (export_ignores_voice_change _ Puck mp3 7 noService specBuffer Hb Ht)
    as (Hcalls & _ & _ & Hplay).
  split; [exact Hcalls|].
  apply Hplay; [discriminate|reflexivity|reflexivity].
Defined.

(** X16: a play click in a stopped session with a non-blank text whose
    audio is not held calls the service once, for the current text and
    voice.  When a buffer comes back it is stored with both fingerprints,
    playback starts at 0 and the loading flag is off again, so that the
    session now holds the audio of its text and voice; when none comes
    back the session stays stopped, with the buffer and the fingerprints it
    had. *)
Theorem play_synthesizes_and_caches (a : App) (service : Service) :
  isPlaying (state a) = false -> forallb isWhiteSpace (text (state a)) = false ->
  ~ cached a ->
  let a' := step a (PlayClicked service) in
  synthesisCalls a' = (text (state a), voiceName (config (state a))) :: synthesisCalls a
  /\ isLoading (state a') = false
  /\ match service (text (state a)) (voiceName (config (state a))) with
     | Some buffer =>
         audioBufferRef (refs a') = Some buffer
         /\ cached a'
         /\ isPlaying (state a') = true
         /\ (reported a' == 0)%Q
     | None =>
         isPlaying (state a') = false
         /\ refs a' = refs a
         /\ playbackPosition (state a') = playbackPosition (state a)
     end.
Proof.
  intros Hp Hnb Hnc. cbv zeta. unfold step.
  rewrite (playAudio_synthesizes a service Hnb Hp Hnc). cbv zeta.
  unfold callGenerateSpeech.
  destruct (service (text (state a)) (voiceName (config (state a)))) as [buffer|].
  - set (a3 := setLastGeneratedVoiceRef _ _).
    assert (Hb : audioBufferRef (refs a3) = Some buffer) by reflexivity.
    destruct (reported_startPlayback (state a) 0 a3 buffer Hb) as [H1 H2].
    destruct (startPlayback_source (state a) 0 a3) as (_ & _ & H3);
      [rewrite Hb; discriminate|].
    assert (Hcached : cached a3) by (repeat split; discriminate).
    split; [rewrite startPlayback_calls; reflexivity|].
    split.
    { unfold startPlayback. rewrite Hb. unfold stopAudio.
      destruct (sourceRef (refs a3)); reflexivity. }
    split; [rewrite H3; exact Hb|].
    split.
    { apply startPlayback_cached, Hcached. }
    split; [exact H1|].
    rewrite H2. apply clamp_id. split; [apply Qle_refl|apply duration_nonneg].
  - repeat split. exact Hp.
Qed.

Lemma play_synthesizes_and_caches_witness :
  let a := step initialApp (TextChanged (lit "Hello world")) in
  isPlaying (state a) = false /\ forallb isWhiteSpace (text (state a)) = false
  /\ ~ cached a
  /\ synthesisCalls (step a (PlayClicked (speaks specBuffer))) = [(lit "Hello world", Kore)]
  /\ cached (step a (PlayClicked (speaks specBuffer))).
Proof.
  cbv zeta.
  assert (Hp : isPlaying (state (step initialApp (TextChanged (lit "Hello world")))) = false)
    by reflexivity.
  assert (Hnb : forallb isWhiteSpace
                  (text (state (step initialApp (TextChanged (lit "Hello world"))))) = false)
    by reflexivity.
  assert (Hnc : ~ cached (step initialApp (TextChanged (lit "Hello world")))).
  { intros (Hb & _). apply Hb. reflexivity. }
  split; [exact Hp|]. split; [exact Hnb|]. split; [exact Hnc|].
  destruct (play_synthesizes_and_caches _ (speaks specBuffer) Hp Hnb Hnc)
    as (Hcalls & _ & Hrest).
  split; [exact Hcalls|].
  exact (proj1 (proj2 Hrest)).
Defined.

(** X17: "New File" clears the text and rewinds, but keeps the buffer and
    both fingerprints.  A play click on the cleared text does nothing;
    once the earlier text is typed again, a play click starts at 0 without
    a call of the service. *)
Theorem new_file_keeps_audio (a : App) (service : Service) :
  cached a -> forallb isWhiteSpace (text (state a)) = false ->
  let cleared := step a NewFileClicked in
  let retyped := step cleared (TextChanged (text (state a))) in
  text (state cleared) = []
  /\ isPlaying (state cleared) = false
  /\ playbackPosition (state cleared) = 0%Q
  /\ sourceRef (refs cleared) = None
  /\ audioBufferRef (refs cleared) = audioBufferRef (refs a)
  /\ lastGeneratedTextRef (refs cleared) = lastGeneratedTextRef (refs a)
  /\ lastGeneratedVoiceRef (refs cleared) = lastGeneratedVoiceRef (refs a)
  /\ step cleared (PlayClicked service) = cleared
  /\ isPlaying (state (step retyped (PlayClicked service))) = true
  /\ (reported (step retyped (PlayClicked service)) == 0)%Q
  /\ synthesisCalls (step retyped (PlayClicked service)) = synthesisCalls a.
Proof.
  intros (Hb & Ht & Hv) Hnb. cbv zeta.
  destruct (stopAudio_reset (state a) (setText [] a))
    as (Hp & Hpos & Ht' & Hc' & Hs & Hb' & Hlt & Hlv & Hcalls).
  change (stopAudio (state a) true (setText [] a)) with (step a NewFileClicked) in *.
  split; [rewrite Ht'; reflexivity|].
  split; [exact Hp|]. split; [exact Hpos|]. split; [exact Hs|].
  split; [exact Hb'|]. split; [exact Hlt|]. split; [exact Hlv|].
  split.
  { unfold step at 1, playAudio. rewrite Ht'. reflexivity. }
  set (retyped := step (step a NewFileClicked) (TextChanged (text (state a)))).
  assert (Hcached : cached retyped).
  { unfold cached.
    change (refs retyped) with (refs (step a NewFileClicked)).
    change (text (state retyped)) with (text (state a)).
    change (config (state retyped)) with (config (state (step a NewFileClicked))).
    rewrite Hb', Hlt, Hlv, Hc'. split; [exact Hb|]. split; [exact Ht|exact Hv]. }
  destruct (play_from_zero retyped service Hcached) as (H1 & H2 & H3 & _).
  - exact Hnb.
  - exact Hp.
  - exact Hpos.
  - split; [exact H1|]. split; [exact H2|]. rewrite H3. exact Hcalls.
Qed.

Lemma new_file_keeps_audio_witness :
  cached playingApp /\ forallb isWhiteSpace (text (state playingApp)) = false
  /\ audioBufferRef (refs (step playingApp NewFileClicked)) = Some specBuffer
  /\ synthesisCalls
       (run playingApp
          [NewFileClicked; TextChanged (lit "Hello world"); PlayClicked noService])
     = [(lit "Hello world", Kore)].
Proof.
  assert (Hc : cached playingApp) by (repeat split; vm_compute; discriminate).
  assert (Hnb : forallb isWhiteSpace (text (state playingApp)) = false) by reflexivity.
  split; [exact Hc|]. split; [exact Hnb|].
  destruct (new_file_keeps_audio playingApp noService Hc Hnb)
    as (_ & _ & _ & _ & Hb & _ & _ & _ & _ & _ & Hcalls).
  split; [exact Hb|exact Hcalls].
Defined.

(** X18: an export never touches the transport: whether it synthesizes or
    not, and whether it succeeds or not, the playing flag, the stored
    position, the active source, the context, both anchors of the position
    formula, the text, the settings and the number of source nodes are
    afterwards what they were. *)
Theorem export_leaves_transport (a : App) (format : ExportFormat) (now : N)
  (service : Service) :
  let a' := step a (ExportClicked format now service) in
  isPlaying (state a') = isPlaying (state a)
  /\ playbackPosition (state a') = playbackPosition (state a)
  /\ text (state a') = text (state a)
  /\ config (state a') = config (state a)
  /\ sourceRef (refs a') = sourceRef (refs a)
  /\ audioContextRef (refs a') = audioContextRef (refs a)
  /\ playbackStartedAtRef (refs a') = playbackStartedAtRef (refs a)
  /\ playbackOffsetAtStartRef (refs a') = playbackOffsetAtStartRef (refs a)
  /\ nodesCreated a' = nodesCreated a.
Proof. apply handleExport_transport. Qed.

(** X19: the frame refresh shows the reported position.  After a frame the
    stored position is the position reported before it, playing or not; the
    frame changes nothing else, does not move the reported position, and a
    second frame at the same clock reading changes nothing. *)
Theorem frame_shows_reported_position (a : App) :
  let a' := step a FrameDue in
  (isPlaying (state a) = true -> playbackPosition (state a') = reported a)
  /\ (isPlaying (state a) = false -> a' = a)
  /\ a' = setPlaybackPosition (playbackPosition (state a')) a
  /\ reported a' = reported a
  /\ step a' FrameDue = a'.
Proof.
  cbv zeta. unfold step, update.
  destruct (isPlaying (state a)) eqn:Hp.
  - split; [reflexivity|]. split; [discriminate|]. split; [reflexivity|].
    assert (Hrep : reported (setPlaybackPosition (getCurrentOffset (state a) a) a)
                   = reported a).
    { unfold reported, getCurrentOffset. simpl. rewrite Hp.
      destruct (audioContextRef (refs a)); reflexivity. }
    split; [exact Hrep|].
    set (a' := setPlaybackPosition (getCurrentOffset (state a) a) a) in *.
    change (isPlaying (state a')) with (isPlaying (state a)). rewrite Hp.
    change (getCurrentOffset (state a') a') with (reported a'). rewrite Hrep.
    reflexivity.
  - split; [discriminate|]. split; [reflexivity|]. split; [destruct a as [[] ? ? ? ?]; reflexivity|].
    split; [reflexivity|]. rewrite Hp. reflexivity.
Qed.

Section Inert.

(** A change of the settings that keeps voice and playback speed and that
    commutes with the choice of either. *)
Variable tune : TTSConfig -> TTSConfig.

Hypothesis tune_voice : forall c, voiceName (tune c) = voiceName c.

Hypothesis tune_speed : forall c, playbackSpeed (tune c) = playbackSpeed c.

Hypothesis tune_setSpeed : forall c v,
  tune (mkTTSConfig (voiceName c) (speechRate c) v (pitch c) (theme c))
  = mkTTSConfig (voiceName (tune c)) (speechRate (tune c)) v (pitch (tune c)) (theme (tune c)).

Hypothesis tune_setVoice : forall c v,
  tune (mkTTSConfig v (speechRate c) (playbackSpeed c) (pitch c) (theme c))
  = mkTTSConfig v (speechRate (tune c)) (playbackSpeed (tune c)) (pitch (tune c))
      (theme (tune c)).

Let tuned (r : State) : State :=
  mkState (text r) (isExportMenuOpen r) (isPlaying r) (isLoading r) (playbackPosition r)
    (tune (config r)).

Lemma tune_getCurrentOffset (r : State) (a : App) :
  getCurrentOffset (tuned r) (setConfig tune a) = getCurrentOffset r a.
Proof.
  unfold getCurrentOffset, tuned.
  cbn [setConfig withState refs isPlaying playbackPosition config].
  rewrite tune_speed. reflexivity.
Qed.

Lemma tune_stopAudio (r : State) (reset : bool) (a : App) :
  stopAudio (tuned r) reset (setConfig tune a) = setConfig tune (stopAudio r reset a).
Proof.
  unfold stopAudio. change (refs (setConfig tune a)) with (refs a).
  destruct (sourceRef (refs a)), reset; cbn [negb]; rewrite ?tune_getCurrentOffset;
    reflexivity.
Qed.

Lemma tune_startPlayback (r : State) (offset : Q) (a : App) :
  startPlayback (tuned r) offset (setConfig tune a)
  = setConfig tune (startPlayback r offset a).
Proof.
  unfold startPlayback. change (refs (setConfig tune a)) with (refs a).
  destruct (audioBufferRef (refs a)); [|reflexivity].
  cbv zeta. rewrite tune_stopAudio.
  change (config (tuned r)) with (tune (config r)). rewrite tune_speed.
  reflexivity.
Qed.

Lemma tune_playAudio (r : State) (service : Service) (a : App) :
  playAudio (tuned r) service (setConfig tune a) = setConfig tune (playAudio r service a).
Proof.
  unfold playAudio. change (refs (setConfig tune a)) with (refs a).
  change (text (tuned r)) with (text r). change (isPlaying (tuned r)) with (isPlaying r).
  change (playbackPosition (tuned r)) with (playbackPosition r).
  change (config (tuned r)) with (tune (config r)). rewrite tune_voice.
  destruct (negb (truthy (trim (text r)))); [reflexivity|].
  destruct (isPlaying r); [apply tune_stopAudio|].
  destruct (_ || _); [|apply tune_startPlayback].
  unfold callGenerateSpeech.
  destruct (service (text r) (voiceName (config r))); [|reflexivity].
  match goal with
  | |- _ = setConfig tune (startPlayback r 0 ?a3) => exact (tune_startPlayback r 0 a3)
  end.
Qed.

Lemma tune_handleSkip (r : State) (seconds : Q) (a : App) :
  handleSkip (tuned r) seconds (setConfig tune a)
  = setConfig tune (handleSkip r seconds a).
Proof.
  unfold handleSkip. change (refs (setConfig tune a)) with (refs a).
  destruct (audioBufferRef (refs a)); [|reflexivity].
  cbv zeta. rewrite tune_getCurrentOffset.
  change (isPlaying (tuned r)) with (isPlaying r).
  destruct (isPlaying r); [|reflexivity].
  match goal with
  | |- _ = setConfig tune (startPlayback r ?o ?a1) => exact (tune_startPlayback r o a1)
  end.
Qed.

Lemma tune_handleExport (r : State) (format : ExportFormat) (now : N) (service : Service)
  (a : App) :
  handleExport (tuned r) format now service (setConfig tune a)
  = setConfig tune (handleExport r format now service a).
Proof.
  unfold handleExport. change (refs (setConfig tune a)) with (refs a).
  change (text (tuned r)) with (text r).
  change (config (tuned r)) with (tune (config r)). rewrite tune_voice.
  destruct (_ || _).
  - unfold callGenerateSpeech.
    destruct (service (text r) (voiceName (config r)));
      [rewrite audioBufferToWav_bytes|]; reflexivity.
  - destruct (audioBufferRef (refs a)); [rewrite audioBufferToWav_bytes|]; reflexivity.
Qed.

Lemma tune_step (a : App) (ev : Event) :
  step (setConfig tune a) ev = setConfig tune (step a ev).
Proof.
  destruct ev; unfold step; change (state (setConfig tune a)) with (tuned (state a)).
  - apply tune_playAudio.
  - apply tune_stopAudio.
  - apply tune_handleSkip.
  - apply tune_handleExport.
  - unfold changePlaybackSpeed, setSourceRef, setConfig, withState, withRefs.
    cbn [state refs nodesCreated synthesisCalls downloads config text isExportMenuOpen
         isPlaying isLoading playbackPosition].
    destruct (sourceRef (refs a));
      cbn [state refs nodesCreated synthesisCalls downloads config text isExportMenuOpen
           isPlaying isLoading playbackPosition];
      rewrite tune_setSpeed; reflexivity.
  - unfold changeVoice, setConfig, withState.
    cbn [state refs nodesCreated synthesisCalls downloads config text isExportMenuOpen
         isPlaying isLoading playbackPosition].
    rewrite tune_setVoice. reflexivity.
  - reflexivity.
  - unfold newFile. apply (tune_stopAudio (state a) true (setText [] a)).
  - unfold update. change (isPlaying (tuned (state a))) with (isPlaying (state a)).
    destruct (isPlaying (state a)); [|reflexivity].
    rewrite tune_getCurrentOffset. reflexivity.
  - unfold onended. change (refs (setConfig tune a)) with (refs a).
    destruct (sourceRef (refs a)) as [source|]; [|reflexivity].
    destruct (nodeId source =? node)%nat; reflexivity.
  - unfold advanceClock. change (refs (setConfig tune a)) with (refs a).
    destruct (audioContextRef (refs a)); reflexivity.
Qed.

Lemma tune_run (evs : list Event) :
  forall a, run (setConfig tune a) evs = setConfig tune (run a evs).
Proof.
  induction evs as [|ev evs IH]; intros a; [reflexivity|].
  cbn [run fold_left]. rewrite tune_step. apply IH.
Qed.

End Inert.

(** X20: the speech-rate and pitch sliders are inert.  Moving either of
    them changes its own setting and nothing else, at once or later: any
    sequence of events leads to the same session whether the slider is moved
    before or after it, so that the same audio is synthesized, played,
    reported and exported. *)
Theorem rate_and_pitch_are_inert (a : App) (evs : list Event) (newVal : Q) :
  run (changeSpeechRate newVal a) evs = changeSpeechRate newVal (run a evs)
  /\ run (changePitch newVal a) evs = changePitch newVal (run a evs)
  /\ refs (run (changeSpeechRate newVal a) evs) = refs (run a evs)
  /\ refs (run (changePitch newVal a) evs) = refs (run a evs)
  /\ synthesisCalls (run (changeSpeechRate newVal a) evs) = synthesisCalls (run a evs)
  /\ synthesisCalls (run (changePitch newVal a) evs) = synthesisCalls (run a evs)
  /\ downloads (run (changeSpeechRate newVal a) evs) = downloads (run a evs)
  /\ downloads (run (changePitch newVal a) evs) = downloads (run a evs)
  /\ reported (run (changeSpeechRate newVal a) evs) = reported (run a evs)
  /\ reported (run (changePitch newVal a) evs) = reported (run a evs).
Proof.
  assert (Hrate : run (changeSpeechRate newVal a) evs = changeSpeechRate newVal (run a evs)).
  { unfold changeSpeechRate. apply tune_run; reflexivity. }
  assert (Hpitch : run (changePitch newVal a) evs = changePitch newVal (run a evs)).
  { unfold changePitch. apply tune_run; reflexivity. }
  rewrite Hrate, Hpitch. repeat split; reflexivity.
Qed.
